(** * kgx.sparql_transformer: pagination and batching of a SPARQL fetch

    A shallow embedding of [kgx/sparql_transformer.py]: the generic loader
    [SparqlTransformer.load_networkx_graph], and the association-scoped
    driver of [RedSparqlTransformer] ([load_networkx_graph], [load_nodes],
    [_grouper], [categorize]).

    The program talks to three collaborators that are not part of the
    file: the SPARQL endpoint, the graph mutator of [RdfGraphMixin], and
    [un_camel_case].  The endpoint and [un_camel_case] are variables of the
    development; the graph mutator is an interface with one instance that
    follows the written specification.  Every request sent to the endpoint
    and every call of the mutator is recorded in an event trace, and the
    statements below are about that trace and about the graph. *)

From Stdlib Require Import ZArith Ascii String List Lia.
From stdpp Require Import base tactics option list strings gmap fin_maps fin_sets sets.

Local Open Scope string_scope.
Local Open Scope Z_scope.

(** ** Python strings *)

Module PyStr.

(** ['<{}>'.format(x)] *)
Definition angle (x : string) : string := "<" ++ x ++ ">".

(** [s.startswith(p)] *)
Fixpoint startswith (p s : string) : bool :=
  match p, s with
  | EmptyString, _ => true
  | String a p', String b s' => if Ascii.eqb a b then startswith p' s' else false
  | String _ _, EmptyString => false
  end.

(** [s.split(sep)] for a one-character separator: the pieces between the
    separators, empty pieces kept. *)
Fixpoint split (sep : ascii) (s : string) : list string :=
  match s with
  | EmptyString => [EmptyString]
  | String c s' =>
      if Ascii.eqb c sep then EmptyString :: split sep s'
      else match split sep s' with
           | piece :: pieces => String c piece :: pieces
           | [] => [String c EmptyString]
           end
  end.

(** [s.replace(old, '')]: every occurrence of [old], found left to right
    and not overlapping, is deleted.  [skip] counts the characters of the
    occurrence that is being deleted. *)
Fixpoint delete_all_from (old : string) (skip : nat) (s : string) : string :=
  match s with
  | EmptyString => EmptyString
  | String c s' =>
      match skip with
      | S k => delete_all_from old k s'
      | O =>
          if startswith old s
          then delete_all_from old (Nat.pred (String.length old)) s'
          else String c (delete_all_from old O s')
      end
  end.

Definition delete_all (old s : string) : string :=
  match old with
  | EmptyString => s
  | _ => delete_all_from old O s
  end.

(** [sep.join(items)] *)
Definition join (sep : string) (items : list string) : string :=
  String.concat sep items.

(** A Python [str] is held as its UTF-8 encoding, one [ascii] a byte: the
    functions above look for ASCII text only, and a byte below 128 is
    never part of the encoding of another character. *)
Definition code (c : ascii) : Z := Z.of_nat (nat_of_ascii c).

Definition chr (n : Z) : ascii := ascii_of_nat (Z.to_nat n).

(** The payload of a continuation byte [10xxxxxx]. *)
Definition continuation (c : ascii) : option Z :=
  let n := code c in
  if (0x80 <=? n) && (n <? 0xc0) then Some (n - 0x80) else None.

(** The code points of a string; [None] stands for bytes that encode no
    code point. *)
Fixpoint code_points (s : string) : list (option Z) :=
  match s with
  | EmptyString => []
  | String b0 s0 =>
      let n0 := code b0 in
      if n0 <? 0x80 then Some n0 :: code_points s0
      else
        match s0 with
        | String b1 s1 =>
            match continuation b1 with
            | Some n1 =>
                if (0xc2 <=? n0) && (n0 <? 0xe0)
                then Some ((n0 - 0xc0) * 64 + n1) :: code_points s1
                else
                  match s1 with
                  | String b2 s2 =>
                      match continuation b2 with
                      | Some n2 =>
                          if (0xe0 <=? n0) && (n0 <? 0xf0)
                          then
                            let cp := ((n0 - 0xe0) * 64 + n1) * 64 + n2 in
                            (if 0x800 <=? cp then Some cp else None)
                              :: code_points s2
                          else
                            match s2 with
                            | String b3 s3 =>
                                match continuation b3 with
                                | Some n3 =>
                                    let cp :=
                                      (((n0 - 0xf0) * 64 + n1) * 64 + n2) * 64 + n3 in
                                    (if (0xf0 <=? n0) && (0x10000 <=? cp)
                                        && (cp <=? 0x10ffff)
                                     then Some cp else None)
                                      :: code_points s3
                                | None => [None]
                                end
                            | EmptyString => [None]
                            end
                      | None => [None]
                      end
                  | EmptyString => [None]
                  end
            | None => [None]
            end
        | EmptyString => [None]
        end
  end.

(** [Py_ISSPACE]: the blanks of the C locale. *)
Definition is_space (c : ascii) : bool :=
  let n := code c in (n =? 32) || ((9 <=? n) && (n <=? 13)).

(** [Py_UNICODE_ISSPACE] above the ASCII range. *)
Definition unicode_space (cp : Z) : bool :=
  (cp =? 0x85) || (cp =? 0xa0) || (cp =? 0x1680)
  || ((0x2000 <=? cp) && (cp <=? 0x200a))
  || (cp =? 0x2028) || (cp =? 0x2029) || (cp =? 0x202f) || (cp =? 0x205f)
  || (cp =? 0x3000).

(** The digit zero of every run of ten decimal digits above the ASCII
    range (Unicode 14, the character database of CPython 3.11). *)
Definition decimal_zeros : list Z :=
  [ 0x660; 0x6f0; 0x7c0; 0x966; 0x9e6; 0xa66; 0xae6; 0xb66; 0xbe6; 0xc66;
    0xce6; 0xd66; 0xde6; 0xe50; 0xed0; 0xf20; 0x1040; 0x1090; 0x17e0;
    0x1810; 0x1946; 0x19d0; 0x1a80; 0x1a90; 0x1b50; 0x1bb0; 0x1c40; 0x1c50;
    0xa620; 0xa8d0; 0xa900; 0xa9d0; 0xa9f0; 0xaa50; 0xabf0; 0xff10;
    0x104a0; 0x10d30; 0x11066; 0x110f0; 0x11136; 0x111d0; 0x112f0; 0x11450;
    0x114d0; 0x11650; 0x116c0; 0x11730; 0x118e0; 0x11950; 0x11c50; 0x11d50;
    0x11da0; 0x16a60; 0x16ac0; 0x16b50; 0x1d7ce; 0x1d7d8; 0x1d7e2; 0x1d7ec;
    0x1d7f6; 0x1e140; 0x1e2f0; 0x1e950; 0x1fbf0 ].

(** [Py_UNICODE_TODECIMAL] above the ASCII range. *)
Definition to_decimal (cp : Z) : option Z :=
  (λ zero, cp - zero)
    <$> List.find (λ zero, (zero <=? cp) && (cp <=? zero + 9)) decimal_zeros.

(** [_PyUnicode_TransformDecimalAndSpaceToASCII]: an ASCII string is
    returned as it is; in any other string a character below 127 is kept,
    a blank becomes a space, a decimal digit becomes its ASCII digit, and
    the string is cut after a question mark at the first character that is
    none of these. *)
Fixpoint to_ascii (cps : list (option Z)) : string :=
  match cps with
  | [] => EmptyString
  | Some cp :: rest =>
      if cp <? 127 then String (chr cp) (to_ascii rest)
      else if unicode_space cp then String " " (to_ascii rest)
      else match to_decimal cp with
           | Some d => String (chr (48 + d)) (to_ascii rest)
           | None => "?"
           end
  | None :: _ => "?"
  end.

Definition is_ascii (s : string) : bool :=
  forallb (λ c, code c <? 0x80) (list_ascii_of_string s).

Definition transform_decimal_and_space_to_ascii (s : string) : string :=
  if is_ascii s then s else to_ascii (code_points s).

Definition is_digit (c : ascii) : bool :=
  let n := code c in (48 <=? n) && (n <=? 57).

Fixpoint lstrip (s : string) : string :=
  match s with
  | String c s' => if is_space c then lstrip s' else s
  | EmptyString => EmptyString
  end.

(** The digits of a decimal literal, most significant first; an
    underscore is accepted between two digits.  [acc] is the value read so
    far, [prev] tells whether the previous character was a digit.  Blanks
    may follow the last digit. *)
Fixpoint digits (acc : Z) (prev : bool) (s : string) : option Z :=
  match s with
  | EmptyString => if prev then Some acc else None
  | String c s' =>
      if is_digit c
      then digits (10 * acc + (code c - 48)) true s'
      else if Ascii.eqb c "_"
      then (if prev
            then match s' with
                 | String d _ => if is_digit d then digits acc false s' else None
                 | EmptyString => None
                 end
            else None)
      else if is_space c
      then (if prev
            then match lstrip s' with EmptyString => Some acc | _ => None end
            else None)
      else None
  end.

(** [sys.int_info.default_max_str_digits]: a literal of more digits is
    refused (CPython 3.11). *)
Definition max_str_digits : Z := 4300.

Definition digit_count (s : string) : Z :=
  Z.of_nat (length (List.filter is_digit (list_ascii_of_string s))).

(** [PyLong_FromString(s, &end, 10)] with the whole of [s] read: blanks,
    an optional sign, decimal digits, blanks. *)
Definition long_from_string (s : string) : option Z :=
  if max_str_digits <? digit_count s then None
  else
    match lstrip s with
    | String "-" s' => Z.opp <$> digits 0 false s'
    | String "+" s' => digits 0 false s'
    | s' => digits 0 false s'
    end.

(** [int(s)] for a string [s], as CPython 3.11 reads it: the string is
    brought to ASCII, then read as a decimal literal.  Blanks and decimal
    digits of any script are read, the control characters 28 to 31 are not
    blanks.  [None] stands for [ValueError]. *)
Definition int (s : string) : option Z :=
  long_from_string (transform_decimal_and_space_to_ascii s).

End PyStr.

(** ** SPARQL results, queries and the graph *)

(** One cell of a result row: [{'type': ..., 'value': ...}].  The type is
    kept as the string the endpoint sends ([uri], [literal], [bnode], or
    whatever else a store answers), since the code compares it as a
    string. *)
Record Term := { type : string; value : string }.

(** One row of [results['results']['bindings']]: variable name to cell. *)
Abbreviation Binding := (gmap string Term).

Inductive Method := GET | POST.

(** A rendered query, identified by its template and the values given to
    the renderer. *)
Inductive Query :=
| GenericEdgeQuery (predicate : string)
    (* SparqlTransformer.edge_query, {'predicate': predicate} *)
| CountQuery (association : string)
    (* RedSparqlTransformer.count_query, {'association': association} *)
| EdgeQuery (association : string) (offset limit : Z)
    (* RedSparqlTransformer.edge_query, association, offset and limit *)
| NodePropertiesQuery (curie_list : list string).
    (* get_node_properties_query; the VALUES clause is ' '.join(curie_list) *)

Inductive Fault :=
| EndpointError            (* the request or the conversion of its answer failed *)
| KeyError (key : string)  (* r[key] on a row without that variable *)
| IndexError
| ValueError
| TypeError.

(** What the program does to its collaborators. *)
Inductive Event :=
| Request (m : Method) (q : Query)
| AddEdge (subject object predicate : string)
| AddNodeAttribute (node key val : string).

(** The graph under construction: every node with its attribute dict, and
    the labelled edges (subject, object, predicate) of the multigraph. *)
Record Graph := {
  nodes : gmap string (gmap string string);
  edges : list (string * string * string)
}.

Definition empty_graph : Graph := {| nodes := ∅; edges := [] |}.

(** The graph mutator: [add_edge] and [add_node_attribute] of
    [RdfGraphMixin], as functions on the graph. *)
Class GraphMutator := {
  mutate_add_edge : string → string → string → Graph → Graph;
  mutate_add_node_attribute : string → string → string → Graph → Graph
}.

(** Modelled from the spec: [RdfGraphMixin] (kgx/rdf_graph_mixin.py) is not
    among the sources.  The written specification gives the mutator as
    [add_edge(subject, object, predicate)], a labelled directed edge of a
    multigraph, and [add_node_attribute(node, key, value)], a write into the
    node's attribute mapping where the last write wins and nothing is
    removed.  Both end points of an edge are nodes of the graph. *)
Definition spec_add_node (n : string) (ns : gmap string (gmap string string))
  : gmap string (gmap string string) :=
  match ns !! n with
  | Some _ => ns
  | None => <[n := ∅]> ns
  end.

(** Modelled from the spec: [add_edge] of the absent [RdfGraphMixin]; the
    edge is appended, so that parallel edges are kept. *)
Definition spec_add_edge (s o p : string) (g : Graph) : Graph :=
  {| nodes := spec_add_node o (spec_add_node s (nodes g));
     edges := edges g ++ [(s, o, p)] |}.

(** Modelled from the spec: [add_node_attribute] of the absent
    [RdfGraphMixin]; the last write to a key wins. *)
Definition spec_add_node_attribute (n k v : string) (g : Graph) : Graph :=
  {| nodes := <[n := <[k := v]> (default ∅ (nodes g !! n))]> (nodes g);
     edges := edges g |}.

(** Modelled from the spec: the mutator made of the two operations above. *)
Definition spec_mutator : GraphMutator :=
  {| mutate_add_edge := spec_add_edge;
     mutate_add_node_attribute := spec_add_node_attribute |}.

(** Iteration over a Python set visits every element once, in an order the
    language does not fix. *)
Class SetOrder := {
  set_iter : gset string → list string;
  set_iter_perm : ∀ X, set_iter X ≡ₚ elements X
}.

Definition elements_order : SetOrder :=
  {| set_iter := elements; set_iter_perm := λ X, reflexivity (elements X) |}.

(** ** The effects of the program

    A computation starts from the graph built so far and ends with a value
    or a raised fault, the graph it leaves, and the events it emitted.  A
    fault propagates to the caller: nothing in the file catches one. *)

Inductive Outcome (A : Type) :=
| Ok (a : A)
| Raise (e : Fault).
Arguments Ok {A} a.
Arguments Raise {A} e.

Record Run (A : Type) := MkRun {
  outcome : Outcome A;
  graph : Graph;
  events : list Event
}.
Arguments MkRun {A} _ _ _.
Arguments outcome {A} _.
Arguments graph {A} _.
Arguments events {A} _.

Definition M (A : Type) : Type := Graph → Run A.

Definition ret {A} (a : A) : M A := λ g, MkRun (Ok a) g [].

Definition raise {A} (e : Fault) : M A := λ g, MkRun (Raise e) g [].

Definition bind {A B} (m : M A) (f : A → M B) : M B := λ g,
  let r := m g in
  match outcome r with
  | Ok a => let r' := f a (graph r) in
            MkRun (outcome r') (graph r') (events r ++ events r')
  | Raise e => MkRun (Raise e) (graph r) (events r)
  end.

#[export] Instance M_ret : MRet M := @ret.
#[export] Instance M_bind : MBind M := λ A B f m, bind m f.

(** [for x in l: body(x)] *)
Fixpoint for_ {A} (l : list A) (body : A → M unit) : M unit :=
  match l with
  | [] => ret tt
  | x :: l' => body x ;; for_ l' body
  end.

(** A loop that carries a local variable [s] from one round to the next. *)
Fixpoint for_fold {A S} (l : list A) (s : S) (body : S → A → M S) : M S :=
  match l with
  | [] => ret s
  | x :: l' => s' ← body s x; for_fold l' s' body
  end.

(** [r[key]] *)
Definition getitem (r : Binding) (key : string) : M Term :=
  match r !! key with
  | Some t => ret t
  | None => raise (KeyError key)
  end.

(** [range(start, stop, step)] for a positive step (the only one the
    program uses); a step that is not positive gives no element here. *)
Definition range (start stop step : Z) : list Z :=
  if 0 <? step
  then (λ k : nat, start + Z.of_nat k * step) <$> seq 0 (Z.to_nat ((stop - start + step - 1) / step))
  else [].

(** Python dicts keep their keys in the order of first insertion; writing
    to a key that is present keeps its place. *)
Abbreviation dict V := (list (string * V)).

Fixpoint dict_get {V} (k : string) (d : dict V) : option V :=
  match d with
  | [] => None
  | (k', v) :: d' => if String.eqb k k' then Some v else dict_get k d'
  end.

Fixpoint dict_set {V} (k : string) (v : V) (d : dict V) : dict V :=
  match d with
  | [] => [(k, v)]
  | (k', v') :: d' => if String.eqb k k' then (k, v) :: d' else (k', v') :: dict_set k v d'
  end.

(** ** SparqlTransformer *)

Module SparqlTransformer.
Section Transformer.
Context (endpoint : Method → Query → Fault + list Binding).
Context {mutator : GraphMutator}.
Context {order : SetOrder}.

(** [sparql.setQuery(q); sparql.query().convert()['results']['bindings']]
    with the request method [m]. *)
Definition sparql_query (m : Method) (q : Query) : M (list Binding) := λ g,
  match endpoint m q with
  | inr bindings => MkRun (Ok bindings) g [Request m q]
  | inl e => MkRun (Raise e) g [Request m q]
  end.

(** [self.query(q)] *)
Definition query (q : Query) : M (list Binding) := sparql_query GET q.

Definition add_edge (s o p : string) : M unit := λ g,
  MkRun (Ok tt) (mutate_add_edge s o p g) [AddEdge s o p].

Definition add_node_attribute (n key val : string) : M unit := λ g,
  MkRun (Ok tt) (mutate_add_node_attribute n key val g) [AddNodeAttribute n key val].

(** The body of the loop over the rows, lines 70 to 76. *)
Definition load_row (r : Binding) : M unit :=
  s ← getitem r "subject";
  p ← getitem r "predicate";
  o ← getitem r "object";
  o_type ← getitem r "object";
  if String.eqb (type o_type) "literal"
  then add_node_attribute (value s) (value p) (value o)
  else add_edge (value s) (value o) (value p).

Definition load_networkx_graph (predicates : gset string) : M unit :=
  for_ (set_iter predicates) (λ predicate,
    let predicate := PyStr.angle predicate in
    let q := GenericEdgeQuery predicate in
    results ← query q;
    for_ results load_row).

(** [get_filters], lines 111 to 115, on the dict [self.filters]: a new
    dict that receives every item of [filters] in turn. *)
Definition get_filters {V} (filters : dict V) : dict V :=
  foldl (λ d '(k, v), dict_set k v d) [] filters.

End Transformer.
End SparqlTransformer.

(** ** RedSparqlTransformer *)

Module RedSparqlTransformer.
Section Transformer.
Context (endpoint : Method → Query → Fault + list Binding).
Context (un_camel_case : string → string).
Context {mutator : GraphMutator}.
Context {order : SetOrder}.

Import SparqlTransformer.

(** *** _grouper

    [zip_longest] receives [n] references to one iterator over
    [iterable] and the fill value, so every tuple takes the next
    [n] items; the tuple that meets the end of the iterator is filled up
    with [fillvalue], and no tuple is started once the iterator is empty.
    With [n = 0] there is no argument and nothing is yielded.  An item is
    [Some s]; [fillvalue] defaults to [None]. *)
Fixpoint zip_longest_shared (fuel n : nat) (fillvalue : option string)
    (it : list (option string)) : list (list (option string)) :=
  match fuel, it with
  | S fuel', _ :: _ =>
      (take n it ++ replicate (n - length it) fillvalue)%list
        :: zip_longest_shared fuel' n fillvalue (drop n it)
  | _, _ => []
  end.

Definition _grouper (iterable : list string) (n : nat) (fillvalue : option string)
  : list (list (option string)) :=
  match n with
  | O => []
  | _ => zip_longest_shared (length iterable) n fillvalue (Some <$> iterable)
  end.

(** *** load_nodes *)

(** Truth value of a tuple item: [None] and the empty string are false. *)
Definition truthy (x : option string) : bool :=
  match x with
  | Some (String _ _) => true
  | _ => false
  end.

(** [filter(None, nodes)] *)
Definition filter_None (nodes : list (option string)) : list (option string) :=
  List.filter truthy nodes.

(** The items handed to [' '.join]: it raises [TypeError] at an item that
    is not a string. *)
Fixpoint join_items (nodes : list (option string)) : M (list string) :=
  match nodes with
  | [] => mret []
  | Some s :: nodes' => items ← join_items nodes'; mret (s :: items)
  | None :: _ => raise TypeError
  end.

(** [predicate.split(':')[1]] *)
Definition local_name (predicate : string) : M string :=
  match PyStr.split ":" predicate !! 1%nat with
  | Some name => mret name
  | None => raise IndexError
  end.

(** One round of the loop over [node_results], lines 324 to 332; [d] is
    the dict of dicts of the chunk. *)
Definition record_binding (d : dict (dict string)) (r : Binding)
  : M (dict (dict string)) :=
  o ← getitem r "object";
  if negb (String.eqb (type o) "bnode")
  then
    subject ← getitem r "subject";
    object ← getitem r "object";
    predicate ← getitem r "predicate";
    predicate ← (if PyStr.startswith "bl:" (value predicate)
                 then local_name (value predicate)
                 else mret (value predicate));
    let d := match dict_get (value subject) d with
             | None => dict_set (value subject) [] d
             | Some _ => d
             end in
    mret (dict_set (value subject)
            (dict_set predicate (value object) (default [] (dict_get (value subject) d)))
            d)
  else mret d.

(** Lines 334 to 336: the accumulated attributes go to the graph. *)
Definition flush (d : dict (dict string)) : M unit :=
  for_ d (λ '(node, attr_dict),
    for_ attr_dict (λ '(key, val), add_node_attribute node key val)).

(** Lines 322 to 337: what is done with the rows of one chunk. *)
Definition record_attributes (node_results : list Binding) : M unit :=
  d ← for_fold node_results [] record_binding;
  flush d.

(** The body of the [while] loop, for one tuple of the generator. *)
Definition load_chunk (nodes : list (option string)) : M unit :=
  let nodes := filter_None nodes in
  curie_list ← join_items nodes;
  node_results ← sparql_query endpoint POST (NodePropertiesQuery curie_list);
  record_attributes node_results.

(** The chunk size of line 308. *)
Definition chunk_size : nat := Z.to_nat 10000.

(** [next(node_generator, None)] is a tuple until the generator is
    exhausted, so the [while] loop runs once per tuple. *)
Definition load_nodes (node_set : gset string) : M unit :=
  let node_generator := _grouper (set_iter node_set) chunk_size None in
  for_ node_generator load_chunk.

(** *** categorize *)

(** The body of the loop, on the attribute dict [data] of one node. *)
Definition categorize_data (data : gmap string string) : gmap string string :=
  match data !! "category", data !! "type" with
  | None, Some t => <["category" := un_camel_case (PyStr.delete_all "biolink:" t)]> data
  | _, _ => data
  end.

(** The loop visits every node once and writes into that node's own
    dict only. *)
Definition categorize_graph (g : Graph) : Graph :=
  {| nodes := categorize_data <$> nodes g; edges := edges g |}.

Definition categorize : M unit := λ g, MkRun (Ok tt) (categorize_graph g) [].

(** *** load_networkx_graph *)

(** [int(results['results']['bindings'][0]['triples']['value'])] *)
Definition read_count (bindings : list Binding) : M Z :=
  match bindings with
  | [] => raise IndexError
  | r :: _ =>
      triples ← getitem r "triples";
      match PyStr.int (value triples) with
      | Some n => mret n
      | None => raise ValueError
      end
  end.

(** Lines 270 and 271: what one row adds to [node_list]. *)
Definition add_row_nodes (node_list : gset string) (r : Binding) : M (gset string) :=
  s ← getitem r "subject";
  let node_list := {[ PyStr.angle (value s) ]} ∪ node_list in
  o ← getitem r "object";
  mret ({[ PyStr.angle (value o) ]} ∪ node_list).

(** Lines 268 to 271: the identifiers met on one page. *)
Definition collect_nodes (bindings : list Binding) : M (gset string) :=
  for_fold bindings ∅ add_row_nodes.

(** Lines 275 to 278. *)
Definition add_edge_of (r : Binding) : M unit :=
  s ← getitem r "subject";
  p ← getitem r "predicate";
  o ← getitem r "object";
  add_edge (value s) (value o) (value p).

(** ['limit' in kwargs and i > kwargs['limit']] *)
Definition limit_exceeded (kwargs : gmap string Z) (i : Z) : bool :=
  match kwargs !! "limit" with
  | Some limit => limit <? i
  | None => false
  end.

(** The loop [for i in range(step, count + step, step)], lines 262 to
    282, on the values of [i] still to come; [start] is the local variable
    of that name. *)
Fixpoint fetch_pages (association : string) (kwargs : gmap string Z) (step start : Z)
    (rounds : list Z) : M unit :=
  match rounds with
  | [] => mret tt
  | i :: rounds' =>
      let end_ := i in
      bindings ← sparql_query endpoint GET (EdgeQuery association start step);
      node_list ← collect_nodes bindings;
      let start := end_ in
      load_nodes node_list;;
      for_ bindings add_edge_of;;
      if limit_exceeded kwargs i
      then mret tt
      else fetch_pages association kwargs step start rounds'
  end.

(** The body of the loop over the predicates, lines 251 to 282. *)
Definition fetch_predicate (kwargs : gmap string Z) (predicate : string) : M unit :=
  let association := PyStr.angle predicate in
  results ← sparql_query endpoint GET (CountQuery association);
  count ← read_count results;
  let step := 1000 in
  let start := 0 in
  fetch_pages association kwargs step start (range step (count + step) step).

Definition load_networkx_graph (predicates : gset string) (kwargs : gmap string Z)
  : M unit :=
  for_ (set_iter predicates) (fetch_predicate kwargs);;
  categorize.

End Transformer.
End RedSparqlTransformer.

(** ** What is observed of a fetch *)

(** The windows [(offset, limit)] of the edge pages requested for one
    association, in the order of the requests. *)
Definition edge_pages (association : string) (t : list Event) : list (Z * Z) :=
  omap (λ e, match e with
             | Request GET (EdgeQuery a offset limit) =>
                 if String.eqb a association then Some (offset, limit) else None
             | _ => None
             end) t.

(** All edge-page queries of a trace. *)
Definition edge_requests (t : list Event) : list Query :=
  omap (λ e, match e with
             | Request GET (EdgeQuery a offset limit) => Some (EdgeQuery a offset limit)
             | _ => None
             end) t.

(** The VALUES lists of the node-attribute queries of a trace. *)
Definition node_requests (t : list Event) : list (list string) :=
  omap (λ e, match e with
             | Request POST (NodePropertiesQuery curie_list) => Some curie_list
             | _ => None
             end) t.

(** The calls of the mutator, as (subject, predicate, object) and as
    (node, key, value). *)
Definition add_edge_calls (t : list Event) : list (string * string * string) :=
  omap (λ e, match e with AddEdge s o p => Some (s, p, o) | _ => None end) t.

Definition add_node_attribute_calls (t : list Event) : list (string * string * string) :=
  omap (λ e, match e with AddNodeAttribute n k v => Some (n, k, v) | _ => None end) t.

(** The calls of the mutator, of either kind. *)
Definition mutator_calls (t : list Event) : list Event :=
  List.filter (λ e, match e with Request _ _ => false | _ => true end) t.

(** The (subject, predicate, object) triple a row carries. *)
Definition triple (r : Binding) : option (string * string * string) :=
  s ← r !! "subject"; p ← r !! "predicate"; o ← r !! "object";
  Some (value s, value p, value o).

(** A row that has the three variables the loaders read. *)
Definition row_ok (r : Binding) : Prop :=
  is_Some (r !! "subject") ∧ is_Some (r !! "predicate") ∧ is_Some (r !! "object").

(** The identifiers a page contributes to [node_list]. *)
Definition page_nodes (bindings : list Binding) : gset string :=
  list_to_set (flat_map (λ r, match r !! "subject", r !! "object" with
                              | Some s, Some o => [PyStr.angle (value s); PyStr.angle (value o)]
                              | _, _ => []
                              end) bindings).

Section Endpoint.
Context (endpoint : Method → Query → Fault + list Binding).

(** The rows the endpoint answers to a query ([[]] when it fails). *)
Definition rows (m : Method) (q : Query) : list Binding :=
  match endpoint m q with
  | inr bindings => bindings
  | inl _ => []
  end.

Definition answers_rows (m : Method) (q : Query) : Prop :=
  ∃ bindings, endpoint m q = inr bindings ∧ Forall row_ok bindings.

(** The endpoint answers every edge page, every generic edge query and
    every node-attribute query with well-formed rows. *)
Definition endpoint_ok : Prop :=
  (∀ a offset limit, answers_rows GET (EdgeQuery a offset limit))
  ∧ (∀ curie_list, answers_rows POST (NodePropertiesQuery curie_list))
  ∧ (∀ p, answers_rows GET (GenericEdgeQuery p)).

(** The integer the count query of [predicate] reports, as
    [load_networkx_graph] reads it. *)
Definition reported (predicate : string) : option Z :=
  match endpoint GET (CountQuery (PyStr.angle predicate)) with
  | inr bindings =>
      match outcome (RedSparqlTransformer.read_count bindings empty_graph) with
      | Ok count => Some count
      | Raise _ => None
      end
  | inl _ => None
  end.

Definition counts_ok (predicates : gset string) : Prop :=
  ∀ p, p ∈ predicates → is_Some (reported p).

End Endpoint.

(** The windows of a fetch that nothing interrupts: offsets [0], [step],
    [2 * step], ... below [count]. *)
Definition windows (step count : Z) : list (Z * Z) :=
  (λ k : nat, (Z.of_nat k * step, step)) <$> seq 0 (Z.to_nat ((count + step - 1) / step)).

(** The items of a tuple that reach the VALUES clause. *)
Definition values_clause (nodes : list (option string)) : list string :=
  omap id (RedSparqlTransformer.filter_None nodes).

Definition nonempty (s : string) : bool :=
  match s with
  | String _ _ => true
  | EmptyString => false
  end.

(** The calls that empty the dict of dicts of a chunk. *)
Definition flush_events (d : dict (dict string)) : list Event :=
  flat_map (λ '(node, attr_dict),
    flat_map (λ '(key, val), [AddNodeAttribute node key val]) attr_dict) d.

(** The events the node batcher may emit. *)
Definition from_batcher (e : Event) : bool :=
  match e with
  | Request POST (NodePropertiesQuery _) => true
  | AddNodeAttribute _ _ _ => true
  | _ => false
  end.

(** The object of the row is a blank node. *)
Definition is_bnode (r : Binding) : bool :=
  match r !! "object" with
  | Some o => String.eqb (type o) "bnode"
  | None => false
  end.

(** The attribute key a predicate is recorded under, lines 328 and 329. *)
Definition attribute_key (predicate : string) : string :=
  if PyStr.startswith "bl:" predicate
  then default predicate (PyStr.split ":" predicate !! 1%nat)
  else predicate.

(** The row [r] is not about a blank node and says that node [n] has
    value [v] under key [k]. *)
Definition attribute_of (r : Binding) (n k v : string) : Prop :=
  ∃ s p o, r !! "subject" = Some s ∧ r !! "predicate" = Some p ∧ r !! "object" = Some o
           ∧ type o ≠ "bnode"
           ∧ n = value s ∧ k = attribute_key (value p) ∧ v = value o.

(** Every entry of the dict of a chunk comes from a row of [rs] that is
    not about a blank node. *)
Definition grounded (rs : list Binding) (d : dict (dict string)) : Prop :=
  ∀ n attrs k v, (n, attrs) ∈ d → (k, v) ∈ attrs → ∃ r, r ∈ rs ∧ attribute_of r n k v.

(** The rounds of the page loop that are run: the loop leaves after the
    first round whose [i] exceeds the limit. *)
Fixpoint rounds_run (kwargs : gmap string Z) (rounds : list Z) : list Z :=
  match rounds with
  | [] => []
  | i :: rounds' =>
      i :: (if RedSparqlTransformer.limit_exceeded kwargs i then []
            else rounds_run kwargs rounds')
  end.

(** The value of [start] in each round that is run: the initial value, then
    the [i] of the round before. *)
Definition starts (start : Z) (run : list Z) : list Z :=
  take (length run) (start :: run).

(** The [add_edge] calls of the rows of a page. *)
Definition edge_events (bindings : list Binding) : list Event :=
  flat_map (λ r, match triple r with
                 | Some (s, p, o) => [AddEdge s o p]
                 | None => []
                 end) bindings.

Section Traces.
Context (endpoint : Method → Query → Fault + list Binding).
Context {mutator : GraphMutator}.
Context {order : SetOrder}.

(** The events of the node batcher on one tuple, and on a set. *)
Definition chunk_events (nodes : list (option string)) : list Event :=
  events (RedSparqlTransformer.load_chunk endpoint nodes empty_graph).

Definition batch_events (node_set : gset string) : list Event :=
  flat_map chunk_events
    (RedSparqlTransformer._grouper (set_iter node_set) RedSparqlTransformer.chunk_size None).

(** The events of one round of the page loop. *)
Definition page_events (association : string) (step start : Z) : list Event :=
  let bindings := rows endpoint GET (EdgeQuery association start step) in
  Request GET (EdgeQuery association start step)
    :: batch_events (page_nodes bindings) ++ edge_events bindings.

(** The events of the fetch of one predicate. *)
Definition predicate_events (kwargs : gmap string Z) (predicate : string) : list Event :=
  match reported endpoint predicate with
  | Some count =>
      Request GET (CountQuery (PyStr.angle predicate))
        :: flat_map (page_events (PyStr.angle predicate) 1000)
             (starts 0 (rounds_run kwargs (range 1000 (count + 1000) 1000)))
  | None => []
  end.
End Traces.

(** ** The claims that are put to the test as they are worded *)

(** A page is requested at every offset [j * step] up to and including
    [count]. *)
Definition pages_up_to_count (pages : list (Z * Z)) (step count : Z) : Prop :=
  ∀ j, 0 ≤ j → j * step ≤ count → (j * step, step) ∈ pages.

(** The triples of the rows returned to the edge-page queries of a trace. *)
Definition returned_triples (endpoint : Method → Query → Fault + list Binding)
    (t : list Event) : list (string * string * string) :=
  flat_map (λ q, omap triple (rows endpoint GET q)) (edge_requests t).

(** Every returned triple has one [add_edge] call and no more. *)
Definition once_per_triple (calls returned : list (string * string * string)) : Prop :=
  ∀ tr, tr ∈ returned → length (filter (λ c, c = tr) calls) = 1%nat.

(** The number of node-attribute queries of a trace whose VALUES list has
    the identifier [x]. *)
Definition queries_including (x : string) (t : list Event) : nat :=
  length (filter (λ curie_list : list string, x ∈ curie_list) (node_requests t)).

(** The number of edge pages of a trace whose rows mention [x]. *)
Definition pages_mentioning (endpoint : Method → Query → Fault + list Binding)
    (x : string) (t : list Event) : nat :=
  length (filter (λ q, x ∈ page_nodes (rows endpoint GET q)) (edge_requests t)).

(** No identifier is asked for in two node-attribute queries. *)
Definition deduplicated_across_pages (t : list Event) : Prop :=
  ∀ x, (queries_including x t ≤ 1)%nat.

(** The call a row of the generic loader is routed to. *)
Definition routed (r : Binding) : list Event :=
  match r !! "subject", r !! "predicate", r !! "object" with
  | Some s, Some p, Some o =>
      if String.eqb (type o) "literal"
      then [AddNodeAttribute (value s) (value p) (value o)]
      else [AddEdge (value s) (value o) (value p)]
  | _, _, _ => []
  end.

(** ** Fixtures *)

Definition cell (ty v : string) : Term := {| type := ty; value := v |}.

Definition row (s p : string) (o : Term) : Binding :=
  <["subject" := cell "uri" s]> (<["predicate" := cell "uri" p]> (<["object" := o]> ∅)).

Definition count_row (n : string) : Binding := {[ "triples" := cell "literal" n ]}.

(** An endpoint given by the count it reports for an association, the rows
    of every edge page, and the rows of every node-attribute query. *)
Definition fixture (count : string → string) (page : string → Z → list Binding)
    (props : list string → list Binding) : Method → Query → Fault + list Binding :=
  λ m q, match q with
         | CountQuery a => inr [count_row (count a)]
         | EdgeQuery a offset _ => inr (page a offset)
         | NodePropertiesQuery curie_list => inr (props curie_list)
         | GenericEdgeQuery p => inr (page p 0)
         end.

(** [<p>] has 2500 triples and every other association none; the first
    page has two rows, one of them twice (once per edge property), and the
    later pages one row each. *)
Definition store_2500 : Method → Query → Fault + list Binding :=
  fixture (λ a, if String.eqb a "<p>" then "2500" else "0")
          (λ _ offset, if offset =? 0
                       then [row "a" "p" (cell "uri" "b"); row "a" "p" (cell "uri" "b")]
                       else [row "a" "p" (cell "uri" "c")])
          (λ _, [row "a" "bl:name" (cell "literal" "Alice");
                 row "a" "bl:part" (cell "bnode" "_:b0")]).

(** The same rows under a count of 2000. *)
Definition store_2000 : Method → Query → Fault + list Binding :=
  fixture (λ _, "2000")
          (λ _ offset, if offset =? 0
                       then [row "a" "p" (cell "uri" "b"); row "a" "p" (cell "uri" "b")]
                       else [row "a" "p" (cell "uri" "c")])
          (λ _, [row "a" "bl:name" (cell "literal" "Alice")]).

(** One literal triple, for the generic loader. *)
Definition store_literal : Method → Query → Fault + list Binding :=
  fixture (λ _, "1") (λ _ _, [row "S" "P" (cell "literal" "42")]) (λ _, []).

(** A graph with a node to categorize and a node that has a category. *)
Definition some_graph : Graph :=
  {| nodes := <["n1" := {[ "type" := "biolink:GeneProduct" ]}]>
                (<["n2" := <["category" := "foo"]> {[ "type" := "biolink:Gene" ]}]> ∅);
     edges := [("n1", "n2", "p")] |}.

(** 25000 identifiers: the numbers from 0 in base 64, three characters
    each, with the characters from [0] on as digits. *)
Fixpoint identifiers (n : nat) (k : N) : list string :=
  match n with
  | O => []
  | S n' =>
      String (ascii_of_N (48 + k / 4096))
        (String (ascii_of_N (48 + (k / 64) mod 64))
           (String (ascii_of_N (48 + k mod 64)) EmptyString))
        :: identifiers n' (N.succ k)
  end.

Definition node_set_25000 : gset string :=
  dom (list_to_map ((λ x, (x, tt)) <$> identifiers (Z.to_nat 25000) 0%N) : gmap string unit).

(** ** Further observations *)

(** The character [c] occurs in [s]. *)
Fixpoint mentions (c : ascii) (s : string) : bool :=
  match s with
  | EmptyString => false
  | String a s' => Ascii.eqb a c || mentions c s'
  end.

(** [d[n][k]], when both keys are there. *)
Definition lookup2 (d : dict (dict string)) (n k : string) : option string :=
  attrs ← dict_get n d; dict_get k attrs.

(** What one row of an answer does to the value of the key [k] of the node
    [n]: a row about [n] and [k] that is not about a blank node gives its
    object; any other row leaves [acc]. *)
Definition attribute_step (n k : string) (acc : option string) (r : Binding)
  : option string :=
  match r !! "subject", r !! "predicate", r !! "object" with
  | Some s, Some p, Some o =>
      if negb (String.eqb (type o) "bnode") && String.eqb (value s) n
         && String.eqb (attribute_key (value p)) k
      then Some (value o)
      else acc
  | _, _, _ => acc
  end.

(** The value that the rows of an answer give to the key [k] of the node
    [n]: the object of the last row about [n] and [k] that is not about a
    blank node. *)
Definition last_attribute (rs : list Binding) (n k : string) : option string :=
  foldl (attribute_step n k) None rs.

(** A row with the two variables that name nodes. *)
Definition row_has_nodes (r : Binding) : Prop :=
  is_Some (r !! "subject") ∧ is_Some (r !! "object").

(** The object of the row is a literal. *)
Definition is_literal (r : Binding) : bool :=
  match r !! "object" with
  | Some o => String.eqb (type o) "literal"
  | None => false
  end.

(** The events that a fetch of [RedSparqlTransformer] is made of: count
    queries and edge pages by GET, the pages in windows of 1000 that start at
    a multiple of 1000; node-attribute queries by POST, for 1 to 10000
    identifiers none of which is empty; and calls of the mutator. *)
Definition red_event (e : Event) : Prop :=
  match e with
  | Request GET (CountQuery _) => True
  | Request GET (EdgeQuery _ offset limit) =>
      limit = 1000 ∧ 0 ≤ offset ∧ offset mod 1000 = 0
  | Request POST (NodePropertiesQuery curie_list) =>
      (1 ≤ length curie_list ≤ RedSparqlTransformer.chunk_size)%nat ∧ "" ∉ curie_list
  | Request _ _ => False
  | AddEdge _ _ _ => True
  | AddNodeAttribute _ _ _ => True
  end.

(** An endpoint whose count answer is not a number, one whose pages have a
    row without subject, and one whose pages are empty. *)
Definition store_no_count : Method → Query → Fault + list Binding :=
  fixture (λ _, "many") (λ _ _, [row "a" "p" (cell "uri" "b")]) (λ _, []).

Definition store_bad_row : Method → Query → Fault + list Binding :=
  fixture (λ _, "1")
          (λ _ _, [row "a" "p" (cell "uri" "b"); {[ "predicate" := cell "uri" "p" ]}])
          (λ _, []).

Definition store_empty_pages : Method → Query → Fault + list Binding :=
  fixture (λ _, "2500") (λ _ _, []) (λ _, []).

(** The fault that an answer to the count query ends the fetch with, if
    any: the failure of the request itself, no row, no [triples] variable in
    the first row, or a value that [int] refuses. *)
Definition count_fault (answer : Fault + list Binding) : option Fault :=
  match answer with
  | inl e => Some e
  | inr [] => Some IndexError
  | inr (r :: _) =>
      match r !! "triples" with
      | None => Some (KeyError "triples")
      | Some c => match PyStr.int (value c) with
                  | None => Some ValueError
                  | Some _ => None
                  end
      end
  end.

(** A dict of dicts as Python keeps it: no key twice, at either level. *)
Definition dict_wf (d : dict (dict string)) : Prop :=
  NoDup d.*1 ∧ Forall (λ entry, NoDup (entry.2).*1) d.

(** All requests of a trace, with their methods. *)
Definition requests (t : list Event) : list (Method * Query) :=
  omap (λ e, match e with Request m q => Some (m, q) | _ => None end) t.

(** An answer to a node-attribute query in which a later row overwrites an
    earlier one. *)
Definition rows_overwrite : list Binding :=
  [row "a" "bl:name" (cell "literal" "Al"); row "b" "bl:name" (cell "literal" "Bob");
   row "a" "bl:name" (cell "literal" "Alice"); row "a" "bl:part" (cell "bnode" "_:b0")].

(** 25000 identifiers as [load_networkx_graph] hands them to the batcher,
    in angle brackets. *)
Definition angle_set_25000 : gset string :=
  dom (list_to_map ((λ x, (PyStr.angle x, tt)) <$> identifiers (Z.to_nat 25000) 0%N)
         : gmap string unit).

(** The answers to the node-attribute queries are about the nodes that are
    asked for: the subject of every row, in angle brackets, is in the VALUES
    list of the query. *)
Definition answers_about_values (endpoint : Method → Query → Fault + list Binding) : Prop :=
  ∀ curie_list r s,
    r ∈ rows endpoint POST (NodePropertiesQuery curie_list) →
    r !! "subject" = Some s → PyStr.angle (value s) ∈ curie_list.

(** The node and the key that a call of [add_node_attribute] writes. *)
Definition written (call : string * string * string) : string * string :=
  (call.1.1, call.1.2).

(** An endpoint that knows the name of the nodes [known], and answers a
    node-attribute query with the names of those of them it is asked for. *)
Definition store_names (known : list string) : Method → Query → Fault + list Binding :=
  fixture (λ _, "0") (λ _ _, [])
          (λ curie_list,
             (λ s, row s "bl:name" (cell "literal" s))
               <$> List.filter (λ s, bool_decide (PyStr.angle s ∈ curie_list)) known).

(** [m] succeeds with value [a] from every graph, and emits [t]. *)
Definition emits {A} (m : M A) (a : A) (t : list Event) : Prop :=
  ∀ g, outcome (m g) = Ok a ∧ events (m g) = t.

(** * Properties *)

Local Open Scope list_scope.
#[local] Set Warnings "-clear-no-such-hyp".

(** ** Sanity checks of the string functions *)

Example angle_example : PyStr.angle "http://x/p" = "<http://x/p>".
Proof. reflexivity. Qed.

Example split_example :
  PyStr.split ":" "bl:name:x" = ["bl"; "name"; "x"] ∧ PyStr.split ":" "bl:" = ["bl"; ""].
Proof. split; reflexivity. Qed.

Example delete_all_example :
  PyStr.delete_all "biolink:" "biolink:GeneProduct" = "GeneProduct"
  ∧ PyStr.delete_all "ab" "aabbab" = "ab".
Proof. split; reflexivity. Qed.

(** [int] on ASCII digits, on Arabic-Indic digits, after the control
    character 28, before the control character 31, and before a no-break
    space. *)
Example int_example :
  PyStr.int "2500" = Some 2500 ∧ PyStr.int " -1_0 " = Some (-10)
  ∧ PyStr.int "" = None ∧ PyStr.int "12a" = None
  ∧ PyStr.int "٢٥٠٠" = Some 2500
  ∧ PyStr.int (String (PyStr.chr 0x1c) "2500") = None
  ∧ PyStr.int ("2500" ++ String (PyStr.chr 0x1f) "") = None
  ∧ PyStr.int ("5" ++ String (PyStr.chr 0xc2) (String (PyStr.chr 0xa0) "")) = Some 5.
Proof. repeat split; reflexivity. Qed.

Example range_example :
  range 1000 (2500 + 1000) 1000 = [1000; 2000; 3000]
  ∧ range 1000 (2000 + 1000) 1000 = [1000; 2000]
  ∧ range 1000 (0 + 1000) 1000 = [].
Proof. repeat split; reflexivity. Qed.

(** ** Sequencing *)

Section Sequencing.
Context {A B : Type}.
Implicit Types (m : M A) (f : A → M B).

Lemma bind_ok m f g a :
  outcome (m g) = Ok a →
  (m ≫= f) g = MkRun (outcome (f a (graph (m g)))) (graph (f a (graph (m g))))
                     (events (m g) ++ events (f a (graph (m g)))).
Proof. intros H. unfold mbind, M_bind, bind. cbn. by rewrite H. Qed.

Lemma bind_raise m f g e :
  outcome (m g) = Raise e →
  (m ≫= f) g = MkRun (Raise e) (graph (m g)) (events (m g)).
Proof. intros H. unfold mbind, M_bind, bind. cbn. by rewrite H. Qed.

Lemma emits_bind m f a b t1 t2 :
  emits m a t1 → emits (f a) b t2 → emits (m ≫= f) b (t1 ++ t2).
Proof.
  intros Hm Hf g. destruct (Hm g) as [Ho He].
  rewrite (bind_ok _ _ _ _ Ho). cbn.
  destruct (Hf (graph (m g))) as [Ho' He']. by rewrite Ho', He, He'.
Qed.

(** An event of [m ≫= f] is an event of [m] or of the continuation. *)
Lemma bind_event m f g e :
  e ∈ events ((m ≫= f) g) →
  e ∈ events (m g) ∨ ∃ a, outcome (m g) = Ok a ∧ e ∈ events (f a (graph (m g))).
Proof.
  destruct (outcome (m g)) as [a|err] eqn:Ho.
  - rewrite (bind_ok _ _ _ _ Ho). cbn. rewrite elem_of_app. intros [?|?]; eauto.
  - rewrite (bind_raise _ _ _ _ Ho). cbn. eauto.
Qed.
End Sequencing.

Lemma ret_bind {A B} (a : A) (f : A → M B) g : (ret a ≫= f) g = f a g.
Proof. unfold mbind, M_bind, bind, ret. cbn. by destruct (f a g). Qed.

Lemma emits_ret {A} (a : A) : emits (mret a) a [].
Proof. by intros g. Qed.

Lemma emits_pure {A B} (m : M A) (f : A → M B) a b t :
  emits m a [] → emits (f a) b t → emits (m ≫= f) b t.
Proof. intros Hm Hf. by apply (emits_bind m f a b [] t). Qed.

Lemma emits_getitem (r : Binding) key c :
  r !! key = Some c → emits (getitem r key) c [].
Proof. intros H g. unfold getitem. by rewrite H. Qed.

Lemma emits_for_ {A} (l : list A) (body : A → M unit) (ev : A → list Event) :
  (∀ x, x ∈ l → emits (body x) tt (ev x)) →
  emits (for_ l body) tt (flat_map ev l).
Proof.
  induction l as [|x l IH]; intros H; cbn.
  - apply emits_ret.
  - apply (emits_bind _ _ tt).
    + apply H. by left.
    + apply IH. intros y Hy. apply H. by right.
Qed.

(** An event of a loop is an event of one of its rounds. *)
Lemma for_event {A} (l : list A) (body : A → M unit) g e :
  e ∈ events (for_ l body g) → ∃ x g', x ∈ l ∧ e ∈ events (body x g').
Proof.
  revert g. induction l as [|x l IH]; intros g; cbn.
  - by intros ?%elem_of_nil.
  - intros [H|(a & _ & H)]%bind_event.
    + exists x, g. split; [by left|done].
    + destruct (IH _ H) as (y & g' & ? & ?). exists y, g'. split; [by right|done].
Qed.

(** ** Chunks *)

Section Grouper.
Import RedSparqlTransformer.

Lemma filter_None_replicate k : filter_None (replicate k None) = [].
Proof. induction k; [done|]. cbn. apply IHk. Qed.

(** The fillers are dropped and nothing else is lost: the tuples, once
    filtered, give back the items in their order. *)
Lemma zip_longest_shared_filter fuel n it :
  (0 < n)%nat → (length it ≤ fuel)%nat →
  concat (filter_None <$> zip_longest_shared fuel n None it) = filter_None it.
Proof.
  intros Hn. revert it. induction fuel as [|fuel IH]; intros it Hlen.
  - destruct it; [done|]. cbn in Hlen. lia.
  - destruct it as [|x it]; [done|].
    change (zip_longest_shared (S fuel) n None (x :: it))
      with ((take n (x :: it) ++ replicate (n - length (x :: it)) None)
              :: zip_longest_shared fuel n None (drop n (x :: it))).
    rewrite fmap_cons, concat_cons, IH.
    + unfold filter_None. rewrite List.filter_app.
      fold (filter_None (replicate (n - length (x :: it)) None)).
      rewrite filter_None_replicate, app_nil_r, <- List.filter_app.
      by rewrite take_drop.
    + rewrite length_drop. cbn in Hlen |- *. lia.
Qed.

(** The number [k] of tuples is the least with [length it ≤ k * n]. *)
Lemma zip_longest_shared_length fuel n fill it :
  (0 < n)%nat → (length it ≤ fuel)%nat →
  let k := length (zip_longest_shared fuel n fill it) in
  (length it ≤ k * n)%nat ∧ (k * n < length it + n)%nat.
Proof.
  intros Hn. revert it. induction fuel as [|fuel IH]; intros it Hlen.
  - destruct it; cbn in *; lia.
  - destruct it as [|x it]; [cbn; lia|].
    change (zip_longest_shared (S fuel) n fill (x :: it))
      with ((take n (x :: it) ++ replicate (n - length (x :: it)) fill)
              :: zip_longest_shared fuel n fill (drop n (x :: it))).
    destruct (IH (drop n (x :: it))) as [H1 H2].
    { rewrite length_drop. cbn in Hlen |- *. lia. }
    cbn zeta in H1, H2. rewrite length_drop in H1, H2.
    cbn zeta. cbn [length] in H1, H2 |- *.
    set (k := length (zip_longest_shared fuel n fill (drop n (x :: it)))) in *.
    set (len := S (length it)) in *.
    assert (0 < len)%nat by (subst len; lia).
    clearbody k len. clear IH Hlen.
    destruct (decide (len ≤ n)%nat) as [Hle|Hgt].
    + replace (len - n)%nat with 0%nat in * by lia.
      assert (k = 0)%nat by (destruct k; [done|cbn in H2; lia]).
      subst k. lia.
    + replace (S k * n)%nat with (k * n + n)%nat by lia. lia.
Qed.

(** Every tuple has [n] places. *)
Lemma zip_longest_shared_tuple fuel n fill it :
  Forall (λ nodes, length nodes = n) (zip_longest_shared fuel n fill it).
Proof.
  revert it. induction fuel as [|fuel IH]; intros it; [by destruct it|].
  destruct it as [|x it]; [done|].
  change (zip_longest_shared (S fuel) n fill (x :: it))
    with ((take n (x :: it) ++ replicate (n - length (x :: it)) fill)
            :: zip_longest_shared fuel n fill (drop n (x :: it))).
  constructor; [|apply IH].
  rewrite length_app, length_take, length_replicate. lia.
Qed.

Lemma values_clause_items (l : list string) :
  omap id (filter_None (Some <$> l)) = List.filter nonempty l.
Proof.
  induction l as [|x l IH]; [done|].
  destruct x as [|a x]; cbn; [exact IH|]. f_equal. exact IH.
Qed.

(** The VALUES lists of the tuples of [_grouper], one after the other,
    are the non-empty items in the order of the iteration. *)
Lemma grouper_values (l : list string) n :
  (0 < n)%nat →
  concat (values_clause <$> _grouper l n None) = List.filter nonempty l.
Proof.
  intros Hn. unfold _grouper. destruct n as [|n]; [lia|].
  rewrite <- values_clause_items.
  rewrite <- (zip_longest_shared_filter (length l) (S n) (Some <$> l));
    [|lia|by rewrite length_fmap].
  generalize (zip_longest_shared (length l) (S n) None (Some <$> l)).
  intros cs. induction cs as [|c cs IH]; [done|].
  rewrite !fmap_cons, !concat_cons, omap_app, <- IH. done.
Qed.

Lemma grouper_length (l : list string) n fill :
  (0 < n)%nat →
  let k := length (_grouper l n fill) in
  (length l ≤ k * n)%nat ∧ (k * n < length l + n)%nat.
Proof.
  intros Hn. unfold _grouper. destruct n as [|n]; [lia|].
  pose proof (zip_longest_shared_length (length l) (S n) fill (Some <$> l)) as H.
  rewrite length_fmap in H. apply H; lia.
Qed.

(** No filler survives [filter(None, nodes)], and [join] meets strings
    only. *)
Lemma filter_None_no_filler nodes : None ∉ filter_None nodes.
Proof.
  unfold filter_None. rewrite list_elem_of_In, List.filter_In. by intros [_ ?].
Qed.

Lemma emits_join_items nodes :
  None ∉ nodes → emits (join_items nodes) (omap id nodes) [].
Proof.
  induction nodes as [|[x|] nodes IH]; intros Hno; cbn.
  - apply emits_ret.
  - apply (emits_pure _ _ (omap id nodes)); [|apply emits_ret].
    apply IH. intros ?. apply Hno. by right.
  - destruct Hno. by left.
Qed.
End Grouper.

(** ** Python dicts *)

Lemma dict_get_elem {V} k (v : V) d : dict_get k d = Some v → (k, v) ∈ d.
Proof.
  induction d as [|[k' v'] d IH]; cbn; [done|].
  destruct (String.eqb_spec k k') as [->|Hne].
  - intros [= ->]. by left.
  - intros H. right. by apply IH.
Qed.

Lemma dict_set_elem {V} k (v : V) d k' v' :
  (k', v') ∈ dict_set k v d → (k' = k ∧ v' = v) ∨ (k', v') ∈ d.
Proof.
  induction d as [|[k0 v0] d IH]; cbn.
  - intros [= -> ->]%list_elem_of_singleton. by left.
  - destruct (String.eqb_spec k k0) as [->|Hne].
    + intros [[= -> ->]|H]%elem_of_cons; [by left|]. right. by right.
    + intros [[= -> ->]|H]%elem_of_cons; [right; by left|].
      destruct (IH H) as [?|?]; [by left|]. right. by right.
Qed.

(** ** The node batcher *)

Ltac run_getitem H :=
  eapply emits_pure; [apply emits_getitem, H|]; cbn beta.

Section Batcher.
Context (endpoint : Method → Query → Fault + list Binding).
Context {mutator : GraphMutator}.
Context {order : SetOrder}.
Import SparqlTransformer RedSparqlTransformer.

Lemma emits_sparql_query m q bindings :
  endpoint m q = inr bindings →
  emits (sparql_query endpoint m q) bindings [Request m q].
Proof. intros H g. unfold sparql_query. by rewrite H. Qed.

Lemma emits_add_node_attribute n k v :
  emits (add_node_attribute n k v) tt [AddNodeAttribute n k v].
Proof. by intros g. Qed.

Lemma emits_add_edge s o p : emits (add_edge s o p) tt [AddEdge s o p].
Proof. by intros g. Qed.

Lemma split_nonempty sep s : PyStr.split sep s ≠ [].
Proof.
  destruct s as [|c s]; cbn; [done|].
  destruct (Ascii.eqb c sep); [done|]. by destruct (PyStr.split sep s).
Qed.

Lemma startswith_prefix p s :
  PyStr.startswith p s = true → ∃ rest, s = String.append p rest.
Proof.
  revert s. induction p as [|a p IH]; intros s.
  - exists s. done.
  - destruct s as [|b s]; [done|].
    change (PyStr.startswith (String a p) (String b s))
      with (if Ascii.eqb a b then PyStr.startswith p s else false).
    destruct (Ascii.eqb_spec a b) as [->|]; [|done].
    intros [rest ->]%IH. by exists rest.
Qed.

(** A predicate that starts with [bl:] has a second piece, so the
    subscript of line 329 is in range. *)
Lemma split_second p :
  PyStr.startswith "bl:" p = true → is_Some (PyStr.split ":" p !! 1%nat).
Proof.
  intros [rest ->]%startswith_prefix.
  change (PyStr.split ":" (String.append "bl:" rest))
    with ("bl" :: PyStr.split ":" rest).
  pose proof (split_nonempty ":" rest) as Hne.
  destruct (PyStr.split ":" rest); [done|]. cbn. eauto.
Qed.

Lemma emits_local_name p :
  PyStr.startswith "bl:" p = true → emits (local_name p) (attribute_key p) [].
Proof.
  intros H. unfold local_name, attribute_key. rewrite H.
  destruct (split_second p H) as [name ->]. apply emits_ret.
Qed.

Lemma emits_record_binding d r :
  row_ok r → ∃ d', emits (record_binding d r) d' [].
Proof.
  intros ([s Hs] & [p Hp] & [o Ho]). unfold record_binding.
  destruct (negb (String.eqb (type o) "bnode")) eqn:Hb.
  - eexists. run_getitem Ho. rewrite Hb.
    run_getitem Hs. run_getitem Ho. run_getitem Hp.
    eapply emits_pure; [|apply emits_ret].
    destruct (PyStr.startswith "bl:" (value p)) eqn:Hbl.
    + by apply emits_local_name.
    + replace (value p) with (attribute_key (value p)) at 1; [apply emits_ret|].
      unfold attribute_key. by rewrite Hbl.
  - exists d. run_getitem Ho. rewrite Hb. apply emits_ret.
Qed.

(** A row about a blank node leaves the dict as it is. *)
Lemma record_binding_bnode d r g :
  is_bnode r = true → record_binding d r g = MkRun (Ok d) g [].
Proof.
  unfold is_bnode, record_binding, getitem. destruct (r !! "object") as [o|]; [|done].
  intros H. by rewrite ret_bind, H.
Qed.

Lemma emits_flush d : emits (flush d) tt (flush_events d).
Proof.
  unfold flush, flush_events.
  apply (emits_for_ d _ (λ '(node, attr_dict),
           flat_map (λ '(key, val), [AddNodeAttribute node key val]) attr_dict)).
  intros [node attr_dict] _.
  apply (emits_for_ attr_dict _ (λ '(key, val), [AddNodeAttribute node key val])).
  intros [key val] _. apply emits_add_node_attribute.
Qed.

Lemma emits_record_fold rs d :
  Forall row_ok rs → ∃ d', emits (for_fold rs d record_binding) d' [].
Proof.
  intros Hrs. revert d. induction Hrs as [|r rs Hr _ IH]; intros d; cbn.
  - exists d. apply emits_ret.
  - destruct (emits_record_binding d r Hr) as [d1 H1].
    destruct (IH d1) as [d' H']. exists d'. by apply (emits_pure _ _ d1).
Qed.

Lemma emits_record_attributes rs :
  Forall row_ok rs →
  ∃ d, emits (for_fold rs [] record_binding) d []
       ∧ emits (record_attributes rs) tt (flush_events d).
Proof.
  intros Hrs. destruct (emits_record_fold rs [] Hrs) as [d Hd].
  exists d. split; [done|]. unfold record_attributes.
  apply (emits_pure _ _ d); [done|apply emits_flush].
Qed.

(** Every flushed event is a call for an entry of the dict. *)
Lemma flush_events_entry d e :
  e ∈ flush_events d →
  ∃ n attrs k v, e = AddNodeAttribute n k v ∧ (n, attrs) ∈ d ∧ (k, v) ∈ attrs.
Proof.
  unfold flush_events. rewrite list_elem_of_In.
  intros ([n attrs] & Hn & He)%in_flat_map.
  apply in_flat_map in He as ([k v] & Hk & [<-|[]]).
  exists n, attrs, k, v. by rewrite !list_elem_of_In.
Qed.

Lemma flush_events_from_batcher d : Forall (λ e, from_batcher e = true) (flush_events d).
Proof.
  apply Forall_forall. intros e (n & attrs & k & v & -> & _)%flush_events_entry. done.
Qed.

Lemma flush_events_requests d : node_requests (flush_events d) = [].
Proof.
  assert (∀ t, (∀ e, e ∈ t → ∃ n k v, e = AddNodeAttribute n k v) → node_requests t = [])
    as Hcalls.
  { induction t as [|e t IH]; intros Ht; [done|].
    destruct (Ht e) as (n & k & v & ->); [by left|].
    apply IH. intros e' He'. apply Ht. by right. }
  apply Hcalls. intros e (n & attrs & k & v & -> & _)%flush_events_entry. eauto.
Qed.
End Batcher.

(** ** The trace of a fetch *)

Section Driver.
Context (endpoint : Method → Query → Fault + list Binding).
Context {mutator : GraphMutator}.
Context {order : SetOrder}.
Hypothesis endpoint_rows : endpoint_ok endpoint.
Import SparqlTransformer RedSparqlTransformer.

Lemma rows_answer m q :
  answers_rows endpoint m q →
  endpoint m q = inr (rows endpoint m q) ∧ Forall row_ok (rows endpoint m q).
Proof. intros (bs & H & Hok). unfold rows. by rewrite H. Qed.

Lemma emits_trace {A} (m : M A) a t : emits m a t → t = events (m empty_graph).
Proof. intros H. by destruct (H empty_graph) as [_ <-]. Qed.

(** One tuple: one request, whose VALUES list is the tuple without its
    fillers, and then attribute calls only. *)
Lemma emits_load_chunk_shape nodes :
  ∃ d, emits (load_chunk endpoint nodes) tt
         (Request POST (NodePropertiesQuery (values_clause nodes)) :: flush_events d).
Proof.
  destruct endpoint_rows as (_ & Hnodes & _).
  destruct (rows_answer _ _ (Hnodes (values_clause nodes))) as [Hq Hrs].
  destruct (emits_record_attributes _ Hrs) as (d & _ & Hd).
  exists d. unfold load_chunk.
  eapply emits_pure; [apply emits_join_items, filter_None_no_filler|].
  eapply (emits_bind _ _ _ _ [_]); [by apply emits_sparql_query|done].
Qed.

Lemma chunk_events_shape nodes :
  ∃ d, chunk_events endpoint nodes
       = Request POST (NodePropertiesQuery (values_clause nodes)) :: flush_events d.
Proof.
  destruct (emits_load_chunk_shape nodes) as [d H]. exists d.
  symmetry. apply (emits_trace _ _ _ H).
Qed.

Lemma emits_load_chunk nodes :
  emits (load_chunk endpoint nodes) tt (chunk_events endpoint nodes).
Proof.
  destruct (emits_load_chunk_shape nodes) as [d H].
  unfold chunk_events. by rewrite <- (emits_trace _ _ _ H).
Qed.

Lemma emits_load_nodes node_set :
  emits (load_nodes endpoint node_set) tt (batch_events endpoint node_set).
Proof.
  unfold load_nodes, batch_events. apply emits_for_.
  intros nodes _. apply emits_load_chunk.
Qed.

Lemma emits_collect_from rs (acc : gset string) :
  Forall row_ok rs →
  emits (for_fold rs acc add_row_nodes) (page_nodes rs ∪ acc) [].
Proof.
  intros Hrs. revert acc. induction Hrs as [|r rs Hr _ IH]; intros acc.
  - replace (page_nodes [] ∪ acc) with acc by set_solver. apply emits_ret.
  - destruct Hr as ([s Hs] & _ & [o Ho]).
    cbn [for_fold].
    eapply emits_pure.
    { unfold add_row_nodes. run_getitem Hs. run_getitem Ho. apply emits_ret. }
    replace (page_nodes (r :: rs) ∪ acc)
      with (page_nodes rs ∪ ({[PyStr.angle (value o)]} ∪ ({[PyStr.angle (value s)]} ∪ acc)));
      [apply IH|].
    unfold page_nodes. cbn [flat_map]. rewrite Hs, Ho. set_solver.
Qed.

Lemma emits_collect_nodes rs :
  Forall row_ok rs → emits (collect_nodes rs) (page_nodes rs) [].
Proof.
  intros Hrs g. unfold collect_nodes.
  destruct (emits_collect_from rs ∅ Hrs g) as [Ho He].
  by rewrite (right_id_L ∅ (∪)) in Ho.
Qed.

Lemma emits_add_edges rs :
  Forall row_ok rs → emits (for_ rs add_edge_of) tt (edge_events rs).
Proof.
  intros Hrs. unfold edge_events. apply emits_for_. intros r Hr.
  rewrite Forall_forall in Hrs.
  destruct (Hrs r Hr) as ([s Hs] & [p Hp] & [o Ho]).
  unfold add_edge_of, triple. rewrite Hs, Hp, Ho. cbn.
  run_getitem Hs. run_getitem Hp. run_getitem Ho. apply emits_add_edge.
Qed.

Lemma emits_fetch_pages association kwargs step start rounds :
  emits (fetch_pages endpoint association kwargs step start rounds) tt
        (flat_map (page_events endpoint association step)
                  (starts start (rounds_run kwargs rounds))).
Proof.
  revert start. induction rounds as [|i rounds IH]; intros start; [apply emits_ret|].
  destruct endpoint_rows as (Hpages & _ & _).
  destruct (rows_answer _ _ (Hpages association start step)) as [Hq Hrs].
  cbn [fetch_pages rounds_run].
  change (starts start (i :: ?run)) with (start :: starts i run).
  cbn [flat_map]. unfold page_events at 1. cbn zeta.
  rewrite app_comm_cons, <- !app_assoc.
  eapply (emits_bind _ _ _ _ [_]); [by apply emits_sparql_query|].
  eapply emits_pure; [by apply emits_collect_nodes|].
  eapply emits_bind; [apply emits_load_nodes|].
  eapply emits_bind; [by apply emits_add_edges|].
  destruct (limit_exceeded kwargs i); [apply emits_ret|apply IH].
Qed.

Lemma read_count_pure bindings g :
  read_count bindings g = MkRun (outcome (read_count bindings empty_graph)) g [].
Proof.
  destruct bindings as [|r ?]; [done|]. unfold read_count, getitem.
  destruct (r !! "triples") as [c|]; [|done].
  rewrite !ret_bind. by destruct (PyStr.int (value c)).
Qed.

Lemma emits_fetch_predicate kwargs predicate :
  is_Some (reported endpoint predicate) →
  emits (fetch_predicate endpoint kwargs predicate) tt
        (predicate_events endpoint kwargs predicate).
Proof.
  intros [count Hc]. unfold predicate_events. rewrite Hc.
  unfold reported in Hc.
  destruct (endpoint GET (CountQuery (PyStr.angle predicate))) as [|bs] eqn:Hq; [done|].
  destruct (outcome (read_count bs empty_graph)) as [c|] eqn:Ho; [|done].
  injection Hc as ->. unfold fetch_predicate.
  eapply (emits_bind _ _ _ _ [_]); [by apply emits_sparql_query|].
  eapply emits_pure; [|apply emits_fetch_pages].
  intros g. by rewrite read_count_pure, Ho.
Qed.

Lemma emits_load_networkx_graph (un_camel_case : string → string) predicates kwargs :
  counts_ok endpoint predicates →
  emits (RedSparqlTransformer.load_networkx_graph endpoint un_camel_case predicates kwargs) tt
        (flat_map (predicate_events endpoint kwargs) (set_iter predicates)).
Proof.
  intros Hc. unfold RedSparqlTransformer.load_networkx_graph.
  rewrite <- (app_nil_r (flat_map _ _)).
  eapply emits_bind; [|done].
  apply emits_for_. intros p Hp. apply emits_fetch_predicate, Hc.
  by rewrite <- elem_of_elements, <- set_iter_perm.
Qed.
End Driver.

(** ** Reading a trace *)

Section Reading.
Context (endpoint : Method → Query → Fault + list Binding).
Context {mutator : GraphMutator}.
Context {order : SetOrder}.
Hypothesis endpoint_rows : endpoint_ok endpoint.
Import RedSparqlTransformer.

Lemma edge_pages_app a t1 t2 : edge_pages a (t1 ++ t2) = edge_pages a t1 ++ edge_pages a t2.
Proof. apply omap_app. Qed.

Lemma edge_requests_app t1 t2 : edge_requests (t1 ++ t2) = edge_requests t1 ++ edge_requests t2.
Proof. apply omap_app. Qed.

Lemma node_requests_app t1 t2 : node_requests (t1 ++ t2) = node_requests t1 ++ node_requests t2.
Proof. apply omap_app. Qed.

Lemma add_edge_calls_app t1 t2 : add_edge_calls (t1 ++ t2) = add_edge_calls t1 ++ add_edge_calls t2.
Proof. apply omap_app. Qed.

Lemma edge_pages_cons a e t : edge_pages a (e :: t) = edge_pages a [e] ++ edge_pages a t.
Proof. apply (edge_pages_app a [e] t). Qed.

Lemma edge_requests_cons e t : edge_requests (e :: t) = edge_requests [e] ++ edge_requests t.
Proof. apply (edge_requests_app [e] t). Qed.

Lemma node_requests_cons e t : node_requests (e :: t) = node_requests [e] ++ node_requests t.
Proof. apply (node_requests_app [e] t). Qed.

Lemma add_edge_calls_cons e t : add_edge_calls (e :: t) = add_edge_calls [e] ++ add_edge_calls t.
Proof. apply (add_edge_calls_app [e] t). Qed.

(** The batcher sends no edge query and adds no edge. *)
Lemma batcher_silent t :
  Forall (λ e, from_batcher e = true) t →
  (∀ a, edge_pages a t = []) ∧ edge_requests t = [] ∧ add_edge_calls t = [].
Proof.
  induction 1 as [|e t He _ (IH1 & IH2 & IH3)]; [done|].
  destruct e as [[] []| |]; try done; cbn; auto.
Qed.

Lemma batch_events_from_batcher X :
  Forall (λ e, from_batcher e = true) (batch_events endpoint X).
Proof.
  unfold batch_events.
  generalize (_grouper (set_iter X) chunk_size None). intros cs.
  induction cs as [|c cs IH]; [done|]. cbn [flat_map].
  apply Forall_app. split; [|done].
  destruct (chunk_events_shape endpoint endpoint_rows c) as [d ->].
  constructor; [done|apply flush_events_from_batcher].
Qed.

(** The requests of the batcher on a set: one per tuple of [_grouper]. *)
Lemma batch_events_requests X :
  node_requests (batch_events endpoint X)
  = values_clause <$> _grouper (set_iter X) chunk_size None.
Proof.
  unfold batch_events.
  generalize (_grouper (set_iter X) chunk_size None). intros cs.
  induction cs as [|c cs IH]; [done|]. cbn [flat_map].
  rewrite node_requests_app, IH, fmap_cons. f_equal.
  destruct (chunk_events_shape endpoint endpoint_rows c) as [d ->].
  cbn. by rewrite flush_events_requests.
Qed.

Lemma edge_events_silent rs :
  (∀ a, edge_pages a (edge_events rs) = []) ∧ edge_requests (edge_events rs) = []
  ∧ node_requests (edge_events rs) = [].
Proof.
  unfold edge_events. induction rs as [|r rs (IH1 & IH2 & IH3)]; [done|].
  cbn [flat_map]. split_and!; [intros a|..];
    rewrite ?edge_pages_app, ?edge_requests_app, ?node_requests_app, ?IH1, ?IH2, ?IH3;
    by destruct (triple r) as [[[??]?]|].
Qed.

Lemma edge_events_calls rs : add_edge_calls (edge_events rs) = omap triple rs.
Proof.
  unfold edge_events. induction rs as [|r rs IH]; [done|].
  cbn [flat_map]. rewrite add_edge_calls_app, IH.
  change (omap triple (r :: rs))
    with (match triple r with Some x => x :: omap triple rs | None => omap triple rs end).
  by destruct (triple r) as [[[??]?]|].
Qed.

(** *** One page *)

Lemma page_events_pages a b step start :
  edge_pages a (page_events endpoint b step start)
  = if String.eqb b a then [(start, step)] else [].
Proof.
  unfold page_events. cbn zeta.
  rewrite edge_pages_cons, edge_pages_app.
  destruct (batcher_silent _ (batch_events_from_batcher
              (page_nodes (rows endpoint GET (EdgeQuery b start step))))) as (-> & _ & _).
  destruct (edge_events_silent (rows endpoint GET (EdgeQuery b start step))) as (-> & _ & _).
  cbn. by destruct (String.eqb b a).
Qed.

Lemma page_events_requests a step start :
  edge_requests (page_events endpoint a step start) = [EdgeQuery a start step].
Proof.
  unfold page_events. cbn zeta.
  rewrite edge_requests_cons, edge_requests_app.
  destruct (batcher_silent _ (batch_events_from_batcher
              (page_nodes (rows endpoint GET (EdgeQuery a start step))))) as (_ & -> & _).
  by destruct (edge_events_silent (rows endpoint GET (EdgeQuery a start step))) as (_ & -> & _).
Qed.

Lemma page_events_calls a step start :
  add_edge_calls (page_events endpoint a step start)
  = omap triple (rows endpoint GET (EdgeQuery a start step)).
Proof.
  unfold page_events. cbn zeta.
  rewrite add_edge_calls_cons, add_edge_calls_app.
  destruct (batcher_silent _ (batch_events_from_batcher
              (page_nodes (rows endpoint GET (EdgeQuery a start step))))) as (_ & _ & ->).
  by rewrite edge_events_calls.
Qed.

Lemma page_events_nodes a step start :
  node_requests (page_events endpoint a step start)
  = values_clause <$> _grouper (set_iter (page_nodes (rows endpoint GET (EdgeQuery a start step))))
                        chunk_size None.
Proof.
  unfold page_events. cbn zeta.
  rewrite node_requests_cons, node_requests_app, batch_events_requests.
  destruct (edge_events_silent (rows endpoint GET (EdgeQuery a start step))) as (_ & _ & ->).
  by rewrite app_nil_r.
Qed.
End Reading.

(** ** Windows *)

Section Windows.
Import RedSparqlTransformer.

Lemma angle_inj x y : PyStr.angle x = PyStr.angle y → x = y.
Proof.
  unfold PyStr.angle. intros [= H]. revert y H.
  induction x as [|a x IH]; intros [|b y]; cbn; intros H.
  - done.
  - injection H as <- H. by destruct y.
  - injection H as <- H. by destruct x.
  - injection H as <- H. f_equal. by apply IH.
Qed.

Lemma angle_eqb x y : String.eqb (PyStr.angle x) (PyStr.angle y) = String.eqb x y.
Proof.
  destruct (String.eqb_spec x y) as [->|Hne].
  - apply String.eqb_refl.
  - apply String.eqb_neq. by intros ?%angle_inj.
Qed.

Lemma range_rounds step stop :
  0 < step →
  range step stop step
  = (λ k : nat, step + Z.of_nat k * step) <$> seq 0 (Z.to_nat ((stop - step + step - 1) / step)).
Proof. intros H. unfold range. by rewrite (proj2 (Z.ltb_lt 0 step) H). Qed.

Lemma windows_range step count :
  0 < step →
  windows step count = (λ i, (i - step, step)) <$> range step (count + step) step.
Proof.
  intros H. rewrite range_rounds by done. unfold windows.
  replace (count + step - step + step - 1) with (count + step - 1) by lia.
  rewrite <- list_fmap_compose. apply list_fmap_ext. intros _ k _. cbn. f_equal. lia.
Qed.

Lemma starts_seq step n b :
  take n (Z.of_nat b * step :: ((λ k : nat, step + Z.of_nat k * step) <$> seq b n))
  = (λ k : nat, Z.of_nat k * step) <$> seq b n.
Proof.
  revert b. induction n as [|n IH]; intros b; [done|].
  cbn [seq fmap list_fmap take]. f_equal.
  replace (step + Z.of_nat b * step) with (Z.of_nat (S b) * step) by lia.
  apply IH.
Qed.

(** The rounds that are run are the first rounds of the loop. *)
Lemma rounds_run_take kwargs rounds :
  rounds_run kwargs rounds = take (length (rounds_run kwargs rounds)) rounds.
Proof.
  induction rounds as [|i rounds IH]; [done|]. cbn [rounds_run].
  destruct (limit_exceeded kwargs i); cbn; [by rewrite take_0|by rewrite <- IH].
Qed.

Lemma rounds_run_length kwargs rounds :
  (length (rounds_run kwargs rounds) ≤ length rounds)%nat.
Proof.
  induction rounds as [|i rounds IH]; [done|]. cbn [rounds_run].
  destruct (limit_exceeded kwargs i); cbn; lia.
Qed.

Lemma rounds_run_no_limit kwargs rounds :
  kwargs !! "limit" = None → rounds_run kwargs rounds = rounds.
Proof.
  intros H. induction rounds as [|i rounds IH]; [done|]. cbn [rounds_run].
  unfold limit_exceeded. by rewrite H, IH.
Qed.

(** With the rounds of [range(step, count + step, step)] and [start = 0],
    every round asks for the window that ends at its [i]. *)
Lemma starts_rounds kwargs step count :
  0 < step →
  starts 0 (rounds_run kwargs (range step (count + step) step))
  = (λ i, i - step) <$> rounds_run kwargs (range step (count + step) step).
Proof.
  intros H. unfold starts. rewrite rounds_run_take at 2 3.
  pose proof (rounds_run_length kwargs (range step (count + step) step)) as Hm.
  revert Hm.
  generalize (length (rounds_run kwargs (range step (count + step) step))). intros m.
  rewrite range_rounds by done.
  generalize (Z.to_nat ((count + step - step + step - 1) / step)). intros n.
  rewrite length_fmap, length_seq. intros Hm.
  rewrite <- fmap_take, take_seq, Nat.min_l by done.
  change 0 with (Z.of_nat 0 * step) at 1. rewrite starts_seq.
  rewrite <- list_fmap_compose. apply list_fmap_ext. intros _ k _. cbn. lia.
Qed.
Lemma windows_elem step count j :
  0 < step → 0 ≤ j → (j * step, step) ∈ windows step count ↔ j * step < count.
Proof.
  intros Hs Hj. unfold windows. rewrite list_elem_of_fmap.
  pose proof (Z.mul_div_le (count + step - 1) step Hs) as Hlo.
  pose proof (Z.mul_succ_div_gt (count + step - 1) step Hs) as Hhi.
  set (q := (count + step - 1) / step) in *. clearbody q.
  split.
  - intros (k & [= Hk] & Hin). apply elem_of_seq in Hin as [_ Hin].
    assert (j = Z.of_nat k) as -> by nia. nia.
  - intros Hlt. exists (Z.to_nat j). split.
    + f_equal. lia.
    + apply elem_of_seq. split; [lia|]. cbn. nia.
Qed.

Lemma range_first count :
  0 < count → ∃ rounds, range 1000 (count + 1000) 1000 = 1000 :: rounds.
Proof.
  intros H. rewrite range_rounds by done.
  destruct (Z.to_nat ((count + 1000 - 1000 + 1000 - 1) / 1000)) as [|n] eqn:Hn.
  - assert (1 ≤ (count + 1000 - 1000 + 1000 - 1) / 1000)
      by (apply Z.div_le_lower_bound; lia).
    lia.
  - eexists. cbn [seq fmap list_fmap]. reflexivity.
Qed.

(** What a limit does to the rounds: no round follows one whose [i]
    exceeds it, and the loop ends early for that reason only. *)
Lemma rounds_run_limit kwargs limit rounds :
  kwargs !! "limit" = Some limit →
  (∀ j i, rounds_run kwargs rounds !! j = Some i →
          (S j < length (rounds_run kwargs rounds))%nat → i ≤ limit)
  ∧ ((length (rounds_run kwargs rounds) < length rounds)%nat →
     ∃ i, last (rounds_run kwargs rounds) = Some i ∧ limit < i).
Proof.
  intros Hl. induction rounds as [|i rounds [IH1 IH2]]; [cbn; split; [done|lia]|].
  cbn [rounds_run].
  assert (limit_exceeded kwargs i = (limit <? i)) as ->
    by (unfold limit_exceeded; by rewrite Hl).
  destruct (Z.ltb_spec limit i) as [Hlt|Hge].
  - split.
    + intros [|j] i'; cbn; [lia|done].
    + intros _. by exists i.
  - split.
    + intros [|j] i'; cbn [lookup list_lookup length].
      * by intros [= <-].
      * intros Hj Hlen. apply (IH1 j); [done|lia].
    + cbn [length]. intros Hlen. destruct IH2 as (i' & Hlast & Hi'); [lia|].
      exists i'. split; [|done].
      destruct (rounds_run kwargs rounds); [done|]. by rewrite last_cons, Hlast.
Qed.

End Windows.

(** ** The pages of one predicate within a fetch *)

Section Pages.
Context (endpoint : Method → Query → Fault + list Binding).
Context {mutator : GraphMutator}.
Context {order : SetOrder}.
Hypothesis endpoint_rows : endpoint_ok endpoint.
Import RedSparqlTransformer.

Lemma pages_of_rounds a b step ss :
  edge_pages a (flat_map (page_events endpoint b step) ss)
  = if String.eqb b a then (λ s, (s, step)) <$> ss else [].
Proof.
  induction ss as [|s ss IH]; [by destruct (String.eqb b a)|].
  cbn [flat_map]. rewrite edge_pages_app, IH, page_events_pages by done.
  by destruct (String.eqb b a).
Qed.

Lemma predicate_events_pages kwargs p q count :
  reported endpoint q = Some count →
  edge_pages (PyStr.angle p) (predicate_events endpoint kwargs q)
  = if String.eqb q p
    then (λ i, (i - 1000, 1000)) <$> rounds_run kwargs (range 1000 (count + 1000) 1000)
    else [].
Proof.
  intros Hc. unfold predicate_events. rewrite Hc.
  rewrite edge_pages_cons, pages_of_rounds, angle_eqb, starts_rounds by done.
  cbn [edge_pages omap list_omap app]. destruct (String.eqb q p); [|done].
  by rewrite <- list_fmap_compose.
Qed.

Lemma set_iter_NoDup (X : gset string) : NoDup (set_iter X).
Proof. rewrite set_iter_perm. apply NoDup_elements. Qed.

Lemma set_iter_elem (X : gset string) x : x ∈ set_iter X ↔ x ∈ X.
Proof. by rewrite set_iter_perm, elem_of_elements. Qed.

(** Within the fetch of a set of predicates, the pages of the
    association of [p] are those of the fetch of [p]. *)
Lemma fetch_pages_of predicates kwargs p count :
  counts_ok endpoint predicates → p ∈ predicates →
  reported endpoint p = Some count →
  edge_pages (PyStr.angle p)
    (flat_map (predicate_events endpoint kwargs) (set_iter predicates))
  = (λ i, (i - 1000, 1000)) <$> rounds_run kwargs (range 1000 (count + 1000) 1000).
Proof.
  intros Hcounts Hp Hc.
  assert (∀ q, q ∈ set_iter predicates → is_Some (reported endpoint q)) as Hall.
  { intros q Hq. by apply Hcounts, set_iter_elem. }
  apply set_iter_elem in Hp. pose proof (set_iter_NoDup predicates) as Hnd.
  induction Hnd as [|q l Hq Hnd IH]; [by apply elem_of_nil in Hp|].
  cbn [flat_map]. rewrite edge_pages_app.
  destruct (Hall q) as [cq Hcq]; [by left|].
  rewrite (predicate_events_pages _ _ _ _ Hcq).
  assert (∀ l', p ∉ l' → (∀ q, q ∈ l' → is_Some (reported endpoint q)) →
            edge_pages (PyStr.angle p) (flat_map (predicate_events endpoint kwargs) l') = [])
    as Hrest.
  { induction l' as [|q' l' IH']; intros Hnot Hall'; [done|].
    cbn [flat_map]. rewrite edge_pages_app.
    destruct (Hall' q') as [c' Hc']; [by left|].
    rewrite (predicate_events_pages _ _ _ _ Hc').
    destruct (String.eqb_spec q' p) as [->|_]; [destruct Hnot; by left|].
    apply IH'; [|intros; apply Hall'; by right].
    intros ?. apply Hnot. by right. }
  destruct (String.eqb_spec q p) as [->|Hne].
  - rewrite Hrest, app_nil_r; [congruence|done|]. intros; apply Hall; by right.
  - apply elem_of_cons in Hp as [->|Hp]; [done|].
    apply IH; [done|]. intros; apply Hall; by right.
Qed.
End Pages.

(** ** The fixtures are well-formed endpoints *)

Lemma row_ok_row s p o : row_ok (row s p o).
Proof. unfold row_ok, row. split_and!; eexists; by simplify_map_eq. Qed.

Lemma fixture_ok count page props :
  (∀ a offset, Forall row_ok (page a offset)) →
  (∀ curie_list, Forall row_ok (props curie_list)) →
  endpoint_ok (fixture count page props).
Proof.
  intros Hpage Hprops. split_and!; intros; eexists; (split; [reflexivity|]); auto.
Qed.

Lemma fixture_reported count page props p :
  reported (fixture count page props) p = PyStr.int (count (PyStr.angle p)).
Proof.
  unfold reported, fixture, RedSparqlTransformer.read_count, getitem, count_row.
  rewrite lookup_singleton_eq, ret_bind. cbn [value cell].
  by destruct (PyStr.int (count (PyStr.angle p))).
Qed.

Lemma fixture_counts count page props predicates :
  (∀ a, is_Some (PyStr.int (count a))) →
  counts_ok (fixture count page props) predicates.
Proof. intros H p _. rewrite fixture_reported. apply H. Qed.

Lemma store_2500_ok : endpoint_ok store_2500.
Proof.
  apply fixture_ok.
  - intros _ offset. destruct (offset =? 0); repeat constructor; apply row_ok_row.
  - intros _. repeat constructor; apply row_ok_row.
Qed.

Lemma store_2500_counts predicates : counts_ok store_2500 predicates.
Proof. apply fixture_counts. intros a. by destruct (String.eqb a "<p>"). Qed.

Lemma store_2000_ok : endpoint_ok store_2000.
Proof.
  apply fixture_ok.
  - intros _ offset. destruct (offset =? 0); repeat constructor; apply row_ok_row.
  - intros _. repeat constructor; apply row_ok_row.
Qed.

Lemma store_2000_counts predicates : counts_ok store_2000 predicates.
Proof. by apply fixture_counts. Qed.

(** ** Pagination *)

Section Pagination.
Context (endpoint : Method → Query → Fault + list Binding).
Context {mutator : GraphMutator}.
Context {order : SetOrder}.
Import RedSparqlTransformer.

Lemma emits_predicates_loop predicates kwargs :
  endpoint_ok endpoint → counts_ok endpoint predicates →
  emits (for_ (set_iter predicates) (fetch_predicate endpoint kwargs)) tt
        (flat_map (predicate_events endpoint kwargs) (set_iter predicates)).
Proof.
  intros Hok Hc. apply emits_for_. intros p Hp.
  apply (emits_fetch_predicate endpoint Hok). by apply Hc, set_iter_elem.
Qed.

Lemma fetch_completes (un_camel_case : string → string) predicates kwargs g p count :
  endpoint_ok endpoint → counts_ok endpoint predicates → p ∈ predicates →
  reported endpoint p = Some count →
  let run := load_networkx_graph endpoint un_camel_case predicates kwargs g in
  outcome run = Ok tt
  ∧ edge_pages (PyStr.angle p) (events run)
    = (λ i, (i - 1000, 1000)) <$> rounds_run kwargs (range 1000 (count + 1000) 1000).
Proof.
  intros Hok Hc Hp Hcount run.
  destruct (emits_load_networkx_graph endpoint Hok un_camel_case predicates kwargs Hc g)
    as [Ho He].
  split; [done|]. subst run. rewrite He. by apply fetch_pages_of.
Qed.
End Pagination.

(** * The claims *)

Import RedSparqlTransformer.

(** C1, as worded: three windows whenever the count query reports 2500.
    With [limit=1500] among the keyword arguments the count query reports
    2500 and the fetch completes, but the [break] of the limit leaves the
    loop after the second round: the pages are those at 0 and 1000, and the
    window at 2000 is never requested. *)
Lemma three_windows_counterexample :
  let run := load_networkx_graph store_2500 id (mutator := spec_mutator)
               (order := elements_order) {[ "p" ]} {[ "limit" := 1500 ]} empty_graph in
  reported store_2500 "p" = Some 2500
  ∧ outcome run = Ok tt
  ∧ edge_pages "<p>" (events run) = [(0, 1000); (1000, 1000)]
  ∧ edge_pages "<p>" (events run) ≠ [(0, 1000); (1000, 1000); (2000, 1000)].
Proof.
  intros run.
  assert (edge_pages "<p>" (events run) = [(0, 1000); (1000, 1000)]) as Hpages
    by (by vm_compute).
  split_and!; [reflexivity|by vm_compute|done|].
  by rewrite Hpages.
Qed.

(** C1, amended.  In [RedSparqlTransformer.load_networkx_graph] the step
    is 1000.  For a predicate whose count query reports 2500, exactly three
    edge pages are requested, at the offsets 0, 1000 and 2000 and with limit
    1000 each, whatever rows the pages return, when the caller gives no
    [limit], or one of at least 2000 (one that the first two rounds do not
    exceed).  For a predicate whose count query reports 0, no edge page is
    requested, whatever the keyword arguments.  The fetch completes when the
    endpoint answers with well-formed rows. *)
Theorem pagination_windows
    (endpoint : Method → Query → Fault + list Binding) (un_camel_case : string → string)
    `{mutator : GraphMutator} `{order : SetOrder}
    (predicates : gset string) (kwargs : gmap string Z) (g : Graph) (p : string) :
  endpoint_ok endpoint → counts_ok endpoint predicates → p ∈ predicates →
  let run := load_networkx_graph endpoint un_camel_case predicates kwargs g in
  outcome run = Ok tt
  ∧ (reported endpoint p = Some 2500 →
     (∀ limit, kwargs !! "limit" = Some limit → 2000 ≤ limit) →
     edge_pages (PyStr.angle p) (events run) = [(0, 1000); (1000, 1000); (2000, 1000)])
  ∧ (reported endpoint p = Some 0 → edge_pages (PyStr.angle p) (events run) = []).
Proof.
  intros Hok Hc Hp. cbn zeta. split_and!.
  - destruct (Hc p Hp) as [count Hcount].
    by destruct (fetch_completes endpoint un_camel_case predicates kwargs g p count).
  - intros Hcount Hlimit.
    destruct (fetch_completes endpoint un_camel_case predicates kwargs g p 2500) as [_ ->];
      try done.
    change (range 1000 (2500 + 1000) 1000) with [1000; 2000; 3000].
    cbn [rounds_run]. unfold limit_exceeded.
    destruct (kwargs !! "limit") as [limit|] eqn:Hl; [|done].
    specialize (Hlimit limit eq_refl).
    destruct (Z.ltb_spec limit 1000); [lia|]. destruct (Z.ltb_spec limit 2000); [lia|].
    by destruct (limit <? 3000).
  - intros Hcount.
    by destruct (fetch_completes endpoint un_camel_case predicates kwargs g p 0) as [_ ->].
Qed.

Lemma pagination_windows_witness :
  let run := load_networkx_graph store_2500 id (mutator := spec_mutator)
               (order := elements_order) {[ "p"; "q" ]} ∅ empty_graph in
  reported store_2500 "p" = Some 2500 ∧ reported store_2500 "q" = Some 0
  ∧ edge_pages "<p>" (events run) = [(0, 1000); (1000, 1000); (2000, 1000)]
  ∧ edge_pages "<q>" (events run) = [].
Proof.
  split_and!; [reflexivity|reflexivity|..].
  - apply (pagination_windows store_2500 id {[ "p"; "q" ]} ∅ empty_graph "p"
             store_2500_ok (store_2500_counts _)).
    + set_solver.
    + reflexivity.
    + intros limit. by rewrite lookup_empty.
  - apply (pagination_windows store_2500 id {[ "p"; "q" ]} ∅ empty_graph "q"
             store_2500_ok (store_2500_counts _)).
    + set_solver.
    + reflexivity.
Defined.

(** C4, as worded: a page at every offset [j * 1000 ≤ count].  With a
    reported count of 2000 the pages are those at 0 and 1000, and none is
    requested at offset 2000. *)
Lemma page_at_count_counterexample :
  let run := load_networkx_graph store_2000 id (mutator := spec_mutator)
               (order := elements_order) {[ "p" ]} ∅ empty_graph in
  reported store_2000 "p" = Some 2000
  ∧ edge_pages "<p>" (events run) = [(0, 1000); (1000, 1000)]
  ∧ ¬ pages_up_to_count (edge_pages "<p>" (events run)) 1000 2000.
Proof.
  intros run.
  assert (edge_pages "<p>" (events run) = [(0, 1000); (1000, 1000)]) as Hpages
    by (by vm_compute).
  split_and!; [reflexivity|done|].
  intros H. specialize (H 2 ltac:(lia) ltac:(lia)). rewrite Hpages in H.
  apply elem_of_cons in H as [[=]|H]. apply elem_of_cons in H as [[=]|H].
  by apply elem_of_nil in H.
Qed.

(** C4, amended.  Without a [limit], the loop asks for the window at
    [start] and advances [start] by 1000 until [start] reaches or exceeds
    the count: the pages are those at the offsets [j * 1000] below the count,
    in increasing order and each with limit 1000, and no other.  When the
    count is a multiple of 1000 the last page is at [count - 1000]; no page is
    requested at the offset equal to the count. *)
Theorem pages_below_count
    (endpoint : Method → Query → Fault + list Binding) (un_camel_case : string → string)
    `{mutator : GraphMutator} `{order : SetOrder}
    (predicates : gset string) (kwargs : gmap string Z) (g : Graph) (p : string) (count : Z) :
  endpoint_ok endpoint → counts_ok endpoint predicates → p ∈ predicates →
  reported endpoint p = Some count → kwargs !! "limit" = None →
  let run := load_networkx_graph endpoint un_camel_case predicates kwargs g in
  edge_pages (PyStr.angle p) (events run) = windows 1000 count
  ∧ (∀ j, 0 ≤ j → (j * 1000, 1000) ∈ edge_pages (PyStr.angle p) (events run) ↔ j * 1000 < count)
  ∧ (count, 1000) ∉ edge_pages (PyStr.angle p) (events run).
Proof.
  intros Hok Hc Hp Hcount Hl. cbn zeta.
  destruct (fetch_completes endpoint un_camel_case predicates kwargs g p count) as [_ Hpages];
    try done.
  rewrite rounds_run_no_limit, <- windows_range in Hpages by done.
  rewrite Hpages. split_and!; [done|by intros; apply windows_elem|].
  unfold windows. intros (k & [= Hk] & [_ Hin]%elem_of_seq)%list_elem_of_fmap.
  pose proof (Z.mul_div_le (count + 1000 - 1) 1000) as Hlo. lia.
Qed.

Lemma pages_below_count_witness :
  let run := load_networkx_graph store_2000 id (mutator := spec_mutator)
               (order := elements_order) {[ "p" ]} ∅ empty_graph in
  edge_pages "<p>" (events run) = windows 1000 2000
  ∧ (∀ j, 0 ≤ j → (j * 1000, 1000) ∈ edge_pages "<p>" (events run) ↔ j * 1000 < 2000)
  ∧ (2000, 1000) ∉ edge_pages "<p>" (events run).
Proof.
  apply (pages_below_count store_2000 id {[ "p" ]} ∅ empty_graph "p" 2000
           store_2000_ok (store_2000_counts _)).
  - set_solver.
  - reflexivity.
  - reflexivity.
Defined.

(** C6. With a [limit] among the keyword arguments, the pages requested
    for a predicate are the first pages of the unlimited fetch; every round
    before the last one had an index [i = offset + 1000] within the limit, so
    no page is fetched after a round whose index exceeds it; and the fetch is
    shorter than the count demands only when the index of its last round
    exceeds the limit.  The end of the count and the limit are two stop
    conditions: the pages end where the first of them fires. *)
Theorem limit_stops_pagination
    (endpoint : Method → Query → Fault + list Binding) (un_camel_case : string → string)
    `{mutator : GraphMutator} `{order : SetOrder}
    (predicates : gset string) (kwargs : gmap string Z) (g : Graph) (p : string)
    (count limit : Z) :
  endpoint_ok endpoint → counts_ok endpoint predicates → p ∈ predicates →
  reported endpoint p = Some count → kwargs !! "limit" = Some limit →
  let run := load_networkx_graph endpoint un_camel_case predicates kwargs g in
  let pages := edge_pages (PyStr.angle p) (events run) in
  outcome run = Ok tt
  ∧ pages = take (length pages) (windows 1000 count)
  ∧ (∀ j offset size, pages !! j = Some (offset, size) →
       (S j < length pages)%nat → offset + 1000 ≤ limit)
  ∧ ((length pages < length (windows 1000 count))%nat →
     ∃ offset, last pages = Some (offset, 1000) ∧ limit < offset + 1000).
Proof.
  intros Hok Hc Hp Hcount Hl. cbn zeta.
  destruct (fetch_completes endpoint un_camel_case predicates kwargs g p count)
    as [Ho ->]; try done.
  destruct (rounds_run_limit kwargs limit (range 1000 (count + 1000) 1000) Hl) as [H1 H2].
  rewrite windows_range by done.
  set (rounds := range 1000 (count + 1000) 1000) in *.
  rewrite !length_fmap. split_and!.
  - done.
  - by rewrite <- fmap_take, <- rounds_run_take.
  - intros j offset size Hj Hlen.
    apply list_lookup_fmap_Some in Hj as (i & [= -> ->] & Hi).
    specialize (H1 j i Hi Hlen). lia.
  - intros Hlen. destruct (H2 Hlen) as (i & Hlast & Hi).
    exists (i - 1000). rewrite fmap_last, Hlast. split; [done|lia].
Qed.

Lemma limit_stops_pagination_witness :
  let run := load_networkx_graph store_2500 id (mutator := spec_mutator)
               (order := elements_order) {[ "p" ]} {[ "limit" := 1500 ]} empty_graph in
  let pages := edge_pages "<p>" (events run) in
  windows 1000 2500 = [(0, 1000); (1000, 1000); (2000, 1000)]
  ∧ outcome run = Ok tt
  ∧ pages = take (length pages) (windows 1000 2500)
  ∧ (∀ j offset size, pages !! j = Some (offset, size) →
       (S j < length pages)%nat → offset + 1000 ≤ 1500)
  ∧ ((length pages < length (windows 1000 2500))%nat →
     ∃ offset, last pages = Some (offset, 1000) ∧ 1500 < offset + 1000).
Proof.
  split; [reflexivity|].
  apply (limit_stops_pagination store_2500 id {[ "p" ]} {[ "limit" := 1500 ]} empty_graph
           "p" 2500 1500 store_2500_ok (store_2500_counts _)).
  - set_solver.
  - reflexivity.
  - reflexivity.
Defined.

(** Either stop condition may come first: under a count of 2500 a limit of
    1500 ends the fetch after the second page, and a limit of 5000 lets the
    count end it after the third. *)
Example limit_or_count_first :
  let pages limit :=
    edge_pages "<p>" (events (load_networkx_graph store_2500 id (mutator := spec_mutator)
      (order := elements_order) {[ "p" ]} {[ "limit" := limit ]} empty_graph)) in
  pages 1500 = [(0, 1000); (1000, 1000)]
  ∧ pages 5000 = [(0, 1000); (1000, 1000); (2000, 1000)]
  ∧ pages 0 = [(0, 1000)].
Proof. by vm_compute. Qed.

(** C10.  The [break] of the limit leaves the page loop of the predicate
    at hand and nothing else: within the fetch of a set of predicates, the
    pages requested for a predicate are those requested when it is fetched
    alone with the same keyword arguments, the first of them at offset 0
    when its count is positive; and [categorize] runs after the loop over
    the predicates, so that in the graph handed back every node with a
    [type] has a [category]. *)
Theorem limit_is_per_predicate
    (endpoint : Method → Query → Fault + list Binding) (un_camel_case : string → string)
    `{mutator : GraphMutator} `{order : SetOrder}
    (predicates : gset string) (kwargs : gmap string Z) (g : Graph) (p : string) :
  endpoint_ok endpoint → counts_ok endpoint predicates → p ∈ predicates →
  let run := load_networkx_graph endpoint un_camel_case predicates kwargs g in
  let loop := for_ (set_iter predicates) (fetch_predicate endpoint kwargs) g in
  outcome run = Ok tt
  ∧ edge_pages (PyStr.angle p) (events run)
    = edge_pages (PyStr.angle p)
        (events (load_networkx_graph endpoint un_camel_case {[ p ]} kwargs g))
  ∧ (∀ count, reported endpoint p = Some count → 0 < count →
       head (edge_pages (PyStr.angle p) (events run)) = Some (0, 1000))
  ∧ graph run = categorize_graph un_camel_case (graph loop)
  ∧ (∀ n data, nodes (graph run) !! n = Some data →
       is_Some (data !! "type") → is_Some (data !! "category")).
Proof.
  intros Hok Hc Hp. cbn zeta.
  destruct (Hc p Hp) as [count Hcount].
  destruct (fetch_completes endpoint un_camel_case predicates kwargs g p count)
    as [Ho Hpages]; try done.
  assert (graph (load_networkx_graph endpoint un_camel_case predicates kwargs g)
          = categorize_graph un_camel_case
              (graph (for_ (set_iter predicates) (fetch_predicate endpoint kwargs) g)))
    as Hgraph.
  { unfold load_networkx_graph.
    destruct (emits_predicates_loop endpoint predicates kwargs Hok Hc g) as [Hloop _].
    by rewrite (bind_ok _ _ _ _ Hloop). }
  split_and!.
  - done.
  - rewrite Hpages.
    destruct (fetch_completes endpoint un_camel_case {[ p ]} kwargs g p count) as [_ ->];
      try done; [|set_solver].
    intros q ->%elem_of_singleton. eauto.
  - intros count' Hcount' Hpos. rewrite Hpages.
    assert (count' = count) as -> by congruence.
    destruct (range_first count Hpos) as [rounds ->]. done.
  - done.
  - rewrite Hgraph. intros n data Hn Htype. cbn [nodes categorize_graph] in Hn.
    apply lookup_fmap_Some in Hn as (data0 & <- & _).
    unfold categorize_data in *.
    destruct (data0 !! "category") as [c|] eqn:Hcat; [by rewrite Hcat|].
    destruct (data0 !! "type") as [t|] eqn:Hty; [|by rewrite Hty in Htype; destruct Htype].
    rewrite lookup_insert_eq. eauto.
Qed.

Lemma limit_is_per_predicate_witness :
  let run := load_networkx_graph store_2000 id (mutator := spec_mutator)
               (order := elements_order) {[ "p"; "q" ]} {[ "limit" := 0 ]} some_graph in
  let loop := for_ (set_iter (SetOrder := elements_order) {[ "p"; "q" ]})
                (fetch_predicate store_2000 (mutator := spec_mutator)
                   (order := elements_order) {[ "limit" := 0 ]}) some_graph in
  (edge_pages "<p>" (events run) = [(0, 1000)] ∧ edge_pages "<q>" (events run) = [(0, 1000)])
  ∧ outcome run = Ok tt
  ∧ edge_pages "<q>" (events run)
    = edge_pages "<q>"
        (events (load_networkx_graph store_2000 id (mutator := spec_mutator)
                   (order := elements_order) {[ "q" ]} {[ "limit" := 0 ]} some_graph))
  ∧ (∀ count, reported store_2000 "q" = Some count → 0 < count →
       head (edge_pages "<q>" (events run)) = Some (0, 1000))
  ∧ graph run = categorize_graph id (graph loop)
  ∧ (∀ n data, nodes (graph run) !! n = Some data →
       is_Some (data !! "type") → is_Some (data !! "category")).
Proof.
  split; [by vm_compute|].
  apply (limit_is_per_predicate store_2000 id {[ "p"; "q" ]} {[ "limit" := 0 ]} some_graph "q"
           store_2000_ok (store_2000_counts _)).
  set_solver.
Defined.

(** ** Edges and node identifiers, page by page *)

Section PerPage.
Context (endpoint : Method → Query → Fault + list Binding).
Context {mutator : GraphMutator}.
Context {order : SetOrder}.
Hypothesis endpoint_rows : endpoint_ok endpoint.

Lemma returned_triples_app t1 t2 :
  returned_triples endpoint (t1 ++ t2)
  = returned_triples endpoint t1 ++ returned_triples endpoint t2.
Proof. unfold returned_triples. by rewrite edge_requests_app, flat_map_app. Qed.

Lemma queries_including_app x t1 t2 :
  queries_including x (t1 ++ t2) = (queries_including x t1 + queries_including x t2)%nat.
Proof. unfold queries_including. by rewrite node_requests_app, filter_app, length_app. Qed.

Lemma pages_mentioning_app x t1 t2 :
  pages_mentioning endpoint x (t1 ++ t2)
  = (pages_mentioning endpoint x t1 + pages_mentioning endpoint x t2)%nat.
Proof. unfold pages_mentioning. by rewrite edge_requests_app, filter_app, length_app. Qed.

(** An identifier is in one list of a partition of a duplicate-free list
    when it is in the list, and in none otherwise. *)
Lemma count_in_partition (x : string) (ls : list (list string)) :
  NoDup (concat ls) →
  length (filter (λ l : list string, x ∈ l) ls) = if decide (x ∈ concat ls) then 1%nat else 0%nat.
Proof.
  induction ls as [|l ls IH]; intros Hnd; [done|].
  cbn [concat] in *. apply NoDup_app in Hnd as (Hl & Hdisj & Hls).
  rewrite filter_cons.
  destruct (decide (x ∈ l)) as [Hin|Hout]; cbn [length]; rewrite (IH Hls);
    repeat case_decide; try done; exfalso; rewrite elem_of_app in *; naive_solver.
Qed.

Lemma page_nodes_nonempty rs x : x ∈ page_nodes rs → nonempty x = true.
Proof.
  unfold page_nodes. rewrite elem_of_list_to_set, list_elem_of_In.
  intros (r & _ & Hx)%in_flat_map.
  destruct (r !! "subject"), (r !! "object"); try done.
  by destruct Hx as [<-|[<-|[]]].
Qed.

Lemma filter_nonempty_all l : Forall (λ x, nonempty x = true) l → List.filter nonempty l = l.
Proof. induction 1 as [|x l Hx _ IH]; [done|]. cbn. by rewrite Hx, IH. Qed.

(** The identifiers of a page go to the batcher once each. *)
Lemma page_events_queries x a step start :
  queries_including x (page_events endpoint a step start)
  = pages_mentioning endpoint x (page_events endpoint a step start).
Proof.
  unfold queries_including, pages_mentioning.
  rewrite page_events_nodes, page_events_requests by done.
  set (X := page_nodes (rows endpoint GET (EdgeQuery a start step))).
  assert (concat (values_clause <$> _grouper (set_iter X) chunk_size None) = set_iter X) as Hcat.
  { rewrite grouper_values by (unfold chunk_size; lia).
    apply filter_nonempty_all, Forall_forall. intros y Hy.
    by apply (page_nodes_nonempty (rows endpoint GET (EdgeQuery a start step))), set_iter_elem. }
  rewrite count_in_partition by (rewrite Hcat; apply set_iter_NoDup).
  rewrite Hcat, filter_cons, filter_nil. fold X.
  repeat case_decide; try done; exfalso; rewrite set_iter_elem in *; done.
Qed.

Lemma page_events_triples a step start :
  add_edge_calls (page_events endpoint a step start)
  = returned_triples endpoint (page_events endpoint a step start).
Proof.
  unfold returned_triples. rewrite page_events_calls, page_events_requests by done.
  cbn [flat_map]. by rewrite app_nil_r.
Qed.

(** Both facts hold of the whole trace of a fetch, which is made of count
    requests and pages. *)
Lemma fetch_page_by_page kwargs (l : list string) (P : list Event → Prop) :
  P [] → (∀ t1 t2, P t1 → P t2 → P (t1 ++ t2)) →
  (∀ a, P [Request GET (CountQuery a)]) →
  (∀ a step start, P (page_events endpoint a step start)) →
  P (flat_map (predicate_events endpoint kwargs) l).
Proof.
  intros Hnil Happ Hcount Hpage. induction l as [|q l IH]; [done|].
  cbn [flat_map]. apply Happ; [|done].
  unfold predicate_events. destruct (reported endpoint q) as [count|]; [|done].
  apply (Happ [_]); [apply Hcount|].
  generalize (starts 0 (rounds_run kwargs (range 1000 (count + 1000) 1000))). intros ss.
  induction ss as [|s ss IHs]; [done|]. cbn [flat_map]. by apply Happ.
Qed.

Lemma fetch_triples kwargs l :
  add_edge_calls (flat_map (predicate_events endpoint kwargs) l)
  = returned_triples endpoint (flat_map (predicate_events endpoint kwargs) l).
Proof.
  apply (fetch_page_by_page kwargs l (λ t, add_edge_calls t = returned_triples endpoint t)).
  - done.
  - intros t1 t2 H1 H2. by rewrite add_edge_calls_app, returned_triples_app, H1, H2.
  - done.
  - apply page_events_triples.
Qed.

Lemma fetch_queries kwargs l x :
  queries_including x (flat_map (predicate_events endpoint kwargs) l)
  = pages_mentioning endpoint x (flat_map (predicate_events endpoint kwargs) l).
Proof.
  apply (fetch_page_by_page kwargs l
           (λ t, queries_including x t = pages_mentioning endpoint x t)).
  - done.
  - intros t1 t2 H1 H2. by rewrite queries_including_app, pages_mentioning_app, H1, H2.
  - done.
  - apply page_events_queries.
Qed.
End PerPage.

Lemma once_in_NoDup (l : list (string * string * string)) : NoDup l → once_per_triple l l.
Proof.
  intros Hnd tr Hin. induction Hnd as [|x l Hx Hnd IH]; [by apply elem_of_nil in Hin|].
  rewrite filter_cons. destruct (decide (x = tr)) as [->|Hne].
  - cbn [length]. f_equal.
    assert (∀ l' : list (string * string * string),
              tr ∉ l' → filter (λ c, c = tr) l' = []) as Hnone.
    { induction l' as [|y l' IH']; intros Hout; [done|]. rewrite filter_cons.
      rewrite decide_False by (intros ->; apply Hout; by left).
      apply IH'. intros ?. apply Hout. by right. }
    by rewrite Hnone.
  - apply IH. by apply elem_of_cons in Hin as [->|Hin].
Qed.

(** C2, as worded: one [add_edge] call per distinct returned triple, even
    when rows repeat a triple.  The first page of the fixture carries the
    triple (a, p, b) on two rows, and [add_edge] is called for it twice. *)
Lemma add_edge_once_counterexample :
  let run := load_networkx_graph store_2500 id (mutator := spec_mutator)
               (order := elements_order) {[ "p" ]} ∅ empty_graph in
  rows store_2500 GET (EdgeQuery "<p>" 0 1000)
    = [row "a" "p" (cell "uri" "b"); row "a" "p" (cell "uri" "b")]
  ∧ add_edge_calls (events run)
    = [("a", "p", "b"); ("a", "p", "b"); ("a", "p", "c"); ("a", "p", "c")]
  ∧ ¬ once_per_triple (add_edge_calls (events run)) (returned_triples store_2500 (events run)).
Proof.
  intros run.
  assert (add_edge_calls (events run)
          = [("a", "p", "b"); ("a", "p", "b"); ("a", "p", "c"); ("a", "p", "c")]) as Hcalls
    by (by vm_compute).
  assert (returned_triples store_2500 (events run)
          = [("a", "p", "b"); ("a", "p", "b"); ("a", "p", "c"); ("a", "p", "c")]) as Hret
    by (by vm_compute).
  split_and!; [reflexivity|done|].
  rewrite Hcalls, Hret. intros H. specialize (H ("a", "p", "b") ltac:(by left)).
  by vm_compute in H.
Qed.

(** C2, amended.  During one fetch [add_edge] is called once for every row
    the endpoint returns to the edge pages, in the order of the rows: no
    returned triple is skipped, a triple has as many calls as there are rows
    that carry it, and so exactly one when the rows do not repeat it. *)
Theorem add_edge_once_per_row
    (endpoint : Method → Query → Fault + list Binding) (un_camel_case : string → string)
    `{mutator : GraphMutator} `{order : SetOrder}
    (predicates : gset string) (kwargs : gmap string Z) (g : Graph) :
  endpoint_ok endpoint → counts_ok endpoint predicates →
  let run := load_networkx_graph endpoint un_camel_case predicates kwargs g in
  let calls := add_edge_calls (events run) in
  let returned := returned_triples endpoint (events run) in
  outcome run = Ok tt
  ∧ calls = returned
  ∧ (∀ tr, tr ∈ returned → tr ∈ calls)
  ∧ (NoDup returned → once_per_triple calls returned).
Proof.
  intros Hok Hc. cbn zeta.
  destruct (emits_load_networkx_graph endpoint Hok un_camel_case predicates kwargs Hc g)
    as [Ho He].
  rewrite He, (fetch_triples endpoint Hok). split_and!; [done..|apply once_in_NoDup].
Qed.

Lemma add_edge_once_per_row_witness :
  let run := load_networkx_graph store_2500 id (mutator := spec_mutator)
               (order := elements_order) {[ "p" ]} ∅ empty_graph in
  let calls := add_edge_calls (events run) in
  let returned := returned_triples store_2500 (events run) in
  outcome run = Ok tt
  ∧ calls = returned
  ∧ (∀ tr, tr ∈ returned → tr ∈ calls)
  ∧ (NoDup returned → once_per_triple calls returned).
Proof.
  apply (add_edge_once_per_row store_2500 id {[ "p" ]} ∅ empty_graph
           store_2500_ok (store_2500_counts _)).
Defined.

(** C3, as worded: no identifier in two node-attribute queries of a fetch.
    The node [a] is on each of the three pages of the fixture, and [<a>] is
    asked for three times, once after each page. *)
Lemma dedup_across_pages_counterexample :
  let run := load_networkx_graph store_2500 id (mutator := spec_mutator)
               (order := elements_order) {[ "p" ]} ∅ empty_graph in
  queries_including "<a>" (events run) = 3%nat
  ∧ ¬ deduplicated_across_pages (events run).
Proof.
  intros run.
  assert (queries_including "<a>" (events run) = 3%nat) as H3 by (by vm_compute).
  split; [done|]. intros H. specialize (H "<a>"). rewrite H3 in H. lia.
Qed.

(** C3, amended.  [node_list] is a new set on every page and [load_nodes]
    runs once per page: an identifier met on a page is in exactly one
    node-attribute query made for that page, however many rows of the page
    mention it.  So the number of node-attribute queries of a fetch that
    include an identifier is the number of fetched pages that mention it;
    an identifier on two pages is asked for twice. *)
Theorem node_ids_once_per_page
    (endpoint : Method → Query → Fault + list Binding) (un_camel_case : string → string)
    `{mutator : GraphMutator} `{order : SetOrder}
    (predicates : gset string) (kwargs : gmap string Z) (g : Graph) :
  endpoint_ok endpoint → counts_ok endpoint predicates →
  let run := load_networkx_graph endpoint un_camel_case predicates kwargs g in
  outcome run = Ok tt
  ∧ (∀ x, queries_including x (events run) = pages_mentioning endpoint x (events run))
  ∧ (∀ curie_list, curie_list ∈ node_requests (events run) → NoDup curie_list).
Proof.
  intros Hok Hc. cbn zeta.
  destruct (emits_load_networkx_graph endpoint Hok un_camel_case predicates kwargs Hc g)
    as [Ho He].
  rewrite He. split_and!; [done|intros x; by apply fetch_queries|].
  apply (fetch_page_by_page endpoint kwargs (set_iter predicates)
           (λ t, ∀ cl, cl ∈ node_requests t → NoDup cl)).
  - by intros cl ?%elem_of_nil.
  - intros t1 t2 H1 H2 cl. rewrite node_requests_app. intros [?|?]%elem_of_app; auto.
  - by intros a cl ?%elem_of_nil.
  - intros a step start cl. rewrite page_events_nodes by done.
    set (X := page_nodes (rows endpoint GET (EdgeQuery a start step))).
    intros Hcl.
    assert (NoDup (concat (values_clause <$> _grouper (set_iter X) chunk_size None))) as Hnd.
    { rewrite grouper_values by (unfold chunk_size; lia).
      apply NoDup_ListNoDup, List.NoDup_filter, NoDup_ListNoDup, set_iter_NoDup. }
    revert Hnd Hcl. generalize (values_clause <$> _grouper (set_iter X) chunk_size None).
    intros ls. induction ls as [|l ls IH]; [by intros _ ?%elem_of_nil|].
    cbn [concat]. intros (Hl & _ & Hls)%NoDup_app [->|Hin]%elem_of_cons; auto.
Qed.

Lemma node_ids_once_per_page_witness :
  let run := load_networkx_graph store_2500 id (mutator := spec_mutator)
               (order := elements_order) {[ "p" ]} ∅ empty_graph in
  (queries_including "<b>" (events run) = 1%nat
   ∧ pages_mentioning store_2500 "<a>" (events run) = 3%nat)
  ∧ outcome run = Ok tt
  ∧ (∀ x, queries_including x (events run) = pages_mentioning store_2500 x (events run))
  ∧ (∀ curie_list, curie_list ∈ node_requests (events run) → NoDup curie_list).
Proof.
  split; [by vm_compute|].
  apply (node_ids_once_per_page store_2500 id {[ "p" ]} ∅ empty_graph
           store_2500_ok (store_2500_counts _)).
Defined.

(** ** The node batcher, claim by claim *)

(** C5.  [load_nodes] cuts the set into tuples of 10000 places and pads the
    last tuple with the filler [None]; [filter(None, nodes)] removes every
    filler before the query is built, so the VALUES lists are the tuples
    without their fillers: they hold identifiers of the set only, never the
    filler and never the empty identifier.  For a set of 25000 identifiers
    exactly three node-attribute queries are sent. *)
Theorem node_batches
    (endpoint : Method → Query → Fault + list Binding)
    `{mutator : GraphMutator} `{order : SetOrder} (node_set : gset string) (g : Graph) :
  endpoint_ok endpoint →
  let run := load_nodes endpoint node_set g in
  let tuples := _grouper (set_iter node_set) chunk_size None in
  outcome run = Ok tt
  ∧ node_requests (events run) = (λ nodes, omap id (filter_None nodes)) <$> tuples
  ∧ (∀ nodes, nodes ∈ tuples → length nodes = chunk_size ∧ None ∉ filter_None nodes)
  ∧ (∀ curie_list x, curie_list ∈ node_requests (events run) → x ∈ curie_list →
       x ∈ node_set ∧ x ≠ "")
  ∧ (Z.of_nat (size node_set) = 25000 → length (node_requests (events run)) = 3%nat).
Proof.
  intros Hok. cbn zeta.
  destruct (emits_load_nodes endpoint Hok node_set g) as [Ho He].
  rewrite He, (batch_events_requests endpoint Hok).
  split_and!.
  - done.
  - done.
  - intros nodes Hin. split; [|apply filter_None_no_filler].
    unfold _grouper, chunk_size in *. destruct (Z.to_nat 10000) as [|n] eqn:Hn; [lia|].
    pose proof (zip_longest_shared_tuple (length (set_iter node_set)) (S n) None
                  (Some <$> set_iter node_set)) as Hall.
    rewrite Forall_forall in Hall. by apply Hall.
  - intros cl x Hcl Hx.
    assert (x ∈ concat (values_clause <$> _grouper (set_iter node_set) chunk_size None)) as Hcat.
    { rewrite list_elem_of_In, in_concat. exists cl. by rewrite <- !list_elem_of_In. }
    rewrite grouper_values in Hcat by (unfold chunk_size; lia).
    apply list_elem_of_In, List.filter_In in Hcat as [Hin Hne].
    split; [by apply set_iter_elem, list_elem_of_In|]. by intros ->.
  - intros Hsize. rewrite length_fmap.
    pose proof (grouper_length (set_iter node_set) chunk_size None) as Hk.
    assert (length (set_iter node_set) = size node_set) as Hlen
      by (by rewrite set_iter_perm).
    rewrite Hlen in Hk. unfold chunk_size in *. cbn zeta in Hk. lia.
Qed.

Lemma store_size_25000 : Z.of_nat (size node_set_25000) = 25000.
Proof. by vm_compute. Qed.

Lemma node_batches_witness :
  let run := load_nodes store_2500 (mutator := spec_mutator) (order := elements_order)
               node_set_25000 empty_graph in
  let tuples := _grouper (set_iter (SetOrder := elements_order) node_set_25000)
                  chunk_size None in
  Z.of_nat (size node_set_25000) = 25000
  ∧ length (node_requests (events run)) = 3%nat
  ∧ (∀ nodes, nodes ∈ tuples → length nodes = chunk_size ∧ None ∉ filter_None nodes)
  ∧ (∀ curie_list x, curie_list ∈ node_requests (events run) → x ∈ curie_list →
       x ∈ node_set_25000 ∧ x ≠ "").
Proof.
  intros run tuples.
  destruct (node_batches store_2500 (mutator := spec_mutator) (order := elements_order)
              node_set_25000 empty_graph store_2500_ok) as (_ & _ & H1 & H2 & H3).
  split_and!; [exact store_size_25000|exact (H3 store_size_25000)|exact H1|exact H2].
Defined.

(** The last tuple of five identifiers in tuples of two is padded, and the
    filler does not reach the VALUES list. *)
Example grouper_example :
  _grouper ["a"; "b"; "c"; "d"; "e"] 2 None
    = [[Some "a"; Some "b"]; [Some "c"; Some "d"]; [Some "e"; None]]
  ∧ values_clause [Some "e"; None] = ["e"]
  ∧ _grouper ["a"; "b"; "c"; "d"] 2 None = [[Some "a"; Some "b"]; [Some "c"; Some "d"]].
Proof. by vm_compute. Qed.

Section BlankNodes.
Context (endpoint : Method → Query → Fault + list Binding).
Context {mutator : GraphMutator}.
Context {order : SetOrder}.

Lemma bind_ext {A B} (m : M A) (f f' : A → M B) g :
  (∀ a g', f a g' = f' a g') → (m ≫= f) g = (m ≫= f') g.
Proof.
  intros H. unfold mbind, M_bind, bind. cbn. destruct (outcome (m g)); [|done].
  by rewrite H.
Qed.

Lemma bind_pure_ok {A B} (m : M A) (f : A → M B) g a :
  m g = MkRun (Ok a) g [] → (m ≫= f) g = f a g.
Proof.
  intros H. rewrite (bind_ok m f g a) by by rewrite H.
  rewrite H. cbn. by destruct (f a g).
Qed.

Lemma bind_pure_raise {A B} (m : M A) (f : A → M B) g e :
  m g = MkRun (Raise e) g [] → (m ≫= f) g = MkRun (Raise e) g [].
Proof. intros H. rewrite (bind_raise m f g e) by by rewrite H. by rewrite H. Qed.

Lemma pure_run_outcome {A} (m : M A) g out out' :
  m g = MkRun out g [] → outcome (m g) = out' → m g = MkRun out' g [].
Proof. intros ->. cbn. by intros ->. Qed.

Lemma key_step p :
  (if PyStr.startswith "bl:" p then local_name p else mret p) = mret (attribute_key p).
Proof.
  unfold attribute_key, local_name. destruct (PyStr.startswith "bl:" p) eqn:Hbl; [|done].
  by destruct (split_second p Hbl) as [name ->].
Qed.

(** What one round of the loop over the rows makes of the dict. *)
Lemma record_binding_run d r g :
  record_binding d r g
  = MkRun
      (match r !! "object" with
       | None => Raise (KeyError "object")
       | Some o =>
           if negb (String.eqb (type o) "bnode")
           then match r !! "subject", r !! "predicate" with
                | None, _ => Raise (KeyError "subject")
                | Some _, None => Raise (KeyError "predicate")
                | Some s, Some p =>
                    let d0 := match dict_get (value s) d with
                              | None => dict_set (value s) [] d
                              | Some _ => d
                              end in
                    Ok (dict_set (value s)
                          (dict_set (attribute_key (value p)) (value o)
                             (default [] (dict_get (value s) d0))) d0)
                end
           else Ok d
       end) g [].
Proof.
  unfold record_binding, getitem.
  destruct (r !! "object") as [o|]; [|done]. rewrite ret_bind.
  destruct (negb (String.eqb (type o) "bnode")); [|done].
  destruct (r !! "subject") as [s|]; [|done]. rewrite !ret_bind.
  destruct (r !! "predicate") as [p|]; [|done]. rewrite ret_bind.
  rewrite key_step. unfold mret, M_ret. by rewrite ret_bind.
Qed.

Lemma record_binding_grounded rs d r g d' :
  r ∈ rs → grounded rs d → outcome (record_binding d r g) = Ok d' → grounded rs d'.
Proof.
  intros Hr Hd. rewrite record_binding_run. cbn [outcome].
  destruct (r !! "object") as [o|] eqn:Ho; [|done].
  destruct (negb (String.eqb (type o) "bnode")) eqn:Hb; [|by intros [= <-]].
  destruct (r !! "subject") as [s|] eqn:Hs; [|done].
  destruct (r !! "predicate") as [p|] eqn:Hp; [|done].
  cbn zeta. intros [= <-].
  assert (type o ≠ "bnode") as Hty.
  { intros Heq. rewrite Heq in Hb. done. }
  set (d0 := match dict_get (value s) d with
             | None => dict_set (value s) [] d
             | Some _ => d
             end).
  assert (grounded rs d0) as Hd0.
  { subst d0. destruct (dict_get (value s) d); [done|].
    intros n attrs k v [[-> ->]|Hin]%dict_set_elem Hkv.
    - by apply elem_of_nil in Hkv.
    - by apply (Hd n attrs). }
  intros n attrs k v [[-> ->]|Hin]%dict_set_elem Hkv.
  - apply dict_set_elem in Hkv as [[-> ->]|Hkv].
    + exists r. split; [done|]. by exists s, p, o.
    + destruct (dict_get (value s) d0) as [inner|] eqn:Hget.
      * apply (Hd0 (value s) inner); [by apply dict_get_elem|done].
      * by apply elem_of_nil in Hkv.
  - by apply (Hd0 n attrs).
Qed.

Lemma record_fold_run rs0 rs d g :
  (∀ r, r ∈ rs → r ∈ rs0) → grounded rs0 d →
  graph (for_fold rs d record_binding g) = g
  ∧ events (for_fold rs d record_binding g) = []
  ∧ ∀ d', outcome (for_fold rs d record_binding g) = Ok d' → grounded rs0 d'.
Proof.
  revert d. induction rs as [|r rs IH]; intros d Hsub Hd.
  - split_and!; [done..|]. by intros d' [= <-].
  - cbn [for_fold].
    pose proof (record_binding_grounded rs0 d r g) as Hstep.
    pose proof (record_binding_run d r g) as Hrun.
    destruct (outcome (record_binding d r g)) as [d1|e] eqn:Ho;
      apply (pure_run_outcome _ _ _ _ Hrun) in Ho; clear Hrun; rename Ho into Hrun.
    + rewrite (bind_pure_ok _ _ _ _ Hrun). apply IH.
      * intros r' Hr'. apply Hsub. by right.
      * apply (Hstep d1); [apply Hsub; by left|done|done].
    + rewrite (bind_pure_raise _ _ _ _ Hrun). by split_and!.
Qed.

(** The attribute calls of a chunk come from its rows that are not about
    blank nodes. *)
Lemma record_attributes_event rs g e :
  e ∈ events (record_attributes rs g) →
  ∃ n k v r, e = AddNodeAttribute n k v ∧ r ∈ rs ∧ attribute_of r n k v.
Proof.
  unfold record_attributes.
  destruct (record_fold_run rs rs [] g) as (Hg & He & Hd); [done| |].
  { intros n attrs k v Hin. by apply elem_of_nil in Hin. }
  intros [Hin|(d & Ho & Hin)]%bind_event.
  - rewrite He in Hin. by apply elem_of_nil in Hin.
  - destruct (emits_flush d (graph (for_fold rs [] record_binding g))) as [_ Hf].
    rewrite Hf in Hin.
    apply flush_events_entry in Hin as (n & attrs & k & v & -> & Hn & Hk).
    destruct (Hd d Ho n attrs k v Hn Hk) as (r & Hr & Hattr).
    by exists n, k, v, r.
Qed.

Lemma load_chunk_event nodes g e :
  e ∈ events (load_chunk endpoint nodes g) →
  (∃ curie_list, e = Request POST (NodePropertiesQuery curie_list))
  ∨ ∃ curie_list rs n k v r,
      endpoint POST (NodePropertiesQuery curie_list) = inr rs
      ∧ e = AddNodeAttribute n k v ∧ r ∈ rs ∧ attribute_of r n k v.
Proof.
  unfold load_chunk. intros [Hin|(cl & _ & Hin)]%bind_event.
  - destruct (emits_join_items (filter_None nodes) (filter_None_no_filler nodes) g) as [_ He].
    rewrite He in Hin. by apply elem_of_nil in Hin.
  - apply bind_event in Hin as [Hin|(rs & Ho & Hin)].
    + left. exists cl. unfold SparqlTransformer.sparql_query in Hin.
      destruct (endpoint POST (NodePropertiesQuery cl)); cbn in Hin;
        by apply list_elem_of_singleton in Hin.
    + right. apply record_attributes_event in Hin as (n & k & v & r & -> & Hr & Hattr).
      exists cl, rs, n, k, v, r. split_and!; try done.
      unfold SparqlTransformer.sparql_query in Ho.
      destruct (endpoint POST (NodePropertiesQuery cl)); cbn in Ho; congruence.
Qed.

(** Rows about blank nodes can be left out of the answer without any
    change to what the chunk does. *)
Lemma record_fold_skips rs d g :
  for_fold rs d record_binding g
  = for_fold (List.filter (λ r, negb (is_bnode r)) rs) d record_binding g.
Proof.
  revert d g. induction rs as [|r rs IH]; intros d g; [done|].
  cbn [List.filter for_fold]. destruct (is_bnode r) eqn:Hb; cbn [negb for_fold].
  - rewrite (bind_pure_ok _ _ _ _ (record_binding_bnode d r g Hb)). apply IH.
  - apply bind_ext. intros d1 g1. apply IH.
Qed.
End BlankNodes.

(** C7.  A row of a node-attribute answer whose object has type [bnode]
    contributes no [add_node_attribute] call: what [load_nodes] does with the
    rows of a chunk is what it does with the rows that are not about blank
    nodes, and every [add_node_attribute] call of [load_nodes] is for a row
    of an answer whose object is not a blank node, with that row's subject
    as the node, its predicate (cut to the local name after [bl:]) as the
    key and its object as the value. *)
Theorem bnode_rows_ignored
    (endpoint : Method → Query → Fault + list Binding)
    `{mutator : GraphMutator} `{order : SetOrder} :
  (∀ rs g, record_attributes rs g
           = record_attributes (List.filter (λ r, negb (is_bnode r)) rs) g)
  ∧ (∀ node_set g n k v,
       AddNodeAttribute n k v ∈ events (load_nodes endpoint node_set g) →
       ∃ curie_list rs r,
         endpoint POST (NodePropertiesQuery curie_list) = inr rs
         ∧ r ∈ rs ∧ is_bnode r = false ∧ attribute_of r n k v).
Proof.
  split.
  - intros rs g. unfold record_attributes, mbind, M_bind, bind.
    by rewrite <- record_fold_skips.
  - intros node_set g n k v Hin. unfold load_nodes in Hin.
    apply for_event in Hin as (nodes & g' & _ & Hin).
    apply load_chunk_event in Hin as [[cl [=]]|(cl & rs & n' & k' & v' & r & Hq & [= <- <- <-] & Hr & Hattr)].
    exists cl, rs, r. split_and!; try done.
    destruct Hattr as (s & p & o & _ & _ & Ho & Hty & _).
    unfold is_bnode. rewrite Ho. by apply String.eqb_neq.
Qed.

Lemma bnode_rows_ignored_witness :
  let run := load_nodes store_2500 (mutator := spec_mutator) (order := elements_order)
               {[ "<a>" ]} empty_graph in
  AddNodeAttribute "a" "name" "Alice" ∈ events run
  ∧ ∃ curie_list rs r,
      store_2500 POST (NodePropertiesQuery curie_list) = inr rs
      ∧ r ∈ rs ∧ is_bnode r = false ∧ attribute_of r "a" "name" "Alice".
Proof.
  intros run.
  assert (AddNodeAttribute "a" "name" "Alice" ∈ events run) as Hin.
  { assert (events run = [Request POST (NodePropertiesQuery ["<a>"]);
                          AddNodeAttribute "a" "name" "Alice"]) as -> by (by vm_compute).
    right. by left. }
  split; [done|].
  destruct (bnode_rows_ignored store_2500 (mutator := spec_mutator) (order := elements_order))
    as [_ H].
  exact (H {[ "<a>" ]} empty_graph "a" "name" "Alice" Hin).
Defined.

(** The fixture answers a node-attribute query with a literal and a blank
    node: the literal becomes an attribute under the local name of its
    predicate, the blank node leaves no trace. *)
Example bnode_example :
  add_node_attribute_calls
    (events (load_nodes store_2500 (mutator := spec_mutator) (order := elements_order)
               {[ "<a>" ]} empty_graph))
  = [("a", "name", "Alice")].
Proof. by vm_compute. Qed.

(** ** The generic loader *)

Section Generic.
Context (endpoint : Method → Query → Fault + list Binding).
Context {mutator : GraphMutator}.
Context {order : SetOrder}.

Lemma load_row_run r s p o g :
  r !! "subject" = Some s → r !! "predicate" = Some p → r !! "object" = Some o →
  SparqlTransformer.load_row r g
  = (if String.eqb (type o) "literal"
     then SparqlTransformer.add_node_attribute (value s) (value p) (value o)
     else SparqlTransformer.add_edge (value s) (value o) (value p)) g.
Proof.
  intros Hs Hp Ho. unfold SparqlTransformer.load_row, getitem.
  rewrite Hs, Hp, Ho. by rewrite !ret_bind.
Qed.

Lemma emits_load_row r : row_ok r → emits (SparqlTransformer.load_row r) tt (routed r).
Proof.
  intros ([s Hs] & [p Hp] & [o Ho]) g.
  rewrite (load_row_run r s p o g Hs Hp Ho). unfold routed. rewrite Hs, Hp, Ho.
  by destruct (String.eqb (type o) "literal").
Qed.

Lemma routed_calls rs : mutator_calls (flat_map routed rs) = flat_map routed rs.
Proof.
  unfold mutator_calls. induction rs as [|r rs IH]; [done|].
  cbn [flat_map]. rewrite List.filter_app, IH. f_equal.
  unfold routed. destruct (r !! "subject"), (r !! "predicate"), (r !! "object"); try done.
  by destruct (String.eqb (type _) "literal").
Qed.

Lemma emits_generic_load predicates :
  endpoint_ok endpoint →
  emits (SparqlTransformer.load_networkx_graph endpoint predicates) tt
        (flat_map (λ p, Request GET (GenericEdgeQuery (PyStr.angle p))
                          :: flat_map routed (rows endpoint GET (GenericEdgeQuery (PyStr.angle p))))
                  (set_iter predicates)).
Proof.
  intros (_ & _ & Hgen). unfold SparqlTransformer.load_networkx_graph.
  apply emits_for_. intros p _. cbn zeta.
  destruct (rows_answer _ _ _ (Hgen (PyStr.angle p))) as [Hq Hrs].
  eapply (emits_bind _ _ _ _ [_]); [by apply emits_sparql_query|].
  apply emits_for_. intros r Hr. apply emits_load_row.
  rewrite Forall_forall in Hrs. by apply Hrs.
Qed.
End Generic.

Lemma row_lookup s p o :
  row s p o !! "subject" = Some (cell "uri" s)
  ∧ row s p o !! "predicate" = Some (cell "uri" p)
  ∧ row s p o !! "object" = Some o.
Proof. unfold row. split_and!; by simplify_map_eq. Qed.

(** C8.  In [SparqlTransformer.load_networkx_graph] a row whose object has
    type [literal] gives one call [add_node_attribute(subject, key=predicate,
    value=object)] and no [add_edge]; a row whose object has any other type
    gives one call [add_edge(subject, object, predicate)].  The calls of a
    fetch are those of the rows of the answers, in order.  With the mutator
    of the written specification and an empty graph, a single literal triple
    (S, P, "42") leaves the node S with the attribute P = "42" and no edge. *)
Theorem literal_rows_become_attributes
    (endpoint : Method → Query → Fault + list Binding) `{order : SetOrder} :
  (∀ (mutator : GraphMutator) r s p o g,
     r !! "subject" = Some s → r !! "predicate" = Some p → r !! "object" = Some o →
     events (SparqlTransformer.load_row r g)
     = if String.eqb (type o) "literal"
       then [AddNodeAttribute (value s) (value p) (value o)]
       else [AddEdge (value s) (value o) (value p)])
  ∧ (∀ (mutator : GraphMutator) predicates g,
       endpoint_ok endpoint →
       let run := SparqlTransformer.load_networkx_graph endpoint predicates g in
       outcome run = Ok tt
       ∧ mutator_calls (events run)
         = flat_map (λ p, flat_map routed (rows endpoint GET (GenericEdgeQuery (PyStr.angle p))))
                    (set_iter predicates))
  ∧ (∀ S P predicate,
       endpoint GET (GenericEdgeQuery (PyStr.angle predicate))
         = inr [row S P (cell "literal" "42")] →
       let run := SparqlTransformer.load_networkx_graph endpoint (mutator := spec_mutator)
                    {[ predicate ]} empty_graph in
       outcome run = Ok tt
       ∧ mutator_calls (events run) = [AddNodeAttribute S P "42"]
       ∧ nodes (graph run) = {[ S := {[ P := "42" ]} ]}
       ∧ edges (graph run) = []).
Proof.
  split_and!.
  - intros mutator r s p o g Hs Hp Ho. rewrite (load_row_run r s p o g Hs Hp Ho).
    by destruct (String.eqb (type o) "literal").
  - intros mutator predicates g Hok. cbn zeta.
    destruct (emits_generic_load endpoint predicates Hok g) as [Ho ->].
    split; [done|]. induction (set_iter predicates) as [|p l IH]; [done|].
    cbn [flat_map]. unfold mutator_calls in *.
    rewrite List.filter_app, IH. f_equal. cbn [List.filter]. apply routed_calls.
  - intros S P predicate Hq. cbn zeta.
    unfold SparqlTransformer.load_networkx_graph.
    assert (set_iter {[ predicate ]} = [predicate]) as ->.
    { apply Permutation_singleton_r. by rewrite set_iter_perm, elements_singleton. }
    cbn [for_]. unfold SparqlTransformer.query.
    destruct (row_lookup S P (cell "literal" "42")) as (Hs & Hp & Ho).
    assert (∀ g, SparqlTransformer.load_row (mutator := spec_mutator)
                   (row S P (cell "literal" "42")) g
                 = SparqlTransformer.add_node_attribute (mutator := spec_mutator) S P "42" g)
      as Hrow by (intros g; by rewrite (load_row_run _ _ _ _ g Hs Hp Ho)).
    unfold mbind, M_bind, bind, SparqlTransformer.sparql_query. rewrite Hq.
    cbn [outcome graph events for_]. unfold mbind, M_bind, bind. rewrite Hrow.
    cbn. split_and!; try done; by rewrite lookup_empty, !insert_empty.
Qed.

Lemma literal_rows_become_attributes_witness :
  let run := SparqlTransformer.load_networkx_graph store_literal (mutator := spec_mutator)
               (order := elements_order) {[ "P" ]} empty_graph in
  outcome run = Ok tt
  ∧ mutator_calls (events run) = [AddNodeAttribute "S" "P" "42"]
  ∧ nodes (graph run) = {[ "S" := {[ "P" := "42" ]} ]}
  ∧ edges (graph run) = [].
Proof.
  destruct (literal_rows_become_attributes store_literal (order := elements_order))
    as (_ & _ & H).
  apply (H "S" "P" "P"). reflexivity.
Defined.

(** ** categorize *)

Lemma categorize_data_twice un_camel_case data :
  categorize_data un_camel_case (categorize_data un_camel_case data)
  = categorize_data un_camel_case data.
Proof.
  unfold categorize_data.
  destruct (data !! "category") as [c|] eqn:Hc; [by rewrite Hc|].
  destruct (data !! "type") as [t|] eqn:Ht.
  - by rewrite lookup_insert_eq.
  - by rewrite Hc, Ht.
Qed.

(** C9.  [categorize] run twice leaves the graph that one run leaves, since
    after the first run every node with a [type] has a [category]; and a
    node that has a [category] keeps its attributes as they are, whether or
    not it has a [type].  [categorize] calls nothing and does not fail. *)
Theorem categorize_idempotent (un_camel_case : string → string) (g : Graph) :
  (categorize un_camel_case ;; categorize un_camel_case) g = categorize un_camel_case g
  ∧ categorize_graph un_camel_case (categorize_graph un_camel_case g)
    = categorize_graph un_camel_case g
  ∧ (∀ n data, nodes (categorize_graph un_camel_case g) !! n = Some data →
       is_Some (data !! "type") → is_Some (data !! "category"))
  ∧ (∀ n data, nodes g !! n = Some data → is_Some (data !! "category") →
       nodes (graph (categorize un_camel_case g)) !! n = Some data).
Proof.
  assert (categorize_graph un_camel_case (categorize_graph un_camel_case g)
          = categorize_graph un_camel_case g) as Htwice.
  { unfold categorize_graph. cbn [nodes edges]. f_equal.
    rewrite <- map_fmap_compose. apply map_fmap_ext. intros n data _.
    apply categorize_data_twice. }
  split_and!.
  - unfold mbind, M_bind, bind, categorize. cbn. by rewrite Htwice.
  - done.
  - intros n data Hn Htype. cbn [nodes categorize_graph] in Hn.
    apply lookup_fmap_Some in Hn as (data0 & <- & _).
    unfold categorize_data in *.
    destruct (data0 !! "category") as [c|] eqn:Hcat; [by rewrite Hcat|].
    destruct (data0 !! "type") as [t|] eqn:Hty; [|by rewrite Hty in Htype; destruct Htype].
    rewrite lookup_insert_eq. eauto.
  - intros n data Hn [c Hc]. cbn [graph categorize nodes categorize_graph].
    rewrite lookup_fmap, Hn. cbn. unfold categorize_data. by rewrite Hc.
Qed.

Lemma categorize_idempotent_witness :
  nodes some_graph !! "n2" = Some (<["category" := "foo"]> {[ "type" := "biolink:Gene" ]})
  ∧ nodes (graph (categorize id some_graph)) !! "n2"
    = Some (<["category" := "foo"]> {[ "type" := "biolink:Gene" ]})
  ∧ nodes (graph (categorize id some_graph)) !! "n1"
    = Some (<["category" := "GeneProduct"]> {[ "type" := "biolink:GeneProduct" ]}).
Proof.
  destruct (categorize_idempotent id some_graph) as (_ & _ & _ & H).
  split_and!.
  - by vm_compute.
  - apply H; [by vm_compute|]. exists "foo". by vm_compute.
  - by vm_compute.
Defined.


(** * Further properties *)

(** ** What a fetch is made of *)

Section Alphabet.
Context (endpoint : Method → Query → Fault + list Binding).
Context {mutator : GraphMutator}.
Context {order : SetOrder}.

Lemma for_fold_quiet {A S} (l : list A) (body : S → A → M S) s g :
  (∀ s x g, graph (body s x g) = g ∧ events (body s x g) = []) →
  graph (for_fold l s body g) = g ∧ events (for_fold l s body g) = [].
Proof.
  intros Hbody. revert s. induction l as [|x l IH]; intros s; [done|].
  cbn [for_fold]. destruct (Hbody s x g) as [Hg He].
  destruct (outcome (body s x g)) as [s'|err] eqn:Ho.
  - rewrite (bind_ok _ _ _ _ Ho). cbn. rewrite Hg, He. apply IH.
  - rewrite (bind_raise _ _ _ _ Ho). cbn. by rewrite Hg, He.
Qed.

(** What one row does to [node_list]. *)
Lemma add_row_nodes_run acc r g :
  add_row_nodes acc r g
  = MkRun (match r !! "subject", r !! "object" with
           | Some s, Some o =>
               Ok ({[ PyStr.angle (value o) ]} ∪ ({[ PyStr.angle (value s) ]} ∪ acc))
           | None, _ => Raise (KeyError "subject")
           | Some _, None => Raise (KeyError "object")
           end) g [].
Proof.
  unfold add_row_nodes, getitem.
  destruct (r !! "subject") as [s|]; [|done]. rewrite ret_bind.
  destruct (r !! "object") as [o|]; [|done]. by rewrite ret_bind.
Qed.

(** The loop over the rows of a page touches neither the graph nor the
    endpoint; it ends with the identifiers of the page when every row names
    its two nodes, and with a [KeyError] otherwise. *)
Lemma collect_from_run rs acc g :
  ∃ out, for_fold rs acc add_row_nodes g = MkRun out g []
         ∧ (Forall row_has_nodes rs → out = Ok (page_nodes rs ∪ acc))
         ∧ (¬ Forall row_has_nodes rs →
            out = Raise (KeyError "subject") ∨ out = Raise (KeyError "object")).
Proof.
  revert acc. induction rs as [|r rs IH]; intros acc.
  - exists (Ok acc). split_and!; [done| |by intros []].
    intros _. f_equal. unfold page_nodes. cbn. set_solver.
  - cbn [for_fold]. pose proof (add_row_nodes_run acc r g) as Hrow.
    destruct (r !! "subject") as [s|] eqn:Hs; [destruct (r !! "object") as [o|] eqn:Ho|].
    + rewrite (bind_pure_ok _ _ _ _ Hrow).
      destruct (IH ({[PyStr.angle (value o)]} ∪ ({[PyStr.angle (value s)]} ∪ acc)))
        as (out & Hrun & Hgood & Hbad).
      exists out. split_and!; [done| |].
      * intros Hall. rewrite Hgood by by inversion Hall. f_equal.
        unfold page_nodes. cbn [flat_map]. rewrite Hs, Ho. set_solver.
      * intros Hnot. apply Hbad. intros Hall. apply Hnot. constructor; [|done].
        split; eauto.
    + rewrite (bind_pure_raise _ _ _ _ Hrow). eexists. split_and!; [done| |by right].
      intros Hall. inversion Hall as [|?? [_ [? Habs]]]. congruence.
    + rewrite (bind_pure_raise _ _ _ _ Hrow). eexists. split_and!; [done| |by left].
      intros Hall. inversion Hall as [|?? [[? Habs] _]]. congruence.
Qed.

Lemma collect_nodes_run rs g :
  ∃ out, collect_nodes rs g = MkRun out g []
         ∧ (Forall row_has_nodes rs → out = Ok (page_nodes rs))
         ∧ (¬ Forall row_has_nodes rs →
            out = Raise (KeyError "subject") ∨ out = Raise (KeyError "object")).
Proof.
  destruct (collect_from_run rs ∅ g) as (out & Hrun & Hgood & Hbad).
  exists out. split_and!; [done| |done].
  intros Hall. rewrite (Hgood Hall). f_equal. set_solver.
Qed.

Lemma sparql_query_run m q g :
  SparqlTransformer.sparql_query endpoint m q g
  = MkRun (match endpoint m q with inr rs => Ok rs | inl e => Raise e end) g [Request m q].
Proof. unfold SparqlTransformer.sparql_query. by destruct (endpoint m q). Qed.

(** The events of the batcher on one tuple: the request for the items of
    the tuple that are not fillers, then attribute calls. *)
Lemma load_chunk_request nodes g e :
  e ∈ events (load_chunk endpoint nodes g) →
  e = Request POST (NodePropertiesQuery (values_clause nodes))
  ∨ ∃ n k v, e = AddNodeAttribute n k v.
Proof.
  unfold load_chunk.
  destruct (emits_join_items (filter_None nodes) (filter_None_no_filler nodes) g) as [Ho He].
  intros [Hin|(cl & Hcl & Hin)]%bind_event.
  - rewrite He in Hin. by apply elem_of_nil in Hin.
  - assert (cl = values_clause nodes) as -> by (unfold values_clause; congruence).
    apply bind_event in Hin as [Hin|(rs & _ & Hin)].
    + left. rewrite sparql_query_run in Hin. by apply list_elem_of_singleton in Hin.
    + right. apply record_attributes_event in Hin as (n & k & v & _ & -> & _). eauto.
Qed.

(** Every tuple starts with an item of the iterator. *)
Lemma zip_longest_shared_head fuel n fill it t :
  (0 < n)%nat → t ∈ zip_longest_shared fuel n fill it →
  ∃ x rest, t = x :: rest ∧ x ∈ it.
Proof.
  intros Hn. revert it. induction fuel as [|fuel IH]; intros it; [by destruct it; intros ?%elem_of_nil|].
  destruct it as [|x it]; [by intros ?%elem_of_nil|].
  change (zip_longest_shared (S fuel) n fill (x :: it))
    with ((take n (x :: it) ++ replicate (n - length (x :: it)) fill)
            :: zip_longest_shared fuel n fill (drop n (x :: it))).
  intros [->|Hin]%elem_of_cons.
  - destruct n as [|n]; [lia|]. cbn [take]. eexists _, _. split; [reflexivity|by left].
  - destruct (IH _ Hin) as (y & rest & -> & Hy). exists y, rest. split; [done|].
    by apply (subseteq_drop n (x :: it)).
Qed.

Lemma values_clause_length nodes : (length (values_clause nodes) ≤ length nodes)%nat.
Proof.
  unfold values_clause, filter_None. induction nodes as [|[[|a x]|] nodes IH]; cbn; lia.
Qed.

(** The VALUES list of a tuple of the batcher: at most 10000 identifiers,
    all of them non-empty identifiers of the set, and at least one when the
    set has no empty identifier. *)
Lemma tuple_values (X : gset string) nodes :
  nodes ∈ _grouper (set_iter X) chunk_size None →
  (length (values_clause nodes) ≤ chunk_size)%nat
  ∧ (∀ x, x ∈ values_clause nodes → x ∈ X ∧ x ≠ "")
  ∧ ("" ∉ X → (1 ≤ length (values_clause nodes))%nat).
Proof.
  intros Hin.
  assert (0 < chunk_size)%nat as Hn by (unfold chunk_size; lia).
  assert (length nodes = chunk_size) as Hlen.
  { unfold _grouper in Hin. destruct chunk_size as [|n] eqn:Hcs; [lia|].
    pose proof (zip_longest_shared_tuple (length (set_iter X)) (S n) None
                  (Some <$> set_iter X)) as Hall.
    rewrite Forall_forall in Hall. by apply Hall. }
  split_and!.
  - rewrite <- Hlen. apply values_clause_length.
  - intros x Hx.
    assert (x ∈ concat (values_clause <$> _grouper (set_iter X) chunk_size None)) as Hcat.
    { rewrite list_elem_of_In, in_concat. exists (values_clause nodes).
      rewrite <- !list_elem_of_In. split; [|done]. by apply list_elem_of_fmap_2. }
    rewrite grouper_values in Hcat by done.
    apply list_elem_of_In, List.filter_In in Hcat as [Hx' Hne].
    split; [by apply set_iter_elem, list_elem_of_In|]. by intros ->.
  - intros Hempty. unfold _grouper in Hin. destruct chunk_size as [|n] eqn:Hcs; [lia|].
    apply zip_longest_shared_head in Hin as (x & rest & -> & Hx); [|lia].
    apply list_elem_of_fmap in Hx as (y & -> & Hy). apply set_iter_elem in Hy.
    unfold values_clause, filter_None. destruct y as [|a y]; [done|]. cbn. lia.
Qed.

Lemma load_nodes_request X g e :
  e ∈ events (load_nodes endpoint X g) →
  (∃ nodes, nodes ∈ _grouper (set_iter X) chunk_size None
            ∧ e = Request POST (NodePropertiesQuery (values_clause nodes)))
  ∨ ∃ n k v, e = AddNodeAttribute n k v.
Proof.
  unfold load_nodes. intros (nodes & g' & Hnodes & Hin)%for_event.
  apply load_chunk_request in Hin as [->|?]; [left|by right]. eauto.
Qed.

Lemma add_edge_of_event r g e :
  e ∈ events (add_edge_of r g) → ∃ s o p, e = AddEdge s o p.
Proof.
  unfold add_edge_of, getitem.
  destruct (r !! "subject") as [s|]; [|by intros ?%elem_of_nil]. rewrite ret_bind.
  destruct (r !! "predicate") as [p|]; [|by intros ?%elem_of_nil]. rewrite ret_bind.
  destruct (r !! "object") as [o|]; [|by intros ?%elem_of_nil]. rewrite ret_bind.
  intros ->%list_elem_of_singleton. eauto.
Qed.

Lemma page_nodes_angle rs x : x ∈ page_nodes rs → x ≠ "".
Proof. intros Hx%page_nodes_nonempty. by intros ->. Qed.

Lemma fetch_pages_event association kwargs start rounds g e :
  0 ≤ start → start mod 1000 = 0 → Forall (λ i, 0 ≤ i ∧ i mod 1000 = 0) rounds →
  e ∈ events (fetch_pages endpoint association kwargs 1000 start rounds g) → red_event e.
Proof.
  revert start g. induction rounds as [|i rounds IH]; intros start g Hs Hm Hr;
    [by intros ?%elem_of_nil|].
  cbn [fetch_pages]. intros [Hin|(rs & Hrs & Hin)]%bind_event.
  { rewrite sparql_query_run in Hin. by apply list_elem_of_singleton in Hin as ->. }
  rewrite sparql_query_run in Hin. cbn [graph] in Hin.
  destruct (collect_nodes_run rs g) as (out & Hrun & Hgood & Hbad).
  apply bind_event in Hin as [Hin|(X & HX & Hin)].
  { rewrite Hrun in Hin. by apply elem_of_nil in Hin. }
  rewrite Hrun in HX, Hin. cbn [outcome graph] in HX, Hin. subst out.
  assert (X = page_nodes rs) as ->.
  { destruct (decide (Forall row_has_nodes rs)) as [Hall|Hnot].
    - specialize (Hgood Hall). congruence.
    - destruct (Hbad Hnot); congruence. }
  apply bind_event in Hin as [Hin|(_ & _ & Hin)].
  { apply load_nodes_request in Hin as [(nodes & Hnodes & ->)|(n & k & v & ->)]; [|done].
    destruct (tuple_values _ _ Hnodes) as (Hle & Hval & Hone). cbn. split_and!.
    - apply Hone. by intros ?%page_nodes_angle.
    - done.
    - intros Hin. by destruct (Hval "" Hin). }
  apply bind_event in Hin as [Hin|(_ & _ & Hin)].
  { apply for_event in Hin as (r & g' & _ & Hin).
    by apply add_edge_of_event in Hin as (s & o & p & ->). }
  destruct (limit_exceeded kwargs i); [by apply elem_of_nil in Hin|].
  inversion Hr as [|?? [Hi Hmi] Hr']; subst. by eapply (IH i).
Qed.

Lemma range_multiples count : Forall (λ i, 0 ≤ i ∧ i mod 1000 = 0) (range 1000 (count + 1000) 1000).
Proof.
  rewrite range_rounds by done. apply Forall_fmap, Forall_forall. intros k _. cbn.
  split; [lia|]. replace (1000 + Z.of_nat k * 1000) with ((1 + Z.of_nat k) * 1000) by lia.
  apply Z.mod_mul. lia.
Qed.
End Alphabet.

(** X1.  Whatever the endpoint answers, and whether or not the fetch ends
    with a fault, [RedSparqlTransformer.load_networkx_graph] sends nothing
    but count queries and edge pages by GET and node-attribute queries by
    POST: every edge page has limit 1000 and an offset that is a multiple of
    1000, and every node-attribute query lists between 1 and 10000
    identifiers, none of them empty. *)
Theorem fetch_events_allowed
    (endpoint : Method → Query → Fault + list Binding) (un_camel_case : string → string)
    `{mutator : GraphMutator} `{order : SetOrder}
    (predicates : gset string) (kwargs : gmap string Z) (g : Graph) (e : Event) :
  e ∈ events (load_networkx_graph endpoint un_camel_case predicates kwargs g) →
  red_event e.
Proof.
  unfold load_networkx_graph. intros [Hin|(_ & _ & Hin)]%bind_event;
    [|by apply elem_of_nil in Hin].
  apply for_event in Hin as (p & g' & _ & Hin). unfold fetch_predicate in Hin.
  apply bind_event in Hin as [Hin|(rs & _ & Hin)].
  { rewrite sparql_query_run in Hin. by apply list_elem_of_singleton in Hin as ->. }
  apply bind_event in Hin as [Hin|(count & _ & Hin)].
  { rewrite read_count_pure in Hin. by apply elem_of_nil in Hin. }
  apply fetch_pages_event in Hin; [done|done|done|apply range_multiples].
Qed.

Lemma fetch_events_allowed_witness :
  Request POST (NodePropertiesQuery ["<a>"; "<b>"])
    ∈ events (load_networkx_graph store_2500 id (mutator := spec_mutator)
                (order := elements_order) {[ "p" ]} ∅ empty_graph)
  ∧ red_event (Request POST (NodePropertiesQuery ["<a>"; "<b>"])).
Proof.
  assert (Request POST (NodePropertiesQuery ["<a>"; "<b>"])
            ∈ events (load_networkx_graph store_2500 id (mutator := spec_mutator)
                        (order := elements_order) {[ "p" ]} ∅ empty_graph)) as Hin.
  { assert (events (load_networkx_graph store_2500 id (mutator := spec_mutator)
                      (order := elements_order) {[ "p" ]} ∅ empty_graph) !! 2%nat
            = Some (Request POST (NodePropertiesQuery ["<a>"; "<b>"]))) as Hl
      by (by vm_compute).
    by apply list_elem_of_lookup_2 in Hl. }
  split; [done|].
  exact (fetch_events_allowed store_2500 id {[ "p" ]} ∅ empty_graph _ Hin).
Defined.


(** ** The windows of a predicate *)

Lemma windows_lookup count j :
  (j < length (windows 1000 count))%nat →
  windows 1000 count !! j = Some (Z.of_nat j * 1000, 1000).
Proof.
  unfold windows. rewrite length_fmap, length_seq. intros Hj.
  rewrite list_lookup_fmap, lookup_seq_lt by done. done.
Qed.

Lemma pages_prefix
    (endpoint : Method → Query → Fault + list Binding) (un_camel_case : string → string)
    `{mutator : GraphMutator} `{order : SetOrder}
    (predicates : gset string) (kwargs : gmap string Z) (g : Graph) (p : string) (count : Z) :
  endpoint_ok endpoint → counts_ok endpoint predicates → p ∈ predicates →
  reported endpoint p = Some count →
  let pages := edge_pages (PyStr.angle p)
                 (events (load_networkx_graph endpoint un_camel_case predicates kwargs g)) in
  pages = take (length pages) (windows 1000 count)
  ∧ length pages = length (rounds_run kwargs (range 1000 (count + 1000) 1000)).
Proof.
  intros Hok Hc Hp Hcount. cbn zeta.
  destruct (fetch_completes endpoint un_camel_case predicates kwargs g p count)
    as [_ ->]; try done.
  rewrite windows_range, !length_fmap by done.
  by rewrite <- fmap_take, <- rounds_run_take.
Qed.

(** X2.  The pages requested for a predicate are consecutive windows that
    start at offset 0: the page number [j] (from 0) is at offset [1000 * j]
    with limit 1000, whatever the keyword arguments; so no window is
    requested twice, and there are never more pages than the count asks
    for. *)
Theorem pages_are_consecutive
    (endpoint : Method → Query → Fault + list Binding) (un_camel_case : string → string)
    `{mutator : GraphMutator} `{order : SetOrder}
    (predicates : gset string) (kwargs : gmap string Z) (g : Graph) (p : string) (count : Z) :
  endpoint_ok endpoint → counts_ok endpoint predicates → p ∈ predicates →
  reported endpoint p = Some count →
  let pages := edge_pages (PyStr.angle p)
                 (events (load_networkx_graph endpoint un_camel_case predicates kwargs g)) in
  (∀ j, (j < length pages)%nat → pages !! j = Some (Z.of_nat j * 1000, 1000))
  ∧ NoDup pages
  ∧ Z.of_nat (length pages) ≤ Z.max 0 ((count + 999) / 1000).
Proof.
  intros Hok Hc Hp Hcount pages.
  destruct (pages_prefix endpoint un_camel_case predicates kwargs g p count Hok Hc Hp Hcount)
    as [Hpre Hlen].
  fold pages in Hpre, Hlen.
  assert (length pages ≤ length (windows 1000 count))%nat as Hle.
  { rewrite Hlen, windows_range, length_fmap by done. apply rounds_run_length. }
  assert (∀ j, (j < length pages)%nat → pages !! j = Some (Z.of_nat j * 1000, 1000)) as Hj.
  { intros j Hj. rewrite Hpre, lookup_take_lt by done. apply windows_lookup. lia. }
  split_and!; [done| |].
  - apply NoDup_alt. intros i j x Hi Hj'.
    pose proof (lookup_lt_Some _ _ _ Hi) as Hil. pose proof (lookup_lt_Some _ _ _ Hj') as Hjl.
    rewrite (Hj i Hil) in Hi. rewrite (Hj j Hjl) in Hj'.
    assert (Z.of_nat i * 1000 = Z.of_nat j * 1000) by congruence. lia.
  - unfold windows in Hle. rewrite length_fmap, length_seq in Hle.
    replace (count + 1000 - 1) with (count + 999) in Hle by lia. lia.
Qed.

Lemma pages_are_consecutive_witness :
  let pages := edge_pages "<p>"
                 (events (load_networkx_graph store_2500 id (mutator := spec_mutator)
                            (order := elements_order) {[ "p" ]} {[ "limit" := 1500 ]}
                            empty_graph)) in
  pages = [(0, 1000); (1000, 1000)]
  ∧ (∀ j, (j < length pages)%nat → pages !! j = Some (Z.of_nat j * 1000, 1000))
  ∧ NoDup pages
  ∧ Z.of_nat (length pages) ≤ Z.max 0 ((2500 + 999) / 1000).
Proof.
  split; [by vm_compute|].
  apply (pages_are_consecutive store_2500 id {[ "p" ]} {[ "limit" := 1500 ]} empty_graph
           "p" 2500 store_2500_ok (store_2500_counts _)).
  - set_solver.
  - reflexivity.
Defined.

(** The rounds that a limit [L ≥ 0] lets run, counted from round [b]. *)
Lemma rounds_run_count kwargs L n b :
  kwargs !! "limit" = Some L → 0 ≤ L → Z.of_nat b ≤ L / 1000 →
  length (rounds_run kwargs ((λ k : nat, 1000 + Z.of_nat k * 1000) <$> seq b n))
  = (n `min` (Z.to_nat (L / 1000) - b + 1))%nat.
Proof.
  intros Hl HL. revert b. induction n as [|n IH]; intros b Hb; [done|].
  cbn [seq fmap list_fmap rounds_run].
  assert (limit_exceeded kwargs (1000 + Z.of_nat b * 1000) = (L <? 1000 + Z.of_nat b * 1000))
    as -> by (unfold limit_exceeded; by rewrite Hl).
  pose proof (Z.mul_div_le L 1000 ltac:(lia)) as Hlo.
  pose proof (Z.mul_succ_div_gt L 1000 ltac:(lia)) as Hhi.
  destruct (Z.ltb_spec L (1000 + Z.of_nat b * 1000)) as [Hlt|Hge]; cbn [length].
  - lia.
  - rewrite (IH (S b)) by lia. lia.
Qed.

(** X3.  With a [limit] of [L ≥ 0] the number of pages requested for a
    predicate is the lesser of the number the count asks for and
    [L / 1000 + 1]: the loop leaves only after the round that passes the
    limit.  So when the count is above the limit, the windows requested reach
    past the limit: the limit is no cap on the rows that are fetched. *)
Theorem pages_under_limit
    (endpoint : Method → Query → Fault + list Binding) (un_camel_case : string → string)
    `{mutator : GraphMutator} `{order : SetOrder}
    (predicates : gset string) (kwargs : gmap string Z) (g : Graph) (p : string)
    (count L : Z) :
  endpoint_ok endpoint → counts_ok endpoint predicates → p ∈ predicates →
  reported endpoint p = Some count → kwargs !! "limit" = Some L → 0 ≤ L →
  let pages := edge_pages (PyStr.angle p)
                 (events (load_networkx_graph endpoint un_camel_case predicates kwargs g)) in
  Z.of_nat (length pages) = Z.min (Z.max 0 ((count + 999) / 1000)) (L / 1000 + 1)
  ∧ (L < count → L < 1000 * Z.of_nat (length pages)).
Proof.
  intros Hok Hc Hp Hcount Hl HL pages.
  destruct (pages_prefix endpoint un_camel_case predicates kwargs g p count Hok Hc Hp Hcount)
    as [_ Hlen].
  fold pages in Hlen. rewrite Hlen, range_rounds by done.
  rewrite (rounds_run_count kwargs L _ 0 Hl HL) by (apply Z.div_pos; lia).
  replace (count + 1000 - 1000 + 1000 - 1) with (count + 999) by lia.
  pose proof (Z.mul_div_le L 1000 ltac:(lia)) as Hlo.
  pose proof (Z.mul_succ_div_gt L 1000 ltac:(lia)) as Hhi.
  pose proof (Z.mul_div_le (count + 999) 1000 ltac:(lia)) as Hclo.
  pose proof (Z.mul_succ_div_gt (count + 999) 1000 ltac:(lia)) as Hchi.
  assert (0 ≤ L / 1000) by (apply Z.div_pos; lia).
  split; lia.
Qed.

Lemma pages_under_limit_witness :
  let pages := edge_pages "<p>"
                 (events (load_networkx_graph store_2500 id (mutator := spec_mutator)
                            (order := elements_order) {[ "p" ]} {[ "limit" := 1500 ]}
                            empty_graph)) in
  Z.of_nat (length pages) = Z.min (Z.max 0 ((2500 + 999) / 1000)) (1500 / 1000 + 1)
  ∧ (1500 < 2500 → 1500 < 1000 * Z.of_nat (length pages)).
Proof.
  apply (pages_under_limit store_2500 id {[ "p" ]} {[ "limit" := 1500 ]} empty_graph
           "p" 2500 1500 store_2500_ok (store_2500_counts _)).
  - set_solver.
  - reflexivity.
  - reflexivity.
  - lia.
Defined.

(** ** Faults and edge cases of a fetch *)

Section Faults.
Context (endpoint : Method → Query → Fault + list Binding).
Context {mutator : GraphMutator}.
Context {order : SetOrder}.

Lemma bind_run_ok {A B} (m : M A) (f : A → M B) g a g1 t1 out g2 t2 :
  m g = MkRun (Ok a) g1 t1 → f a g1 = MkRun out g2 t2 →
  (m ≫= f) g = MkRun out g2 (t1 ++ t2).
Proof.
  intros Hm Hf. rewrite (bind_ok m f g a) by by rewrite Hm. rewrite Hm. cbn. by rewrite Hf.
Qed.

Lemma bind_run_raise {A B} (m : M A) (f : A → M B) g e g1 t1 :
  m g = MkRun (Raise e) g1 t1 → (m ≫= f) g = MkRun (Raise e) g1 t1.
Proof. intros Hm. rewrite (bind_raise m f g e) by by rewrite Hm. by rewrite Hm. Qed.

Lemma set_iter_singleton (x : string) : set_iter {[ x ]} = [x].
Proof. apply Permutation_singleton_r. by rewrite set_iter_perm, elements_singleton. Qed.

Lemma set_iter_empty : set_iter ∅ = [].
Proof. apply Permutation_nil_r. by rewrite set_iter_perm, elements_empty. Qed.

Lemma read_count_fault rs e :
  count_fault (inr rs) = Some e → outcome (read_count rs empty_graph) = Raise e.
Proof.
  destruct rs as [|r rs]; cbn; [by intros [= <-]|]. unfold getitem.
  destruct (r !! "triples") as [c|]; [|by intros [= <-]]. rewrite ret_bind.
  destruct (PyStr.int (value c)); [done|by intros [= <-]].
Qed.

Lemma fetch_predicate_fault kwargs p g e :
  count_fault (endpoint GET (CountQuery (PyStr.angle p))) = Some e →
  fetch_predicate endpoint kwargs p g
  = MkRun (Raise e) g [Request GET (CountQuery (PyStr.angle p))].
Proof.
  intros Hf. unfold fetch_predicate.
  pose proof (sparql_query_run endpoint GET (CountQuery (PyStr.angle p)) g) as Hq.
  destruct (endpoint GET (CountQuery (PyStr.angle p))) as [e0|rs].
  - injection Hf as ->. by apply bind_run_raise.
  - eapply (bind_run_ok _ _ _ _ _ [_] _ _ []); [exact Hq|].
    apply bind_run_raise. rewrite read_count_pure. by rewrite (read_count_fault rs e Hf).
Qed.

Lemma fetch_predicate_first_page kwargs p g count rs :
  reported endpoint p = Some count → 0 < count →
  endpoint GET (EdgeQuery (PyStr.angle p) 0 1000) = inr rs →
  ¬ Forall row_has_nodes rs →
  ∃ k, (k = "subject" ∨ k = "object")
       ∧ fetch_predicate endpoint kwargs p g
         = MkRun (Raise (KeyError k)) g
             [Request GET (CountQuery (PyStr.angle p));
              Request GET (EdgeQuery (PyStr.angle p) 0 1000)].
Proof.
  intros Hc Hpos Hq Hbad. unfold reported in Hc.
  pose proof (sparql_query_run endpoint GET (CountQuery (PyStr.angle p)) g) as Hcq.
  destruct (endpoint GET (CountQuery (PyStr.angle p))) as [|bs]; [done|].
  destruct (outcome (read_count bs empty_graph)) as [c|] eqn:Ho; [|done].
  injection Hc as ->.
  destruct (range_first count Hpos) as [rounds Hr].
  destruct (collect_nodes_run rs g) as (out & Hrun & _ & Hout).
  assert (∃ k, (k = "subject" ∨ k = "object") ∧ out = Raise (KeyError k)) as (k & Hk & ->).
  { destruct (Hout Hbad) as [->| ->]; eauto. }
  exists k. split; [done|]. unfold fetch_predicate.
  eapply (bind_run_ok _ _ _ _ _ [_] _ _ [_]); [exact Hcq|].
  eapply (bind_run_ok _ _ _ _ _ [] _ _ [_]); [by rewrite read_count_pure, Ho|].
  cbn zeta. rewrite Hr. cbn [fetch_pages].
  eapply (bind_run_ok _ _ _ _ _ [_] _ _ []);
    [by rewrite sparql_query_run, Hq|].
  by apply bind_run_raise.
Qed.

Lemma load_one_fault un_camel_case kwargs p g e g' t :
  fetch_predicate endpoint kwargs p g = MkRun (Raise e) g' t →
  load_networkx_graph endpoint un_camel_case {[ p ]} kwargs g = MkRun (Raise e) g' t.
Proof.
  intros Hf. unfold load_networkx_graph. rewrite set_iter_singleton. cbn [for_].
  apply bind_run_raise. by apply bind_run_raise.
Qed.
End Faults.

(** X4.  When the count query of a predicate fails, or its answer has no
    row, or the first row has no [triples], or [int] refuses the value,
    the fetch of that predicate ends with that fault ([IndexError],
    [KeyError], [ValueError], or the fault of the request): the count query
    is the only request, the graph is left as it was, and [categorize] does
    not run. *)
Theorem count_fault_aborts
    (endpoint : Method → Query → Fault + list Binding) (un_camel_case : string → string)
    `{mutator : GraphMutator} `{order : SetOrder}
    (kwargs : gmap string Z) (g : Graph) (p : string) (e : Fault) :
  count_fault (endpoint GET (CountQuery (PyStr.angle p))) = Some e →
  load_networkx_graph endpoint un_camel_case {[ p ]} kwargs g
  = MkRun (Raise e) g [Request GET (CountQuery (PyStr.angle p))].
Proof. intros Hf. by apply load_one_fault, fetch_predicate_fault. Qed.

Lemma count_fault_aborts_witness :
  count_fault (store_no_count GET (CountQuery "<p>")) = Some ValueError
  ∧ load_networkx_graph store_no_count id (mutator := spec_mutator) (order := elements_order)
      {[ "p" ]} ∅ some_graph
    = MkRun (Raise ValueError) some_graph [Request GET (CountQuery "<p>")].
Proof.
  split; [reflexivity|].
  apply (count_fault_aborts store_no_count id ∅ some_graph "p" ValueError). reflexivity.
Defined.

(** X5.  When a row of the first page of a predicate has no subject or no
    object, the fetch ends with [KeyError] right after the request of that
    page: no node-attribute query is sent and no edge is added, not even for
    the rows of the page that come before the faulty one. *)
Theorem malformed_row_aborts_page
    (endpoint : Method → Query → Fault + list Binding) (un_camel_case : string → string)
    `{mutator : GraphMutator} `{order : SetOrder}
    (kwargs : gmap string Z) (g : Graph) (p : string) (count : Z) (rs : list Binding) :
  reported endpoint p = Some count → 0 < count →
  endpoint GET (EdgeQuery (PyStr.angle p) 0 1000) = inr rs →
  ¬ Forall row_has_nodes rs →
  ∃ k, (k = "subject" ∨ k = "object")
       ∧ load_networkx_graph endpoint un_camel_case {[ p ]} kwargs g
         = MkRun (Raise (KeyError k)) g
             [Request GET (CountQuery (PyStr.angle p));
              Request GET (EdgeQuery (PyStr.angle p) 0 1000)].
Proof.
  intros Hc Hpos Hq Hbad.
  destruct (fetch_predicate_first_page endpoint kwargs p g count rs Hc Hpos Hq Hbad)
    as (k & Hk & Hrun).
  exists k. split; [done|]. by apply load_one_fault.
Qed.

Lemma malformed_row_aborts_page_witness :
  ∃ k, (k = "subject" ∨ k = "object")
       ∧ load_networkx_graph store_bad_row id (mutator := spec_mutator)
           (order := elements_order) {[ "p" ]} ∅ empty_graph
         = MkRun (Raise (KeyError k)) empty_graph
             [Request GET (CountQuery "<p>"); Request GET (EdgeQuery "<p>" 0 1000)].
Proof.
  apply (malformed_row_aborts_page store_bad_row id ∅ empty_graph "p" 1
           [row "a" "p" (cell "uri" "b"); {[ "predicate" := cell "uri" "p" ]}]).
  - reflexivity.
  - lia.
  - reflexivity.
  - intros Hall. inversion Hall as [|?? _ Hrest]. inversion Hrest as [|?? [[c Hc] _] _].
    by vm_compute in Hc.
Defined.

Section EmptyPages.
Context (endpoint : Method → Query → Fault + list Binding).
Context {mutator : GraphMutator}.
Context {order : SetOrder}.
Hypothesis endpoint_rows : endpoint_ok endpoint.

Lemma batch_events_empty : batch_events endpoint ∅ = [].
Proof. unfold batch_events. by rewrite set_iter_empty. Qed.

Lemma page_events_empty a step start :
  rows endpoint GET (EdgeQuery a start step) = [] →
  page_events endpoint a step start = [Request GET (EdgeQuery a start step)].
Proof.
  intros Hrows. unfold page_events. cbn zeta. rewrite Hrows.
  change (page_nodes []) with (∅ : gset string). by rewrite batch_events_empty.
Qed.
End EmptyPages.

(** X6.  The driver does not stop at a page without rows.  When every edge
    page comes back empty, a fetch without [limit] still requests every
    window that the count of each predicate asks for; it sends no
    node-attribute query and calls the mutator not once. *)
Theorem empty_pages_are_all_requested
    (endpoint : Method → Query → Fault + list Binding) (un_camel_case : string → string)
    `{mutator : GraphMutator} `{order : SetOrder}
    (predicates : gset string) (kwargs : gmap string Z) (g : Graph) :
  endpoint_ok endpoint → counts_ok endpoint predicates →
  (∀ a offset limit, rows endpoint GET (EdgeQuery a offset limit) = []) →
  let run := load_networkx_graph endpoint un_camel_case predicates kwargs g in
  outcome run = Ok tt
  ∧ node_requests (events run) = []
  ∧ mutator_calls (events run) = []
  ∧ (∀ p count, p ∈ predicates → reported endpoint p = Some count →
       kwargs !! "limit" = None →
       edge_pages (PyStr.angle p) (events run) = windows 1000 count).
Proof.
  intros Hok Hc Hempty. cbn zeta.
  destruct (emits_load_networkx_graph endpoint Hok un_camel_case predicates kwargs Hc g)
    as [Ho He].
  split_and!; [done| | |].
  - rewrite He.
    apply (fetch_page_by_page endpoint kwargs (set_iter predicates)
             (λ t, node_requests t = [])); try done.
    + intros t1 t2 H1 H2. by rewrite node_requests_app, H1, H2.
    + intros a step start. by rewrite (page_events_empty endpoint a step start).
  - rewrite He.
    apply (fetch_page_by_page endpoint kwargs (set_iter predicates)
             (λ t, mutator_calls t = [])); try done.
    + intros t1 t2 H1 H2. unfold mutator_calls in *. by rewrite List.filter_app, H1, H2.
    + intros a step start. by rewrite (page_events_empty endpoint a step start).
  - intros p count Hp Hcount Hl.
    destruct (fetch_completes endpoint un_camel_case predicates kwargs g p count)
      as [_ ->]; try done.
    by rewrite rounds_run_no_limit, <- windows_range.
Qed.

Lemma store_empty_pages_ok : endpoint_ok store_empty_pages.
Proof. apply fixture_ok; by intros. Qed.

Lemma empty_pages_are_all_requested_witness :
  events (load_networkx_graph store_empty_pages id (mutator := spec_mutator)
            (order := elements_order) {[ "p" ]} ∅ empty_graph)
  = [Request GET (CountQuery "<p>"); Request GET (EdgeQuery "<p>" 0 1000);
     Request GET (EdgeQuery "<p>" 1000 1000); Request GET (EdgeQuery "<p>" 2000 1000)]
  ∧ node_requests (events (load_networkx_graph store_empty_pages id (mutator := spec_mutator)
                             (order := elements_order) {[ "p" ]} ∅ empty_graph)) = [].
Proof.
  split; [by vm_compute|].
  apply (empty_pages_are_all_requested store_empty_pages id (mutator := spec_mutator)
           (order := elements_order) {[ "p" ]} ∅ empty_graph store_empty_pages_ok).
  - by apply fixture_counts.
  - done.
Defined.

(** X7.  With an empty set of predicates no request is sent:
    [RedSparqlTransformer.load_networkx_graph] categorizes the graph it was
    given and nothing else, and the generic loader leaves the graph as it
    is. *)
Theorem no_predicates_no_requests
    (endpoint : Method → Query → Fault + list Binding) (un_camel_case : string → string)
    `{mutator : GraphMutator} `{order : SetOrder} (kwargs : gmap string Z) (g : Graph) :
  load_networkx_graph endpoint un_camel_case ∅ kwargs g
    = MkRun (Ok tt) (categorize_graph un_camel_case g) []
  ∧ SparqlTransformer.load_networkx_graph endpoint ∅ g = MkRun (Ok tt) g [].
Proof.
  unfold load_networkx_graph, SparqlTransformer.load_networkx_graph.
  by rewrite set_iter_empty.
Qed.


(** ** The dict of a chunk *)

Lemma dict_get_set_eq {V} k (v : V) d : dict_get k (dict_set k v d) = Some v.
Proof.
  induction d as [|[k' v'] d IH]; cbn; [by rewrite String.eqb_refl|].
  destruct (String.eqb_spec k k') as [->|Hne]; cbn.
  - by rewrite String.eqb_refl.
  - by rewrite (proj2 (String.eqb_neq k k') Hne).
Qed.

Lemma dict_get_set_ne {V} k k' (v : V) d :
  k ≠ k' → dict_get k' (dict_set k v d) = dict_get k' d.
Proof.
  intros Hne. induction d as [|[k0 v0] d IH]; cbn.
  - by rewrite (proj2 (String.eqb_neq k' k)) by done.
  - destruct (String.eqb_spec k k0) as [->|Hne0]; cbn.
    + by rewrite !(proj2 (String.eqb_neq k' k0)) by done.
    + by rewrite IH.
Qed.

Lemma dict_set_keys {V} k (v : V) d :
  (dict_set k v d).*1 = if decide (k ∈ d.*1) then d.*1 else d.*1 ++ [k].
Proof.
  induction d as [|[k0 v0] d IH]; [done|]. cbn.
  destruct (String.eqb_spec k k0) as [->|Hne]; cbn.
  - by rewrite decide_True by by left.
  - rewrite IH. destruct (decide (k ∈ d.*1)) as [Hin|Hout].
    + by rewrite decide_True by by right.
    + rewrite decide_False; [done|]. by intros [?|?]%elem_of_cons.
Qed.

Lemma dict_set_NoDup {V} k (v : V) d : NoDup d.*1 → NoDup (dict_set k v d).*1.
Proof.
  intros Hnd. rewrite dict_set_keys. case_decide; [done|].
  apply NoDup_app. split_and!; [done| |apply NoDup_singleton].
  by intros x Hx ->%list_elem_of_singleton.
Qed.

Lemma dict_set_fresh {V} k (v : V) d : k ∉ d.*1 → dict_set k v d = d ++ [(k, v)].
Proof.
  induction d as [|[k0 v0] d IH]; [done|]. cbn. intros Hout.
  destruct (String.eqb_spec k k0) as [->|Hne]; [destruct Hout; by left|].
  rewrite IH; [done|]. intros ?. apply Hout. by right.
Qed.

Lemma dict_elem_get {V} k (v : V) d : NoDup d.*1 → (k, v) ∈ d → dict_get k d = Some v.
Proof.
  induction d as [|[k0 v0] d IH]; cbn; [by intros _ ?%elem_of_nil|].
  intros [Hout Hnd]%NoDup_cons [[= -> ->]|Hin]%elem_of_cons.
  - by rewrite String.eqb_refl.
  - destruct (String.eqb_spec k k0) as [->|_]; [|by apply IH].
    destruct Hout. apply list_elem_of_fmap. by exists (k0, v).
Qed.

Lemma dict_set_Forall {V} (P : string * V → Prop) k v d :
  P (k, v) → Forall P d → Forall P (dict_set k v d).
Proof.
  intros Hkv. induction 1 as [|[k0 v0] d H0 Hd IH]; cbn; [by constructor|].
  destruct (String.eqb k k0); by constructor.
Qed.

Section LastWrite.
Context {mutator : GraphMutator}.

Lemma dict_wf_inner d n attrs : dict_wf d → dict_get n d = Some attrs → NoDup attrs.*1.
Proof.
  intros [_ Hall] Hget%dict_get_elem. rewrite Forall_forall in Hall.
  apply (Hall (n, attrs) Hget).
Qed.

(** One recorded row: the dict stays well-formed and reads as before but
    for the written key. *)
Lemma record_write d s key val :
  dict_wf d →
  let d0 := match dict_get s d with
            | None => dict_set s [] d
            | Some _ => d
            end in
  let d' := dict_set s (dict_set key val (default [] (dict_get s d0))) d0 in
  dict_wf d'
  ∧ ∀ n k, lookup2 d' n k
           = if String.eqb s n && String.eqb key k then Some val else lookup2 d n k.
Proof.
  intros Hwf. cbn zeta.
  set (d0 := match dict_get s d with None => dict_set s [] d | Some _ => d end).
  assert (dict_wf d0 ∧ ∀ n k, lookup2 d0 n k = lookup2 d n k) as [Hwf0 Hsame].
  { subst d0. destruct (dict_get s d) as [attrs|] eqn:Hget; [done|]. split.
    - destruct Hwf as [Hnd Hall]. split; [by apply dict_set_NoDup|].
      apply dict_set_Forall; [apply NoDup_nil_2|done].
    - intros n k. unfold lookup2. destruct (String.eqb_spec s n) as [->|Hne].
      + by rewrite dict_get_set_eq, Hget.
      + by rewrite dict_get_set_ne. }
  clearbody d0. clear Hwf. split.
  - destruct Hwf0 as [Hnd Hall]. split; [by apply dict_set_NoDup|].
    apply dict_set_Forall; [|done]. cbn. apply dict_set_NoDup.
    destruct (dict_get s d0) as [attrs|] eqn:Hget; [|apply NoDup_nil_2].
    by apply (dict_wf_inner d0 s).
  - intros n k. rewrite <- Hsame. unfold lookup2.
    destruct (String.eqb_spec s n) as [->|Hne]; cbn [andb].
    + rewrite dict_get_set_eq. cbn.
      destruct (String.eqb_spec key k) as [->|Hnek].
      * apply dict_get_set_eq.
      * rewrite dict_get_set_ne by done. by destruct (dict_get n d0).
    + by rewrite dict_get_set_ne.
Qed.

Lemma record_binding_lookup d r g d' :
  dict_wf d → outcome (record_binding d r g) = Ok d' →
  dict_wf d' ∧ ∀ n k, lookup2 d' n k = attribute_step n k (lookup2 d n k) r.
Proof.
  intros Hwf. rewrite record_binding_run. cbn [outcome]. unfold attribute_step.
  destruct (r !! "object") as [o|]; [|done].
  destruct (negb (String.eqb (type o) "bnode")) eqn:Hb.
  - destruct (r !! "subject") as [s|]; [|done].
    destruct (r !! "predicate") as [p|]; [|done].
    intros [= <-].
    destruct (record_write d (value s) (attribute_key (value p)) (value o) Hwf) as [Hwf' Hl].
    split; [done|]. intros n k. rewrite Hl. by rewrite andb_true_l.
  - intros [= <-]. split; [done|]. intros n k.
    by destruct (r !! "subject"), (r !! "predicate").
Qed.

Lemma record_fold_lookup rs d g d' :
  dict_wf d → outcome (for_fold rs d record_binding g) = Ok d' →
  dict_wf d' ∧ ∀ n k, lookup2 d' n k = foldl (attribute_step n k) (lookup2 d n k) rs.
Proof.
  revert d. induction rs as [|r rs IH]; intros d Hwf; cbn [for_fold foldl].
  - by intros [= <-].
  - pose proof (record_binding_run d r g) as Hrun.
    destruct (outcome (record_binding d r g)) as [d1|e] eqn:Ho.
    + pose proof (pure_run_outcome _ _ _ _ Hrun Ho) as Hrun1.
      rewrite (bind_pure_ok _ _ _ _ Hrun1). intros Hfold.
      destruct (record_binding_lookup d r g d1 Hwf Ho) as [Hwf1 Hl1].
      destruct (IH d1 Hwf1 Hfold) as [Hwf' Hl']. split; [done|].
      intros n k. by rewrite Hl', Hl1.
    + by rewrite (bind_raise _ _ _ _ Ho).
Qed.

Lemma flush_calls d :
  add_node_attribute_calls (flush_events d)
  = d ≫= λ '(n, attrs), (λ '(k, v), (n, k, v)) <$> attrs.
Proof.
  unfold flush_events, add_node_attribute_calls.
  induction d as [|[n attrs] d IH]; [done|].
  cbn [flat_map]. rewrite omap_app, IH. cbn. f_equal.
  clear IH. induction attrs as [|[k v] attrs IH]; [done|]. cbn. by rewrite IH.
Qed.

Lemma flush_calls_elem d n k v :
  dict_wf d →
  (n, k, v) ∈ add_node_attribute_calls (flush_events d) ↔ lookup2 d n k = Some v.
Proof.
  intros Hwf. rewrite flush_calls, list_elem_of_bind. unfold lookup2. split.
  - intros ([n' attrs] & Hin & Hd). apply list_elem_of_fmap in Hin as ([k' v'] & [= -> -> ->] & Hkv).
    rewrite (dict_elem_get n' attrs d) by (by destruct Hwf). cbn.
    apply dict_elem_get; [|done]. apply (dict_wf_inner d n' attrs Hwf).
    apply dict_elem_get; [by destruct Hwf|done].
  - destruct (dict_get n d) as [attrs|] eqn:Hget; [|done]. cbn. intros Hk.
    exists (n, attrs). split; [|by apply dict_get_elem].
    apply list_elem_of_fmap. exists (k, v). split; [done|by apply dict_get_elem].
Qed.

Lemma flush_calls_NoDup d : dict_wf d → NoDup (add_node_attribute_calls (flush_events d)).
Proof.
  intros Hwf. rewrite flush_calls. apply NoDup_bind.
  - intros [n1 a1] [n2 a2] [[n k] v] H1 H2.
    intros ([k1 v1] & [= -> -> ->] & Hin1)%list_elem_of_fmap.
    intros ([k2 v2] & [= -> -> ->] & Hin2)%list_elem_of_fmap.
    f_equal. destruct Hwf as [Hnd _].
    pose proof (dict_elem_get _ _ _ Hnd H1). pose proof (dict_elem_get _ _ _ Hnd H2).
    congruence.
  - intros [n attrs] Hin. apply NoDup_fmap_2_strong.
    + intros [k1 v1] [k2 v2] _ _ [= -> ->]. done.
    + destruct Hwf as [Hnd Hall]. rewrite Forall_forall in Hall.
      specialize (Hall _ Hin). cbn in Hall. by apply NoDup_fmap_1 in Hall.
  - destruct Hwf as [Hnd _]. by apply NoDup_fmap_1 in Hnd.
Qed.

Lemma last_attribute_fold rs n k : last_attribute rs n k = foldl (attribute_step n k) None rs.
Proof. done. Qed.
End LastWrite.

(** X8.  Within the rows of one chunk a later row overwrites an earlier one
    for the same node and key: [load_nodes] calls [add_node_attribute(n, k,
    v)] for the rows of a well-formed answer exactly when [v] is the object of
    the last row about [n] and [k] that is not a blank node, and it makes no
    call twice, so each node and key of the chunk gets one call at most. *)
Theorem last_row_wins `{mutator : GraphMutator} (rs : list Binding) (g : Graph) :
  Forall row_ok rs →
  let calls := add_node_attribute_calls (events (record_attributes rs g)) in
  outcome (record_attributes rs g) = Ok tt
  ∧ (∀ n k v, (n, k, v) ∈ calls ↔ last_attribute rs n k = Some v)
  ∧ NoDup calls
  ∧ (∀ n k v v', (n, k, v) ∈ calls → (n, k, v') ∈ calls → v = v').
Proof.
  intros Hrs. cbn zeta.
  destruct (emits_record_attributes rs Hrs) as (d & Hfold & Hrun).
  destruct (Hrun g) as [Ho ->]. destruct (Hfold g) as [Hod _].
  assert (dict_wf []) as Hnil by (split; [apply NoDup_nil_2|constructor]).
  destruct (record_fold_lookup rs [] g d Hnil Hod) as [Hwf Hl].
  assert (∀ n k v, (n, k, v) ∈ add_node_attribute_calls (flush_events d)
                   ↔ last_attribute rs n k = Some v) as Hiff.
  { intros n k v. rewrite (flush_calls_elem d n k v Hwf), Hl. done. }
  split_and!; [done|done|by apply flush_calls_NoDup|].
  intros n k v v' H1%Hiff H2%Hiff. congruence.
Qed.

Lemma last_row_wins_witness :
  let calls := add_node_attribute_calls
                 (events (record_attributes (mutator := spec_mutator) rows_overwrite
                            empty_graph)) in
  calls = [("a", "name", "Alice"); ("b", "name", "Bob")]
  ∧ (∀ n k v, (n, k, v) ∈ calls ↔ last_attribute rows_overwrite n k = Some v)
  ∧ NoDup calls.
Proof.
  intros calls. split; [by vm_compute|].
  destruct (last_row_wins (mutator := spec_mutator) rows_overwrite empty_graph)
    as (_ & H1 & H2 & _); [|by split].
  repeat constructor; apply row_ok_row.
Defined.

(** ** Attribute keys and categories *)

Lemma split_no_sep x : mentions ":" x = false → PyStr.split ":" x = [x].
Proof.
  induction x as [|c x IH]; [done|]. cbn [mentions PyStr.split].
  destruct (Ascii.eqb c ":"); [done|]. cbn. intros Hx. by rewrite (IH Hx).
Qed.

Lemma split_at_sep x y :
  mentions ":" x = false →
  PyStr.split ":" (String.append x (String ":" y)) = x :: PyStr.split ":" y.
Proof.
  induction x as [|c x IH]; [done|]. intros Hx. cbn [mentions] in Hx.
  apply orb_false_elim in Hx as [Hc Hx].
  change (String.append (String c x) (String ":" y))
    with (String c (String.append x (String ":" y))).
  cbn [PyStr.split]. by rewrite Hc, (IH Hx).
Qed.

Lemma attribute_key_local x :
  mentions ":" x = false →
  attribute_key (String.append "bl:" x) = x
  ∧ ∀ y, attribute_key (String.append "bl:" (String.append x (String ":" y))) = x.
Proof.
  intros Hx. unfold attribute_key. split; [|intros y].
  - change (PyStr.startswith "bl:" (String.append "bl:" x)) with true. cbn match.
    change (PyStr.split ":" (String.append "bl:" x)) with ("bl" :: PyStr.split ":" x).
    by rewrite split_no_sep.
  - change (PyStr.startswith "bl:" (String.append "bl:" ?s)) with true. cbn match.
    change (PyStr.split ":" (String.append "bl:" ?s)) with ("bl" :: PyStr.split ":" s).
    by rewrite split_at_sep.
Qed.

Lemma record_one_row `{mutator : GraphMutator} r s p o g :
  r !! "subject" = Some s → r !! "predicate" = Some p → r !! "object" = Some o →
  type o ≠ "bnode" →
  events (record_attributes [r] g)
  = [AddNodeAttribute (value s) (attribute_key (value p)) (value o)].
Proof.
  intros Hs Hp Ho Hty. unfold record_attributes.
  pose proof (record_binding_run [] r g) as Hrun. rewrite Hs, Hp, Ho in Hrun.
  rewrite (proj2 (String.eqb_neq _ _) Hty) in Hrun. cbn in Hrun.
  rewrite String.eqb_refl in Hrun. cbn in Hrun.
  rewrite (bind_pure_ok (for_fold [r] [] record_binding) flush g
             [(value s, [(attribute_key (value p), value o)])]).
  - by destruct (emits_flush [(value s, [(attribute_key (value p), value o)])] g) as [_ ->].
  - cbn [for_fold]. by rewrite (bind_pure_ok _ _ _ _ Hrun).
Qed.

(** X9.  The key under which [load_nodes] records a row: a predicate that
    does not start with [bl:] is the key as it is; of a predicate [bl:x] the
    key is [x]; and of a predicate [bl:x:y] the key is [x] too, for
    [split(':')[1]] drops whatever follows a second colon. *)
Theorem attribute_key_of_row `{mutator : GraphMutator} (s x y : string) (o : Term) (g : Graph) :
  type o ≠ "bnode" → mentions ":" x = false →
  events (record_attributes [row s (String.append "bl:" x) o] g)
    = [AddNodeAttribute s x (value o)]
  ∧ events (record_attributes [row s (String.append "bl:" (String.append x (String ":" y))) o] g)
    = [AddNodeAttribute s x (value o)]
  ∧ ∀ p, PyStr.startswith "bl:" p = false →
         events (record_attributes [row s p o] g) = [AddNodeAttribute s p (value o)].
Proof.
  intros Hty Hx. destruct (attribute_key_local x Hx) as [H1 H2]. split_and!.
  - destruct (row_lookup s (String.append "bl:" x) o) as (Hs & Hp & Ho).
    rewrite (record_one_row _ _ _ _ g Hs Hp Ho Hty). cbn [value cell]. by rewrite H1.
  - destruct (row_lookup s (String.append "bl:" (String.append x (String ":" y))) o)
      as (Hs & Hp & Ho).
    rewrite (record_one_row _ _ _ _ g Hs Hp Ho Hty). cbn [value cell]. by rewrite H2.
  - intros p Hbl. destruct (row_lookup s p o) as (Hs & Hp & Ho).
    rewrite (record_one_row _ _ _ _ g Hs Hp Ho Hty). cbn [value cell].
    unfold attribute_key. by rewrite Hbl.
Qed.

Lemma attribute_key_of_row_witness :
  events (record_attributes (mutator := spec_mutator)
            [row "n" "bl:name:en" (cell "literal" "Alice")] empty_graph)
  = [AddNodeAttribute "n" "name" "Alice"].
Proof.
  destruct (attribute_key_of_row (mutator := spec_mutator) "n" "name" "en"
              (cell "literal" "Alice") empty_graph) as (_ & H & _); [done|done|exact H].
Defined.

Lemma delete_all_no_colon x :
  mentions ":" x = false → PyStr.delete_all "biolink:" x = x.
Proof.
  unfold PyStr.delete_all. induction x as [|c x IH]; [done|]. intros Hx.
  cbn [PyStr.delete_all_from].
  destruct (PyStr.startswith "biolink:" (String c x)) eqn:Hpre.
  - apply startswith_prefix in Hpre as [rest Heq]. rewrite Heq in Hx. done.
  - f_equal. apply IH. cbn [mentions] in Hx. by apply orb_false_elim in Hx as [_ ?].
Qed.

(** X10.  A node without [category] whose [type] is [biolink:] followed by
    a name without colon gets as category [un_camel_case] of that name: the
    prefix is removed before the name is converted, and the other attributes
    of the node stay. *)
Theorem category_from_type (un_camel_case : string → string) (g : Graph)
    (n x : string) (data : gmap string string) :
  nodes g !! n = Some data → data !! "category" = None →
  data !! "type" = Some (String.append "biolink:" x) → mentions ":" x = false →
  nodes (graph (categorize un_camel_case g)) !! n
  = Some (<["category" := un_camel_case x]> data).
Proof.
  intros Hn Hc Ht Hx. cbn [graph categorize nodes categorize_graph].
  rewrite lookup_fmap, Hn. cbn. unfold categorize_data. rewrite Hc, Ht.
  change (PyStr.delete_all "biolink:" (String.append "biolink:" x))
    with (PyStr.delete_all "biolink:" x).
  by rewrite delete_all_no_colon.
Qed.

Lemma category_from_type_witness :
  nodes (graph (categorize id some_graph)) !! "n1"
  = Some (<["category" := "GeneProduct"]> {[ "type" := "biolink:GeneProduct" ]}).
Proof.
  apply (category_from_type id some_graph "n1" "GeneProduct"); by vm_compute.
Defined.

(** X11.  [categorize] keeps the nodes and the edges of the graph, and
    every attribute of every node other than [category]; it sends nothing
    and does not fail. *)
Theorem categorize_frame (un_camel_case : string → string) (g : Graph) :
  outcome (categorize un_camel_case g) = Ok tt
  ∧ events (categorize un_camel_case g) = []
  ∧ edges (graph (categorize un_camel_case g)) = edges g
  ∧ dom (nodes (graph (categorize un_camel_case g))) = dom (nodes g)
  ∧ ∀ n data', nodes (graph (categorize un_camel_case g)) !! n = Some data' →
      ∃ data, nodes g !! n = Some data
              ∧ ∀ k, k ≠ "category" → data' !! k = data !! k.
Proof.
  split_and!; [done|done|done|apply dom_fmap_L|].
  intros n data'. cbn [graph categorize nodes categorize_graph].
  intros (data & <- & Hn)%lookup_fmap_Some. exists data. split; [done|].
  intros k Hk. unfold categorize_data.
  destruct (data !! "category"); [done|]. destruct (data !! "type"); [|done].
  by rewrite lookup_insert_ne.
Qed.

(** ** Tuples *)

Lemma zip_longest_shared_fillers fuel n it i t :
  None ∉ it → (S i < length (zip_longest_shared fuel n None it))%nat →
  zip_longest_shared fuel n None it !! i = Some t → None ∉ t.
Proof.
  revert it i. induction fuel as [|fuel IH]; intros it i Hit; [destruct it; cbn; lia|].
  destruct it as [|x it]; [cbn; lia|].
  change (zip_longest_shared (S fuel) n None (x :: it))
    with ((take n (x :: it) ++ replicate (n - length (x :: it)) None)
            :: zip_longest_shared fuel n None (drop n (x :: it))).
  cbn [length]. intros Hlen. destruct i as [|i]; cbn [lookup list_lookup].
  - intros [= <-].
    assert (drop n (x :: it) ≠ []) as Hdrop.
    { intros Heq. rewrite Heq in Hlen. destruct fuel; cbn in Hlen; lia. }
    assert (n < S (length it))%nat as Hn.
    { destruct (decide (n < S (length it))%nat); [done|].
      destruct Hdrop. apply drop_ge. cbn. lia. }
    replace (n - S (length it))%nat with 0%nat by lia. rewrite app_nil_r.
    intros Hin. apply Hit. by apply (subseteq_take n (x :: it)).
  - apply IH; [|lia]. intros Hin. apply Hit. by apply (subseteq_drop n (x :: it)).
Qed.

(** X12.  [_grouper] with a positive size [n] and the filler [None]: every
    tuple has [n] places; the number [k] of tuples is the least with
    [length l ≤ k * n]; only the last tuple holds fillers; and the tuples
    without their fillers, one after the other, are the non-empty items in
    their order, so that no item is lost and none comes twice.  With [n = 0]
    there is no tuple. *)
Theorem grouper_partitions (l : list string) (n : nat) :
  _grouper l 0 None = []
  ∧ ((0 < n)%nat →
     let tuples := _grouper l n None in
     Forall (λ t, length t = n) tuples
     ∧ (length l ≤ length tuples * n)%nat ∧ (length tuples * n < length l + n)%nat
     ∧ (∀ i t, (S i < length tuples)%nat → tuples !! i = Some t → None ∉ t)
     ∧ concat (values_clause <$> tuples) = List.filter nonempty l).
Proof.
  split; [done|]. intros Hn. cbn zeta.
  destruct (grouper_length l n None Hn) as [H1 H2]. split_and!; [|done|done| |].
  - unfold _grouper. destruct n; [lia|]. apply zip_longest_shared_tuple.
  - unfold _grouper. destruct n; [lia|]. intros i t. apply zip_longest_shared_fillers.
    by intros (? & ? & ?)%list_elem_of_fmap.
  - by apply grouper_values.
Qed.

Lemma grouper_partitions_witness :
  let tuples := _grouper ["a"; "b"; "c"; "d"; "e"] 2 None in
  tuples = [[Some "a"; Some "b"]; [Some "c"; Some "d"]; [Some "e"; None]]
  ∧ Forall (λ t, length t = 2%nat) tuples
  ∧ concat (values_clause <$> tuples) = ["a"; "b"; "c"; "d"; "e"].
Proof.
  intros tuples. split; [by vm_compute|].
  destruct (grouper_partitions ["a"; "b"; "c"; "d"; "e"] 2) as [_ H].
  destruct (H ltac:(lia)) as (H1 & _ & _ & _ & H2). by split.
Defined.

(** ** The generic loader and the filters *)

Lemma requests_app t1 t2 : requests (t1 ++ t2) = requests t1 ++ requests t2.
Proof. apply omap_app. Qed.

Lemma routed_requests rs : requests (flat_map routed rs) = [].
Proof.
  induction rs as [|r rs IH]; [done|]. cbn [flat_map]. rewrite requests_app, IH.
  unfold routed. destruct (r !! "subject"), (r !! "predicate"), (r !! "object"); try done.
  by destruct (String.eqb (type _) "literal").
Qed.

(** X13.  The generic loader does not paginate: against an endpoint that
    answers with well-formed rows it sends one GET of the generic edge query
    per predicate, for the predicate in angle brackets, and no other
    request. *)
Theorem one_query_per_predicate
    (endpoint : Method → Query → Fault + list Binding)
    `{mutator : GraphMutator} `{order : SetOrder} (predicates : gset string) (g : Graph) :
  endpoint_ok endpoint →
  let run := SparqlTransformer.load_networkx_graph endpoint predicates g in
  outcome run = Ok tt
  ∧ requests (events run)
    = (λ p, (GET, GenericEdgeQuery (PyStr.angle p))) <$> set_iter predicates
  ∧ length (requests (events run)) = size predicates.
Proof.
  intros Hok. cbn zeta.
  destruct (emits_generic_load endpoint predicates Hok g) as [Ho ->].
  assert (∀ l : list string,
            requests (flat_map (λ p, Request GET (GenericEdgeQuery (PyStr.angle p))
                        :: flat_map routed (rows endpoint GET (GenericEdgeQuery (PyStr.angle p)))) l)
            = (λ p, (GET, GenericEdgeQuery (PyStr.angle p))) <$> l) as Hreq.
  { induction l as [|p l IH]; [done|]. cbn [flat_map].
    rewrite requests_app, IH. cbn [fmap list_fmap]. rewrite <- (app_nil_l (_ <$> l)) at 2.
    rewrite app_comm_cons. f_equal.
    change (requests (?e :: ?t)) with (requests [e] ++ requests t).
    by rewrite routed_requests. }
  rewrite Hreq, length_fmap. split_and!; [done|done|].
  by rewrite set_iter_perm.
Qed.

Lemma store_literal_ok : endpoint_ok store_literal.
Proof. apply fixture_ok; intros; repeat constructor; apply row_ok_row. Qed.

Lemma one_query_per_predicate_witness :
  length (requests (events (SparqlTransformer.load_networkx_graph store_literal
                              (mutator := spec_mutator) (order := elements_order)
                              {[ "P"; "Q" ]} empty_graph)))
  = size ({[ "P"; "Q" ]} : gset string).
Proof.
  apply (one_query_per_predicate store_literal (mutator := spec_mutator)
           (order := elements_order) {[ "P"; "Q" ]} empty_graph store_literal_ok).
Defined.

Lemma get_filters_from {V} (acc filters : dict V) :
  NoDup (acc ++ filters).*1 →
  foldl (λ d '(k, v), dict_set k v d) acc filters = acc ++ filters.
Proof.
  revert acc. induction filters as [|[k v] filters IH]; intros acc Hnd; cbn [foldl].
  - by rewrite app_nil_r.
  - rewrite dict_set_fresh.
    + rewrite IH; rewrite <- app_assoc; done.
    + rewrite fmap_app in Hnd. apply NoDup_app in Hnd as (_ & Hdisj & _).
      intros Hin. apply (Hdisj k Hin). by left.
Qed.

(** X14.  [get_filters] gives back a dict with the items of [self.filters],
    key for key and in the same order. *)
Theorem get_filters_copies {V} (filters : dict V) :
  NoDup filters.*1 → SparqlTransformer.get_filters filters = filters.
Proof. intros Hnd. unfold SparqlTransformer.get_filters. by rewrite get_filters_from. Qed.

Lemma get_filters_copies_witness :
  SparqlTransformer.get_filters [("subject_category", "gene"); ("object_category", "disease")]
  = [("subject_category", "gene"); ("object_category", "disease")].
Proof.
  apply get_filters_copies. apply NoDup_cons. split; [|apply NoDup_singleton].
  by intros [=]%list_elem_of_singleton.
Defined.

(** X15.  On the same rows the two loaders differ exactly by the literals:
    the row loop of [RedSparqlTransformer] adds an edge for every row, the
    generic loader turns the rows with a literal object into node
    attributes; their calls of the mutator are the same when no row has a
    literal object, and only then. *)
Theorem loaders_differ_on_literals `{mutator : GraphMutator} (rs : list Binding) (g : Graph) :
  Forall row_ok rs →
  events (for_ rs add_edge_of g) = edge_events rs
  ∧ events (for_ rs SparqlTransformer.load_row g) = flat_map routed rs
  ∧ (events (for_ rs SparqlTransformer.load_row g) = events (for_ rs add_edge_of g)
     ↔ Forall (λ r, is_literal r = false) rs).
Proof.
  intros Hrs.
  assert (emits (for_ rs add_edge_of) tt (edge_events rs)) as He.
  { unfold edge_events. apply emits_for_. intros r Hr.
    rewrite Forall_forall in Hrs. destruct (Hrs r Hr) as ([s Hs] & [p Hp] & [o Ho]).
    unfold add_edge_of, triple. rewrite Hs, Hp, Ho. cbn.
    run_getitem Hs. run_getitem Hp. run_getitem Ho. apply emits_add_edge. }
  assert (emits (for_ rs SparqlTransformer.load_row) tt (flat_map routed rs)) as Hg.
  { apply emits_for_. intros r Hr. apply emits_load_row.
    rewrite Forall_forall in Hrs. by apply Hrs. }
  destruct (He g) as [_ ->]. destruct (Hg g) as [_ ->]. split_and!; [done|done|].
  clear He Hg. unfold edge_events.
  induction Hrs as [|r rs ([s Hs] & [p Hp] & [o Ho]) Hrs IH].
  - split; [constructor|done].
  - cbn [flat_map]. rewrite Forall_cons.
    assert (routed r = if String.eqb (type o) "literal"
                       then [AddNodeAttribute (value s) (value p) (value o)]
                       else [AddEdge (value s) (value o) (value p)]) as ->
      by (unfold routed; by rewrite Hs, Hp, Ho).
    assert (match triple r with
            | Some (s0, p0, o0) => [AddEdge s0 o0 p0]
            | None => []
            end = [AddEdge (value s) (value o) (value p)]) as ->
      by (unfold triple; by rewrite Hs, Hp, Ho).
    assert (is_literal r = String.eqb (type o) "literal") as ->
      by (unfold is_literal; by rewrite Ho).
    destruct (String.eqb (type o) "literal"); cbn.
    + split; [done|by intros [? _]].
    + rewrite <- IH. split; [by intros [= ->]|by intros [_ ->]].
Qed.

Lemma loaders_differ_on_literals_witness :
  events (for_ [row "S" "P" (cell "literal" "42")]
            (SparqlTransformer.load_row (mutator := spec_mutator)) empty_graph)
    = [AddNodeAttribute "S" "P" "42"]
  ∧ events (for_ [row "S" "P" (cell "literal" "42")]
              (add_edge_of (mutator := spec_mutator)) empty_graph)
    = [AddEdge "S" "42" "P"].
Proof.
  destruct (loaders_differ_on_literals (mutator := spec_mutator)
              [row "S" "P" (cell "literal" "42")] empty_graph) as (H1 & H2 & _).
  { repeat constructor; apply row_ok_row. }
  rewrite H1, H2. by vm_compute.
Defined.

(** ** Chunk after chunk *)

Lemma add_node_attribute_calls_app t1 t2 :
  add_node_attribute_calls (t1 ++ t2)
  = add_node_attribute_calls t1 ++ add_node_attribute_calls t2.
Proof. apply omap_app. Qed.

Lemma flat_map_fmap {A B C} (f : B → C) (h : A → list B) (l : list A) :
  f <$> flat_map h l = flat_map (λ x, f <$> h x) l.
Proof. induction l as [|x l IH]; [done|]. cbn. by rewrite fmap_app, IH. Qed.

Lemma flat_map_elem {A B} (h : A → list B) (l : list A) (b : B) :
  b ∈ flat_map h l ↔ ∃ x, x ∈ l ∧ b ∈ h x.
Proof.
  rewrite list_elem_of_In, in_flat_map. setoid_rewrite list_elem_of_In. done.
Qed.

(** Lists that are filed under keys of disjoint lists have no element in
    common. *)
Lemma NoDup_flat_map_keyed {A B K} (h : A → list B) (vals : A → list K) (key : B → K)
    (l : list A) :
  NoDup (concat (vals <$> l)) →
  (∀ x b, x ∈ l → b ∈ h x → key b ∈ vals x) →
  (∀ x, x ∈ l → NoDup (h x)) →
  NoDup (flat_map h l).
Proof.
  induction l as [|x l IH]; intros Hnd Hkey Hh; [constructor|].
  rewrite fmap_cons, concat_cons in Hnd. apply NoDup_app in Hnd as (_ & Hdis & Hnd).
  cbn [flat_map]. apply NoDup_app. split_and!.
  - apply Hh. by left.
  - intros b Hb (y & Hy & Hby)%flat_map_elem.
    apply (Hdis (key b)); [apply Hkey; [by left|done]|].
    rewrite list_elem_of_In, in_concat. exists (vals y). rewrite <- !list_elem_of_In.
    split; [by apply list_elem_of_fmap_2|]. apply Hkey; [by right|done].
  - apply IH; [done|..]; intros; [apply Hkey|apply Hh]; try done; by right.
Qed.

(** A value that the rows give to a node comes from a row about it. *)
Lemma attribute_step_subject n k rs acc v :
  foldl (attribute_step n k) acc rs = Some v →
  acc = Some v ∨ ∃ r s, r ∈ rs ∧ r !! "subject" = Some s ∧ value s = n.
Proof.
  revert acc. induction rs as [|r rs IH]; intros acc; cbn [foldl]; [by left|].
  intros [Hacc|(r' & s & Hin & Hs & Hn)]%IH.
  - unfold attribute_step in Hacc.
    destruct (r !! "subject") as [s|] eqn:Hs; [|by left].
    destruct (r !! "predicate") as [p|]; [|by left].
    destruct (r !! "object") as [o|]; [|by left].
    destruct (negb (String.eqb (type o) "bnode")); [|by left].
    destruct (String.eqb_spec (value s) n) as [Hn|]; [|by left].
    destruct (String.eqb (attribute_key (value p)) k); [|by left].
    right. exists r, s. split_and!; [by left|done|done].
  - right. exists r', s. split_and!; [by right|done|done].
Qed.

Lemma NoDup_list_filter {A} (f : A → bool) (l : list A) : NoDup l → NoDup (List.filter f l).
Proof.
  induction 1 as [|x l Hx _ IH]; cbn; [constructor|].
  destruct (f x); [|done]. constructor; [|done].
  rewrite list_elem_of_In, List.filter_In, <- list_elem_of_In. naive_solver.
Qed.

Section Chunks.
Context (endpoint : Method → Query → Fault + list Binding).
Context {mutator : GraphMutator}.
Context {order : SetOrder}.
Hypothesis endpoint_rows : endpoint_ok endpoint.

(** The calls of one tuple: what the last rows of the answer to its query
    say, each node and key once. *)
Lemma chunk_calls nodes :
  let rs := rows endpoint POST (NodePropertiesQuery (values_clause nodes)) in
  let calls := add_node_attribute_calls (chunk_events endpoint nodes) in
  (∀ n k v, (n, k, v) ∈ calls ↔ last_attribute rs n k = Some v)
  ∧ NoDup (written <$> calls).
Proof.
  intros rs calls.
  destruct endpoint_rows as (_ & Hnodes & _).
  destruct (rows_answer _ _ _ (Hnodes (values_clause nodes))) as [Hq Hrs].
  fold rs in Hq, Hrs.
  destruct (emits_record_attributes rs Hrs) as (d & Hfold & Hd).
  assert (emits (load_chunk endpoint nodes) tt
            ([Request POST (NodePropertiesQuery (values_clause nodes))] ++ flush_events d))
    as Hchunk.
  { unfold load_chunk.
    eapply emits_pure; [apply emits_join_items, filter_None_no_filler|].
    eapply emits_bind; [by apply emits_sparql_query|done]. }
  assert (calls = add_node_attribute_calls (flush_events d)) as ->.
  { unfold calls, chunk_events. by destruct (Hchunk empty_graph) as [_ ->]. }
  destruct (Hfold empty_graph) as [Hod _].
  assert (dict_wf []) as Hnil by (split; [apply NoDup_nil_2|constructor]).
  destruct (record_fold_lookup rs [] empty_graph d Hnil Hod) as [Hwf Hl].
  assert (∀ n k v, (n, k, v) ∈ add_node_attribute_calls (flush_events d)
                   ↔ last_attribute rs n k = Some v) as Hiff.
  { intros n k v. rewrite (flush_calls_elem d n k v Hwf), Hl. done. }
  split; [done|].
  apply NoDup_fmap_2_strong; [|by apply flush_calls_NoDup].
  intros [[n k] v] [[n' k'] v'] H1%Hiff H2%Hiff [= <- <-]. congruence.
Qed.

Lemma batch_calls node_set :
  add_node_attribute_calls (batch_events endpoint node_set)
  = flat_map (λ nodes, add_node_attribute_calls (chunk_events endpoint nodes))
      (_grouper (set_iter node_set) chunk_size None).
Proof.
  unfold batch_events.
  induction (_grouper (set_iter node_set) chunk_size None) as [|nodes tuples IH]; [done|].
  cbn [flat_map]. by rewrite add_node_attribute_calls_app, IH.
Qed.

Lemma tuples_disjoint (node_set : gset string) :
  NoDup (concat (values_clause <$> _grouper (set_iter node_set) chunk_size None)).
Proof.
  rewrite grouper_values by (unfold chunk_size; lia).
  apply NoDup_list_filter, set_iter_NoDup.
Qed.
End Chunks.

(** X16.  Against an endpoint that answers a node-attribute query about
    the nodes it is asked for, [load_nodes] writes a node and key once at
    most, however many chunks the set is cut into: the chunks share no
    identifier, and the dict that is emptied after each chunk holds nodes of
    that chunk only.  The value written is the object of the last row about
    the node and key in the answer to the one query that asks for the node,
    and only nodes of the set are written. *)
Theorem attributes_written_once
    (endpoint : Method → Query → Fault + list Binding)
    `{mutator : GraphMutator} `{order : SetOrder} (node_set : gset string) (g : Graph) :
  endpoint_ok endpoint → answers_about_values endpoint →
  let run := load_nodes endpoint node_set g in
  let calls := add_node_attribute_calls (events run) in
  outcome run = Ok tt
  ∧ NoDup (written <$> calls)
  ∧ (∀ n k v, (n, k, v) ∈ calls ↔
       ∃ curie_list, curie_list ∈ node_requests (events run)
         ∧ last_attribute (rows endpoint POST (NodePropertiesQuery curie_list)) n k = Some v)
  ∧ (∀ n k v, (n, k, v) ∈ calls →
       PyStr.angle n ∈ node_set ∧ queries_including (PyStr.angle n) (events run) = 1%nat).
Proof.
  intros Hok Habout. cbn zeta.
  destruct (emits_load_nodes endpoint Hok node_set g) as [Ho ->].
  rewrite batch_calls, batch_events_requests by done.
  set (tuples := _grouper (set_iter node_set) chunk_size None).
  set (cc := λ nodes, add_node_attribute_calls (chunk_events endpoint nodes)).
  assert (∀ nodes n k v, (n, k, v) ∈ cc nodes → PyStr.angle n ∈ values_clause nodes)
    as Hkey.
  { intros nodes n k v Hin.
    apply (chunk_calls endpoint Hok nodes) in Hin.
    apply attribute_step_subject in Hin as [[=]|(r & s & Hr & Hs & <-)].
    by apply (Habout _ r s). }
  assert (∀ n k v, (n, k, v) ∈ flat_map cc tuples ↔
            ∃ curie_list, curie_list ∈ values_clause <$> tuples
              ∧ last_attribute (rows endpoint POST (NodePropertiesQuery curie_list)) n k
                = Some v) as Hiff.
  { intros n k v. rewrite flat_map_elem. split.
    - intros (nodes & Hnodes & Hin). exists (values_clause nodes).
      split; [by apply list_elem_of_fmap_2|]. by apply (chunk_calls endpoint Hok nodes).
    - intros (cl & (nodes & -> & Hnodes)%list_elem_of_fmap & Hl).
      exists nodes. split; [done|]. by apply (chunk_calls endpoint Hok nodes). }
  split_and!; [done| |done|].
  - rewrite flat_map_fmap.
    apply (NoDup_flat_map_keyed _ values_clause (λ w, PyStr.angle w.1)).
    + apply tuples_disjoint.
    + intros nodes w _ ([[n k] v] & -> & Hin)%list_elem_of_fmap. by apply (Hkey nodes n k v).
    + intros nodes _. apply (chunk_calls endpoint Hok nodes).
  - intros n k v (nodes & Hnodes & Hin)%flat_map_elem.
    pose proof (Hkey nodes n k v Hin) as Hv.
    split; [by apply (tuple_values node_set nodes Hnodes)|].
    unfold queries_including. rewrite batch_events_requests by done.
    rewrite count_in_partition by apply tuples_disjoint.
    rewrite decide_True; [done|].
    rewrite list_elem_of_In, in_concat. exists (values_clause nodes).
    rewrite <- !list_elem_of_In. split; [by apply list_elem_of_fmap_2|done].
Qed.

Lemma store_names_ok known : endpoint_ok (store_names known).
Proof.
  apply fixture_ok; [done|]. intros curie_list. apply Forall_forall.
  intros r (s & -> & _)%list_elem_of_fmap. apply row_ok_row.
Qed.

Lemma store_names_about known : answers_about_values (store_names known).
Proof.
  intros curie_list r s. cbn.
  intros (x & -> & Hx)%list_elem_of_fmap. unfold row. rewrite lookup_insert_eq.
  intros [= <-]. cbn.
  apply list_elem_of_In, List.filter_In in Hx as [_ Hx]. by apply bool_decide_eq_true in Hx.
Qed.

Lemma attributes_written_once_witness :
  let run := load_nodes (store_names ["000"; "111"; "333"; "zzz"])
               (mutator := spec_mutator) (order := elements_order)
               angle_set_25000 empty_graph in
  let calls := add_node_attribute_calls (events run) in
  length (node_requests (events run)) = 3%nat
  ∧ calls = [("333", "name", "333"); ("111", "name", "111"); ("000", "name", "000")]
  ∧ NoDup (written <$> calls)
  ∧ (∀ n k v, (n, k, v) ∈ calls →
       PyStr.angle n ∈ angle_set_25000
       ∧ queries_including (PyStr.angle n) (events run) = 1%nat).
Proof.
  intros run calls.
  destruct (attributes_written_once (store_names ["000"; "111"; "333"; "zzz"])
              (mutator := spec_mutator) (order := elements_order)
              angle_set_25000 empty_graph (store_names_ok _) (store_names_about _))
    as (_ & H1 & _ & H2).
  split_and!; [by vm_compute|by vm_compute|exact H1|exact H2].
Defined.
